(** * Peer-connection orchestration and timer reconciliation

    A shallow embedding of the client-side stores of the event-storming
    facilitator:

    - [Video]  : [frontend/src/stores/video.ts] (the WebRTC peer registry,
                 screen sharing and the AI-audio fan-out);
    - [Timer]  : the timer part of [stores/session.ts] together with
                 [components/session/HeaderTimer.vue].

    Objects that the TypeScript code shares by reference
    ([RTCPeerConnection]s) live in an explicit heap indexed by handles; the
    reactive [Map] of peers is a [gmap] from peer ids to [Peer] records. *)

From stdpp Require Import gmap strings list fin_maps.

Module Video.

(** ** Media objects *)

Inductive TrackKind := audio | video.

#[global] Instance TrackKind_eq_dec : EqDecision TrackKind.
Proof. solve_decision. Defined.

(** A [MediaStreamTrack], identified by its [id]; [kind] is read by the
    sender lookups. *)
Record MediaStreamTrack := { track_id : string; kind : TrackKind }.

#[global] Instance MediaStreamTrack_eq_dec : EqDecision MediaStreamTrack.
Proof. solve_decision. Defined.

Record MediaStream := { stream_id : string; getTracks : list MediaStreamTrack }.

#[global] Instance MediaStream_eq_dec : EqDecision MediaStream.
Proof. solve_decision. Defined.

Definition getVideoTracks (m : MediaStream) : list MediaStreamTrack :=
  filter (λ t, kind t = video) (getTracks m).

Definition getAudioTracks (m : MediaStream) : list MediaStreamTrack :=
  filter (λ t, kind t = audio) (getTracks m).

(** ** Session descriptions, exceptions, completions *)

Inductive SdpType := sdp_offer | sdp_answer.

(** A session description, abstracted to its type and the media kinds of the
    senders it was produced from. *)
Record Sdp := { sdp_type : SdpType; sdp_media : list (option TrackKind) }.

Inductive Exception :=
  | NotAllowedError
  | NotFoundError
  | InvalidStateError
  | TypeError.

(** The outcome of a call that may throw (or of an awaited promise that may
    reject). *)
Inductive Completion (A : Type) :=
  | Return (a : A)
  | Throw (e : Exception).
Arguments Return {A} a.
Arguments Throw {A} e.

(** [navigator.mediaDevices]: what the two acquisition calls resolve to. *)
Record MediaDevices := {
  getUserMedia : bool → bool → Completion MediaStream;
  getDisplayMedia : Completion MediaStream
}.

(** ** Peer connections *)

(** The part of an [RTCPeerConnection] that the store reads or drives.
    [getSenders] lists [sender.track] for every sender, in order. *)
Record RTCPeerConnection := {
  pc_peer : string;
  closed : bool;
  getSenders : list (option MediaStreamTrack);
  localDescription : option Sdp;
  remoteDescription : option Sdp;
  iceCandidates : list string
}.

Definition set_closed (b : bool) (pc : RTCPeerConnection) : RTCPeerConnection :=
  {| pc_peer := pc_peer pc; closed := b; getSenders := getSenders pc;
     localDescription := localDescription pc;
     remoteDescription := remoteDescription pc;
     iceCandidates := iceCandidates pc |}.

Definition set_senders (l : list (option MediaStreamTrack))
    (pc : RTCPeerConnection) : RTCPeerConnection :=
  {| pc_peer := pc_peer pc; closed := closed pc; getSenders := l;
     localDescription := localDescription pc;
     remoteDescription := remoteDescription pc;
     iceCandidates := iceCandidates pc |}.

(** [new RTCPeerConnection({ iceServers })], with the peer id its [ontrack]
    and [onicecandidate] callbacks close over. *)
Definition newRTCPeerConnection (peerId : string) : RTCPeerConnection :=
  {| pc_peer := peerId; closed := false; getSenders := [];
     localDescription := None; remoteDescription := None;
     iceCandidates := [] |}.

(** [pc.close()]. *)
Definition close (pc : RTCPeerConnection) : RTCPeerConnection :=
  set_closed true pc.

(** [pc.addTrack(track, stream)]: throws on a closed connection, otherwise
    one more sender carries the track.  (The other failure of [addTrack], a
    track that already has a sender, is excluded at both call sites: a fresh
    connection receives the tracks of one stream, and the fan-out checks the
    senders first.) *)
Definition addTrack (t : MediaStreamTrack) (pc : RTCPeerConnection)
    : option RTCPeerConnection :=
  if closed pc then None
  else Some (set_senders (getSenders pc ++ [Some t]) pc).

(** [sender.replaceTrack(track)] on the sender at index [i].  The store does
    not await the returned promise; the swap is taken to have happened when
    the call returns. *)
Definition replaceTrack (i : nat) (t : option MediaStreamTrack)
    (pc : RTCPeerConnection) : RTCPeerConnection :=
  set_senders (<[i := t]> (getSenders pc)) pc.

Definition senderKind (s : option MediaStreamTrack) : option TrackKind :=
  kind <$> s.

(** The awaited calls below ([createOffer], [createAnswer],
    [setLocalDescription], [setRemoteDescription]) are recorded on the
    connection they are made on; the store has no handling for their
    rejection. *)

Definition createOffer (pc : RTCPeerConnection) : Sdp :=
  {| sdp_type := sdp_offer; sdp_media := senderKind <$> getSenders pc |}.

Definition createAnswer (pc : RTCPeerConnection) : Sdp :=
  {| sdp_type := sdp_answer; sdp_media := senderKind <$> getSenders pc |}.

Definition setLocalDescription (d : Sdp) (pc : RTCPeerConnection)
    : RTCPeerConnection :=
  {| pc_peer := pc_peer pc; closed := closed pc; getSenders := getSenders pc;
     localDescription := Some d;
     remoteDescription := remoteDescription pc;
     iceCandidates := iceCandidates pc |}.

Definition setRemoteDescription (d : Sdp) (pc : RTCPeerConnection)
    : RTCPeerConnection :=
  {| pc_peer := pc_peer pc; closed := closed pc; getSenders := getSenders pc;
     localDescription := localDescription pc;
     remoteDescription := Some d;
     iceCandidates := iceCandidates pc |}.

(** [pc.addIceCandidate(candidate)]: the promise rejects with
    [InvalidStateError] on a closed connection and on one that has no remote
    description yet; otherwise the candidate is added to the connection. *)
Definition addIceCandidate (c : string) (pc : RTCPeerConnection)
    : Completion RTCPeerConnection :=
  if closed pc then Throw InvalidStateError
  else
    match remoteDescription pc with
    | None => Throw InvalidStateError
    | Some _ =>
        Return
          {| pc_peer := pc_peer pc; closed := closed pc;
             getSenders := getSenders pc;
             localDescription := localDescription pc;
             remoteDescription := remoteDescription pc;
             iceCandidates := iceCandidates pc ++ [c] |}
    end.

(** [s => s.track?.kind === 'video'] *)
Definition isVideoSender (s : option MediaStreamTrack) : Prop :=
  kind <$> s = Some video.

#[global] Instance isVideoSender_dec s : Decision (isVideoSender s).
Proof. unfold isVideoSender. apply _. Defined.

(** [s => s.track?.id === id] *)
Definition carriesId (tid : string) (s : option MediaStreamTrack) : Prop :=
  track_id <$> s = Some tid.

#[global] Instance carriesId_dec tid s : Decision (carriesId tid s).
Proof. unfold carriesId. apply _. Defined.

(** ** The registry and the store *)

Record Peer := {
  peer_id : string;
  peer_name : string;
  connection : option nat;
  stream : option MediaStream;
  peer_audioMuted : bool;
  peer_videoMuted : bool
}.

(** Messages the client emits on the signaling socket. *)
Inductive Emit :=
  | screen_share_start (session_id : string)
  | screen_share_stop (session_id : string)
  | video_offer (target_id : string) (sdp : option Sdp)
  | video_answer (target_id : string) (sdp : option Sdp)
  | video_ice_candidate (target_id : string) (candidate : string)
  | video_join (session_id participant_name : string)
  | video_leave (session_id : string)
  | ai_connected (session_id host_id : string)
  | ai_disconnected (session_id : string).

Record Socket := { socket_id : string; outbox : list Emit }.

(** The refs of the store, followed by the two pieces of browser state that
    the store's calls change: the heap of connection objects ([conns], indexed
    by handle) and the tracks that have been stopped or given an [onended]
    callback. *)
Record VideoStore := {
  socket : option Socket;
  localStream : option MediaStream;
  screenStream : option MediaStream;
  peers : gmap string Peer;
  audioMuted : bool;
  videoMuted : bool;
  isScreenSharing : bool;
  sessionId : string;
  participantName : string;
  aiConnection : option nat;
  aiConnected : bool;
  aiTranscript : list string;
  aiAudioStream : option MediaStream;
  isAIHost : bool;
  conns : list RTCPeerConnection;
  stoppedTracks : list MediaStreamTrack;
  onended : list MediaStreamTrack
}.

Definition set_socket (v : option Socket) (s : VideoStore) : VideoStore :=
  Build_VideoStore v (localStream s) (screenStream s) (peers s) (audioMuted s)
    (videoMuted s) (isScreenSharing s) (sessionId s) (participantName s)
    (aiConnection s) (aiConnected s) (aiTranscript s) (aiAudioStream s)
    (isAIHost s) (conns s) (stoppedTracks s) (onended s).

Definition set_localStream (v : option MediaStream) (s : VideoStore) : VideoStore :=
  Build_VideoStore (socket s) v (screenStream s) (peers s) (audioMuted s)
    (videoMuted s) (isScreenSharing s) (sessionId s) (participantName s)
    (aiConnection s) (aiConnected s) (aiTranscript s) (aiAudioStream s)
    (isAIHost s) (conns s) (stoppedTracks s) (onended s).

Definition set_screenStream (v : option MediaStream) (s : VideoStore) : VideoStore :=
  Build_VideoStore (socket s) (localStream s) v (peers s) (audioMuted s)
    (videoMuted s) (isScreenSharing s) (sessionId s) (participantName s)
    (aiConnection s) (aiConnected s) (aiTranscript s) (aiAudioStream s)
    (isAIHost s) (conns s) (stoppedTracks s) (onended s).

Definition set_peers (v : gmap string Peer) (s : VideoStore) : VideoStore :=
  Build_VideoStore (socket s) (localStream s) (screenStream s) v (audioMuted s)
    (videoMuted s) (isScreenSharing s) (sessionId s) (participantName s)
    (aiConnection s) (aiConnected s) (aiTranscript s) (aiAudioStream s)
    (isAIHost s) (conns s) (stoppedTracks s) (onended s).

Definition set_isScreenSharing (v : bool) (s : VideoStore) : VideoStore :=
  Build_VideoStore (socket s) (localStream s) (screenStream s) (peers s)
    (audioMuted s) (videoMuted s) v (sessionId s) (participantName s)
    (aiConnection s) (aiConnected s) (aiTranscript s) (aiAudioStream s)
    (isAIHost s) (conns s) (stoppedTracks s) (onended s).

Definition set_session (sid name : string) (s : VideoStore) : VideoStore :=
  Build_VideoStore (socket s) (localStream s) (screenStream s) (peers s)
    (audioMuted s) (videoMuted s) (isScreenSharing s) sid name
    (aiConnection s) (aiConnected s) (aiTranscript s) (aiAudioStream s)
    (isAIHost s) (conns s) (stoppedTracks s) (onended s).

Definition set_aiConnection (v : option nat) (s : VideoStore) : VideoStore :=
  Build_VideoStore (socket s) (localStream s) (screenStream s) (peers s)
    (audioMuted s) (videoMuted s) (isScreenSharing s) (sessionId s)
    (participantName s) v (aiConnected s) (aiTranscript s) (aiAudioStream s)
    (isAIHost s) (conns s) (stoppedTracks s) (onended s).

Definition set_aiConnected (v : bool) (s : VideoStore) : VideoStore :=
  Build_VideoStore (socket s) (localStream s) (screenStream s) (peers s)
    (audioMuted s) (videoMuted s) (isScreenSharing s) (sessionId s)
    (participantName s) (aiConnection s) v (aiTranscript s) (aiAudioStream s)
    (isAIHost s) (conns s) (stoppedTracks s) (onended s).

Definition set_aiAudioStream (v : option MediaStream) (s : VideoStore) : VideoStore :=
  Build_VideoStore (socket s) (localStream s) (screenStream s) (peers s)
    (audioMuted s) (videoMuted s) (isScreenSharing s) (sessionId s)
    (participantName s) (aiConnection s) (aiConnected s) (aiTranscript s) v
    (isAIHost s) (conns s) (stoppedTracks s) (onended s).

Definition set_isAIHost (v : bool) (s : VideoStore) : VideoStore :=
  Build_VideoStore (socket s) (localStream s) (screenStream s) (peers s)
    (audioMuted s) (videoMuted s) (isScreenSharing s) (sessionId s)
    (participantName s) (aiConnection s) (aiConnected s) (aiTranscript s)
    (aiAudioStream s) v (conns s) (stoppedTracks s) (onended s).

Definition set_conns (v : list RTCPeerConnection) (s : VideoStore) : VideoStore :=
  Build_VideoStore (socket s) (localStream s) (screenStream s) (peers s)
    (audioMuted s) (videoMuted s) (isScreenSharing s) (sessionId s)
    (participantName s) (aiConnection s) (aiConnected s) (aiTranscript s)
    (aiAudioStream s) (isAIHost s) v (stoppedTracks s) (onended s).

Definition set_stoppedTracks (v : list MediaStreamTrack) (s : VideoStore) : VideoStore :=
  Build_VideoStore (socket s) (localStream s) (screenStream s) (peers s)
    (audioMuted s) (videoMuted s) (isScreenSharing s) (sessionId s)
    (participantName s) (aiConnection s) (aiConnected s) (aiTranscript s)
    (aiAudioStream s) (isAIHost s) (conns s) v (onended s).

Definition set_onended (v : list MediaStreamTrack) (s : VideoStore) : VideoStore :=
  Build_VideoStore (socket s) (localStream s) (screenStream s) (peers s)
    (audioMuted s) (videoMuted s) (isScreenSharing s) (sessionId s)
    (participantName s) (aiConnection s) (aiConnected s) (aiTranscript s)
    (aiAudioStream s) (isAIHost s) (conns s) (stoppedTracks s) v.

(** [socket.value?.emit(...)] *)
Definition emit (e : Emit) (s : VideoStore) : VideoStore :=
  match socket s with
  | Some k =>
      set_socket (Some {| socket_id := socket_id k; outbox := outbox k ++ [e] |}) s
  | None => s
  end.

(** What has been emitted so far. *)
Definition sent (s : VideoStore) : list Emit :=
  match socket s with
  | Some k => outbox k
  | None => []
  end.

(** [peers.value.forEach(cb)], for callbacks that act on the heap of
    connections. *)
Definition forEachPeer
    (cb : Peer → string → list RTCPeerConnection → list RTCPeerConnection)
    (ps : gmap string Peer) (heap : list RTCPeerConnection)
    : list RTCPeerConnection :=
  foldl (λ hp kp, cb kp.2 kp.1 hp) heap (map_to_list ps).

(** [if (peer.connection) { ... peer.connection ... }] *)
Definition onConnection (f : RTCPeerConnection → RTCPeerConnection)
    (p : Peer) (heap : list RTCPeerConnection) : list RTCPeerConnection :=
  match connection p with
  | Some h => alter f h heap
  | None => heap
  end.

(** ** Local media *)

(** [initLocalMedia(video, audio)]: the assignment to [localStream] happens
    only once [getUserMedia] has resolved; a rejection is logged and
    rethrown. *)
Definition initLocalMedia (dev : MediaDevices) (video_ audio_ : bool)
    (s : VideoStore) : Completion MediaStream * VideoStore :=
  match getUserMedia dev video_ audio_ with
  | Return m => (Return m, set_localStream (Some m) s)
  | Throw e => (Throw e, s)
  end.

(** [const sender = pc.getSenders().find(s => s.track?.kind === 'video');
     if (sender) sender.replaceTrack(videoTrack)] *)
Definition replaceVideoSender (videoTrack : option MediaStreamTrack)
    (pc : RTCPeerConnection) : RTCPeerConnection :=
  match list_find isVideoSender (getSenders pc) with
  | Some (i, _) => replaceTrack i videoTrack pc
  | None => pc
  end.

(** [if (sender && videoTrack) sender.replaceTrack(videoTrack)] *)
Definition restoreVideoSender (videoTrack : option MediaStreamTrack)
    (pc : RTCPeerConnection) : RTCPeerConnection :=
  match videoTrack with
  | Some t => replaceVideoSender (Some t) pc
  | None => pc
  end.

(** [startScreenShare()].  When the acquired stream has no video track,
    [videoTrack] is [undefined]: the senders are handed [undefined] and the
    assignment to [videoTrack.onended] throws inside the [try]. *)
Definition startScreenShare (dev : MediaDevices) (s : VideoStore)
    : Completion MediaStream * VideoStore :=
  match getDisplayMedia dev with
  | Throw e => (Throw e, s)
  | Return scr =>
      let s1 := set_isScreenSharing true (set_screenStream (Some scr) s) in
      let videoTrack := head (getVideoTracks scr) in
      let s2 :=
        set_conns
          (forEachPeer (λ peer _, onConnection (replaceVideoSender videoTrack) peer)
             (peers s1) (conns s1)) s1 in
      match videoTrack with
      | None => (Throw TypeError, s2)
      | Some vt =>
          let s3 := set_onended (vt :: onended s2) s2 in
          (Return scr, emit (screen_share_start (sessionId s3)) s3)
      end
  end.

(** [stopScreenShare()] *)
Definition stopScreenShare (s : VideoStore) : VideoStore :=
  match screenStream s with
  | None => s
  | Some scr =>
      let s1 := set_stoppedTracks (stoppedTracks s ++ getTracks scr) s in
      let s2 := set_isScreenSharing false (set_screenStream None s1) in
      let s3 :=
        match localStream s2 with
        | Some cam =>
            let videoTrack := head (getVideoTracks cam) in
            set_conns
              (forEachPeer
                 (λ peer _, onConnection (restoreVideoSender videoTrack) peer)
                 (peers s2) (conns s2)) s2
        | None => s2
        end in
      emit (screen_share_stop (sessionId s3)) s3
  end.

(** The [onended] callback installed by [startScreenShare]. *)
Definition on_track_ended (t : MediaStreamTrack) (s : VideoStore) : VideoStore :=
  if decide (t ∈ onended s) then stopScreenShare s else s.

(** ** Negotiation *)

(** [existing?.name || 'Unknown'] *)
Definition nameOrUnknown (existing : option Peer) : string :=
  match existing with
  | Some p => if decide (peer_name p = "") then "Unknown" else peer_name p
  | None => "Unknown"
  end.

(** [createPeerConnection(peerId, createOffer)]; returns the handle of the
    new connection, its final value and the store. *)
Definition createPeerConnection (peerId : string) (createOffer_ : bool)
    (s : VideoStore) : nat * RTCPeerConnection * VideoStore :=
  let h := length (conns s) in
  let pc0 := newRTCPeerConnection peerId in
  let pc1 :=
    match localStream s with
    | Some m => foldl (λ pc t, default pc (addTrack t pc)) pc0 (getTracks m)
    | None => pc0
    end in
  let existing := peers s !! peerId in
  let entry :=
    {| peer_id := peerId;
       peer_name := nameOrUnknown existing;
       connection := Some h;
       stream := existing ≫= stream;
       peer_audioMuted := from_option peer_audioMuted false existing;
       peer_videoMuted := from_option peer_videoMuted false existing |} in
  let s1 := set_peers (<[peerId := entry]> (peers s)) (set_conns (conns s ++ [pc1]) s) in
  if createOffer_ then
    let pc2 := setLocalDescription (createOffer pc1) pc1 in
    let s2 := set_conns (<[h := pc2]> (conns s1)) s1 in
    (h, pc2, emit (video_offer peerId (localDescription pc2)) s2)
  else (h, pc1, s1).

(** [handleOffer(fromId, sdp)] *)
Definition handleOffer (fromId : string) (sdp : Sdp) (s : VideoStore) : VideoStore :=
  let '(h, pc, s1) := createPeerConnection fromId false s in
  let pc1 := setRemoteDescription sdp pc in
  let pc2 := setLocalDescription (createAnswer pc1) pc1 in
  let s2 := set_conns (<[h := pc2]> (conns s1)) s1 in
  emit (video_answer fromId (localDescription pc2)) s2.

(** [handleAnswer(fromId, sdp)] *)
Definition handleAnswer (fromId : string) (sdp : Sdp) (s : VideoStore) : VideoStore :=
  match peers s !! fromId ≫= connection with
  | Some h => set_conns (alter (setRemoteDescription sdp) h (conns s)) s
  | None => s
  end.

(** [handleIceCandidate(fromId, candidate)]: the awaited
    [addIceCandidate] is not wrapped in a [try], so its rejection is the
    rejection of the handler.  (A handle held by the registry names an object
    of the heap; for one that does not, nothing is done.) *)
Definition handleIceCandidate (fromId : string) (candidate : string)
    (s : VideoStore) : Completion unit * VideoStore :=
  match peers s !! fromId ≫= connection with
  | Some h =>
      match conns s !! h with
      | Some pc =>
          match addIceCandidate candidate pc with
          | Return pc' => (Return (), set_conns (<[h := pc']> (conns s)) s)
          | Throw e => (Throw e, s)
          end
      | None => (Return (), s)
      end
  | None => (Return (), s)
  end.

(** The [pc.ontrack] callback of the connection with handle [h]. *)
Definition on_track (h : nat) (m : MediaStream) (s : VideoStore) : VideoStore :=
  match pc_peer <$> conns s !! h with
  | Some peerId =>
      match peers s !! peerId with
      | Some peer =>
          set_peers
            (<[peerId := {| peer_id := peer_id peer; peer_name := peer_name peer;
                            connection := connection peer; stream := Some m;
                            peer_audioMuted := peer_audioMuted peer;
                            peer_videoMuted := peer_videoMuted peer |}]> (peers s)) s
      | None => s
      end
  | None => s
  end.

(** The [pc.onicecandidate] callback of the connection with handle [h]. *)
Definition on_icecandidate (h : nat) (candidate : option string)
    (s : VideoStore) : VideoStore :=
  match pc_peer <$> conns s !! h, candidate with
  | Some peerId, Some c => emit (video_ice_candidate peerId c) s
  | _, _ => s
  end.

(** ** Socket handlers registered by [connectVideo] *)

(** ['video_peers']: connect to all existing peers. *)
Definition on_video_peers (ids : list string) (s : VideoStore) : VideoStore :=
  foldl (λ st peerId, (createPeerConnection peerId true st).2) s ids.

(** ['video_peer_joined']: record the new peer and wait for their offer. *)
Definition on_video_peer_joined (pid name : string) (s : VideoStore) : VideoStore :=
  set_peers
    (<[pid := {| peer_id := pid; peer_name := name; connection := None;
                 stream := None; peer_audioMuted := false;
                 peer_videoMuted := false |}]> (peers s)) s.

(** ['video_peer_left'] *)
Definition on_video_peer_left (pid : string) (s : VideoStore) : VideoStore :=
  let s1 :=
    match peers s !! pid ≫= connection with
    | Some h => set_conns (alter close h (conns s)) s
    | None => s
    end in
  set_peers (delete pid (peers s1)) s1.

(** ['video_mute_status'] *)
Definition on_video_mute_status (pid : string) (audio_muted video_muted : bool)
    (s : VideoStore) : VideoStore :=
  set_peers
    (alter (λ peer, {| peer_id := peer_id peer; peer_name := peer_name peer;
                       connection := connection peer; stream := stream peer;
                       peer_audioMuted := audio_muted;
                       peer_videoMuted := video_muted |}) pid (peers s)) s.

(** Messages delivered by the signaling socket. *)
Inductive ServerEvent :=
  | ev_video_peers (ids : list string)
  | ev_video_peer_joined (pid name : string)
  | ev_video_peer_left (pid : string)
  | ev_video_offer (from_id : string) (sdp : Sdp)
  | ev_video_answer (from_id : string) (sdp : Sdp)
  | ev_video_ice_candidate (from_id : string) (candidate : string)
  | ev_video_mute_status (pid : string) (audio_muted video_muted : bool).

(** The dispatch that [socket.on(...)] sets up.  Nobody awaits the promise
    of a listener: when [handleIceCandidate] rejects, the rejection goes
    unhandled and the store is as the handler left it. *)
Definition receive (ev : ServerEvent) (s : VideoStore) : VideoStore :=
  match ev with
  | ev_video_peers ids => on_video_peers ids s
  | ev_video_peer_joined pid name => on_video_peer_joined pid name s
  | ev_video_peer_left pid => on_video_peer_left pid s
  | ev_video_offer from_id sdp => handleOffer from_id sdp s
  | ev_video_answer from_id sdp => handleAnswer from_id sdp s
  | ev_video_ice_candidate from_id c => (handleIceCandidate from_id c s).2
  | ev_video_mute_status pid a v => on_video_mute_status pid a v s
  end.

(** [connectVideo(sid, name, existingSocket)]; [io] is the socket that
    [io(API_BASE, ...)] would open. *)
Definition connectVideo (sid name : string) (existingSocket : option Socket)
    (io : Socket) (s : VideoStore) : VideoStore :=
  let s1 := set_session sid name s in
  let s2 := set_socket (Some (default io existingSocket)) s1 in
  emit (video_join sid name) s2.

(** ** The AI facilitator as a virtual participant *)

Definition ai_facilitator : string := "ai-facilitator".

Definition aiPeer (m : MediaStream) : Peer :=
  {| peer_id := ai_facilitator; peer_name := "🤖 AI 퍼실리테이터";
     connection := None; stream := Some m;
     peer_audioMuted := false; peer_videoMuted := true |}.

(** The body of the [forEach] in [broadcastAIAudio], on one connection:
    add the track unless a sender already carries a track with its id; a
    failing [addTrack] is caught and logged. *)
Definition attachAITrack (audioTrack : MediaStreamTrack)
    (pc : RTCPeerConnection) : RTCPeerConnection :=
  if decide (Exists (carriesId (track_id audioTrack)) (getSenders pc)) then pc
  else default pc (addTrack audioTrack pc).

(** [broadcastAIAudio()] *)
Definition broadcastAIAudio (s : VideoStore) : VideoStore :=
  match aiAudioStream s with
  | None => s
  | Some m =>
      match head (getAudioTracks m) with
      | None => s
      | Some audioTrack =>
          set_conns
            (forEachPeer
               (λ peer peerId heap,
                  if decide (peerId = ai_facilitator) then heap
                  else onConnection (attachAITrack audioTrack) peer heap)
               (peers s) (conns s)) s
      end
  end.

(** [setAIAudioStream(stream)] *)
Definition setAIAudioStream (m : MediaStream) (s : VideoStore) : VideoStore :=
  let s1 := set_aiConnected true (set_isAIHost true (set_aiAudioStream (Some m) s)) in
  let s2 := set_peers (<[ai_facilitator := aiPeer m]> (peers s1)) s1 in
  let s3 :=
    emit (ai_connected (sessionId s2) (from_option socket_id "" (socket s2))) s2 in
  broadcastAIAudio s3.

(** [handleRemoteAIAudio(stream)] *)
Definition handleRemoteAIAudio (m : MediaStream) (s : VideoStore) : VideoStore :=
  if isAIHost s then s
  else
    let s1 := set_aiConnected true (set_aiAudioStream (Some m) s) in
    set_peers (<[ai_facilitator := aiPeer m]> (peers s1)) s1.

(** [disconnectAI()] *)
Definition disconnectAI (s : VideoStore) : VideoStore :=
  match aiConnection s with
  | Some h =>
      let s1 := set_conns (alter close h (conns s)) s in
      let s2 :=
        set_aiAudioStream None
          (set_isAIHost false (set_aiConnected false (set_aiConnection None s1))) in
      let s3 := set_peers (delete ai_facilitator (peers s2)) s2 in
      emit (ai_disconnected (sessionId s3)) s3
  | None => s
  end.

(** ** Observations used by the statements *)

(** The handles of the connections held by registry entries. *)
Definition connectedHandles (s : VideoStore) : gset nat :=
  list_to_set (omap (λ kp : string * Peer, connection kp.2) (map_to_list (peers s))).

(** Number of senders of [pc] whose track is [t]. *)
Definition carrying (t : MediaStreamTrack) (pc : RTCPeerConnection) : nat :=
  length (filter (λ x, x = Some t) (getSenders pc)).

(** Number of senders, over all registered connections, whose track is [t]. *)
Definition sendersCarrying (t : MediaStreamTrack) (s : VideoStore) : nat :=
  sum_list
    ((λ h, from_option (carrying t) 0 (conns s !! h)) <$> elements (connectedHandles s)).

(** The connection with handle [h] has an outgoing video sender. *)
Definition hasVideoSender (heap : list RTCPeerConnection) (h : nat) : Prop :=
  match heap !! h with
  | Some pc => Exists isVideoSender (getSenders pc)
  | None => False
  end.

#[global] Instance hasVideoSender_dec heap h : Decision (hasVideoSender heap h).
Proof. unfold hasVideoSender. destruct (heap !! h); apply _. Defined.

(** The registered connections that have an outgoing video sender. *)
Definition videoHandles (s : VideoStore) : gset nat :=
  filter (hasVideoSender (conns s)) (connectedHandles s).

(** Number of senders of [pc] that carry a track with id [tid]. *)
Definition carryingId (tid : string) (pc : RTCPeerConnection) : nat :=
  length (filter (carriesId tid) (getSenders pc)).

(** On every registered connection, [t] sits on no sender other than the
    first video sender (the one the two screen-share loops pick). *)
Definition onlyOnVideoSenders (t : MediaStreamTrack) (s : VideoStore) : Prop :=
  ∀ h pc j, h ∈ connectedHandles s → conns s !! h = Some pc →
    getSenders pc !! j = Some (Some t) →
    ∃ x, list_find isVideoSender (getSenders pc) = Some (j, x).

(** [s'] is [s] with track [t] swapped onto the first video sender of every
    registered connection that has one. *)
Definition videoSendersSwapped (t : MediaStreamTrack) (s s' : VideoStore) : Prop :=
  peers s' = peers s ∧
  (∀ h, h ∈ connectedHandles s →
     conns s' !! h = replaceVideoSender (Some t) <$> conns s !! h) ∧
  (∀ h, h ∉ connectedHandles s → conns s' !! h = conns s !! h) ∧
  (onlyOnVideoSenders t s → sendersCarrying t s' = size (videoHandles s)) ∧
  (∀ old, old ≠ t → onlyOnVideoSenders old s → sendersCarrying old s' = 0).

(** The registry invariant: a handle held by an entry names a live (not
    closed) connection object, and no other entry holds it. *)
Definition registryLive (s : VideoStore) : Prop :=
  ∀ k p h, peers s !! k = Some p → connection p = Some h →
    (closed <$> conns s) !! h = Some false ∧
    (∀ k' p', peers s !! k' = Some p' → connection p' = Some h → k' = k).

(** The offers among a list of emitted messages, as their targets. *)
Definition offerTargets (l : list Emit) : list string :=
  omap (λ e, match e with video_offer t _ => Some t | _ => None end) l.

Definition answerTargets (l : list Emit) : list string :=
  omap (λ e, match e with video_answer t _ => Some t | _ => None end) l.

End Video.

Module Timer.

Open Scope Z_scope.

(** ** The timer state of the session store ([stores/session.ts]) *)

Inductive SessionPhase :=
  | orientation
  | event_elicitation
  | event_refinement
  | command_policy
  | timeline_ordering
  | summary.

#[global] Instance SessionPhase_eq_dec : EqDecision SessionPhase.
Proof. solve_decision. Defined.

(** The string a phase is at run time (used in template literals). *)
Definition phaseName (p : SessionPhase) : string :=
  match p with
  | orientation => "orientation"
  | event_elicitation => "event_elicitation"
  | event_refinement => "event_refinement"
  | command_policy => "command_policy"
  | timeline_ordering => "timeline_ordering"
  | summary => "summary"
  end.

(** The fields of [Session] the timer reads; dates are in milliseconds. *)
Record Session := {
  session_id : string;
  phase : SessionPhase;
  duration_minutes : Z;
  started_at : option Z
}.

(** Messages the session store emits for the timer. *)
Inductive ClientMsg :=
  | start_workshop (session_id host_name : string)
  | sync_timer (session_id : string)
  | pause_timer (session_id : string) (paused : bool) (elapsed_seconds : Z).

Record SessionStore := {
  socket : option (list ClientMsg);
  session : option Session;
  currentUser : string;
  workshopStartedAt : option Z;
  isWorkshopRunning : bool;
  isPaused : bool;
  syncedElapsedSeconds : Z
}.

Definition set_session_phase (p : SessionPhase) (st : SessionStore) : SessionStore :=
  {| socket := socket st;
     session :=
       (λ x, {| session_id := session_id x; phase := p;
                duration_minutes := duration_minutes x;
                started_at := started_at x |}) <$> session st;
     currentUser := currentUser st;
     workshopStartedAt := workshopStartedAt st;
     isWorkshopRunning := isWorkshopRunning st;
     isPaused := isPaused st;
     syncedElapsedSeconds := syncedElapsedSeconds st |}.

(** Messages the socket delivers to the session store. *)
Inductive ServerMsg :=
  | workshop_started (started : Z) (p : SessionPhase)
  | timer_sync (started : option Z) (p : SessionPhase)
  | timer_paused (paused : bool) (elapsed_seconds : Z)
  | phase_changed (p : SessionPhase).

(** ['workshop_started'] *)
Definition on_workshop_started (started : Z) (p : SessionPhase)
    (st : SessionStore) : SessionStore :=
  {| socket := socket st;
     session :=
       (λ x, {| session_id := session_id x; phase := p;
                duration_minutes := duration_minutes x;
                started_at := Some started |}) <$> session st;
     currentUser := currentUser st;
     workshopStartedAt := Some started;
     isWorkshopRunning := true;
     isPaused := false;
     syncedElapsedSeconds := syncedElapsedSeconds st |}.

(** ['timer_sync']; [if (data.started_at)] is the truthiness test. *)
Definition on_timer_sync (started : option Z) (p : SessionPhase)
    (st : SessionStore) : SessionStore :=
  let st1 :=
    match started with
    | Some t =>
        {| socket := socket st; session := session st;
           currentUser := currentUser st;
           workshopStartedAt := Some t;
           isWorkshopRunning := true;
           isPaused := isPaused st;
           syncedElapsedSeconds := syncedElapsedSeconds st |}
    | None => st
    end in
  set_session_phase p st1.

(** ['timer_paused'] *)
Definition on_timer_paused (paused : bool) (elapsed_seconds : Z)
    (st : SessionStore) : SessionStore :=
  {| socket := socket st; session := session st;
     currentUser := currentUser st;
     workshopStartedAt := workshopStartedAt st;
     isWorkshopRunning := isWorkshopRunning st;
     isPaused := paused;
     syncedElapsedSeconds := elapsed_seconds |}.

(** ['phase_changed'] *)
Definition on_phase_changed (p : SessionPhase) (st : SessionStore) : SessionStore :=
  set_session_phase p st.

Definition handle (m : ServerMsg) (st : SessionStore) : SessionStore :=
  match m with
  | workshop_started t p => on_workshop_started t p st
  | timer_sync t p => on_timer_sync t p st
  | timer_paused b e => on_timer_paused b e st
  | phase_changed p => on_phase_changed p st
  end.

(** [if (!socket.value || !session.value) return; socket.value.emit(...)] *)
Definition emitMsg (mk : string → ClientMsg) (st : SessionStore) : SessionStore :=
  match socket st, session st with
  | Some out, Some x =>
      {| socket := Some (out ++ [mk (session_id x)]); session := session st;
         currentUser := currentUser st;
         workshopStartedAt := workshopStartedAt st;
         isWorkshopRunning := isWorkshopRunning st;
         isPaused := isPaused st;
         syncedElapsedSeconds := syncedElapsedSeconds st |}
  | _, _ => st
  end.

Definition startWorkshop (st : SessionStore) : SessionStore :=
  emitMsg (λ sid, start_workshop sid (currentUser st)) st.

Definition requestTimerSync (st : SessionStore) : SessionStore :=
  emitMsg sync_timer st.

Definition pauseTimer (paused : bool) (elapsedSeconds : Z) (st : SessionStore)
    : SessionStore :=
  emitMsg (λ sid, pause_timer sid paused elapsedSeconds) st.

(** ** The header timer component ([HeaderTimer.vue]) *)

(** Events the component emits to its parent. *)
Inductive TimerEvent :=
  | timeWarning (type : string) (minutesLeft : Z) (p : SessionPhase)
  | phaseTimeUp (p : SessionPhase)
  | workshopEnd.

(** The refs of the component, its [totalMinutes] prop, the events emitted
    so far, and the id the next [setInterval] returns. *)
Record HeaderTimer := {
  totalMinutes : option Z;
  elapsedSeconds : Z;
  isRunning : bool;
  timerInterval : option nat;
  warningsSent : gset string;
  showDetails : bool;
  emitted : list TimerEvent;
  nextInterval : nat
}.

(** A mounted component together with the store it observes. *)
Record View := { store : SessionStore; timer : HeaderTimer }.

Definition set_store (st : SessionStore) (v : View) : View :=
  {| store := st; timer := timer v |}.

Definition set_timer (t : HeaderTimer) (v : View) : View :=
  {| store := store v; timer := t |}.

Definition set_elapsedSeconds (e : Z) (t : HeaderTimer) : HeaderTimer :=
  {| totalMinutes := totalMinutes t; elapsedSeconds := e;
     isRunning := isRunning t; timerInterval := timerInterval t;
     warningsSent := warningsSent t; showDetails := showDetails t;
     emitted := emitted t; nextInterval := nextInterval t |}.

Definition phaseAllocation (p : SessionPhase) : Z :=
  match p with
  | orientation => 10
  | event_elicitation => 30
  | event_refinement => 20
  | command_policy => 20
  | timeline_ordering => 10
  | summary => 10
  end.

Definition phaseOrder : list SessionPhase :=
  [orientation; event_elicitation; event_refinement;
   command_policy; timeline_ordering; summary].

Record PhaseTiming := {
  timing_phase : SessionPhase;
  startSeconds : Z;
  endSeconds : Z
}.

(** [x || y] on numbers that may be undefined: [0] is falsy. *)
Definition orElse (x : option Z) (y : option Z) : option Z :=
  match x with
  | Some n => if decide (n = 0) then y else Some n
  | None => y
  end.

Section Computed.

(** [floorShare total percent] stands for the double-precision
    [Math.floor(total * (percent / 100))]. *)
Variable floorShare : Z → Z → Z.

Definition totalSeconds (v : View) : Z :=
  default 60
    (orElse (totalMinutes (timer v))
       (orElse (duration_minutes <$> session (store v)) None)) * 60.

Definition remainingSeconds (v : View) : Z :=
  Z.max 0 (totalSeconds v - elapsedSeconds (timer v)).

(** [sessionStore.session?.phase || 'orientation'] *)
Definition currentPhase (v : View) : SessionPhase :=
  from_option phase orientation (session (store v)).

Fixpoint timingsFrom (total accumulated : Z) (l : list SessionPhase)
    : list PhaseTiming :=
  match l with
  | [] => []
  | p :: rest =>
      let duration := floorShare total (phaseAllocation p) in
      {| timing_phase := p; startSeconds := accumulated;
         endSeconds := accumulated + duration |}
        :: timingsFrom total (accumulated + duration) rest
  end.

Definition phaseTimings (v : View) : list PhaseTiming :=
  timingsFrom (totalSeconds v) 0 phaseOrder.

Definition phaseRemainingSeconds (v : View) : Z :=
  match list_find (λ t, timing_phase t = currentPhase v) (phaseTimings v) with
  | Some (_, timing) => Z.max 0 (endSeconds timing - elapsedSeconds (timer v))
  | None => 0
  end.

(** [pauseTimerLocal()] *)
Definition pauseTimerLocal (t : HeaderTimer) : HeaderTimer :=
  {| totalMinutes := totalMinutes t; elapsedSeconds := elapsedSeconds t;
     isRunning := false; timerInterval := None;
     warningsSent := warningsSent t; showDetails := showDetails t;
     emitted := emitted t; nextInterval := nextInterval t |}.

(** [startTimerLocal()]: installs the one-second interval. *)
Definition startTimerLocal (t : HeaderTimer) : HeaderTimer :=
  if isRunning t then t
  else
    {| totalMinutes := totalMinutes t; elapsedSeconds := elapsedSeconds t;
       isRunning := true; timerInterval := Some (nextInterval t);
       warningsSent := warningsSent t; showDetails := showDetails t;
       emitted := emitted t; nextInterval := S (nextInterval t) |}.

(** [warningsSent.value.add(key); emit(ev)] *)
Definition notify (key : string) (ev : TimerEvent) (t : HeaderTimer) : HeaderTimer :=
  {| totalMinutes := totalMinutes t; elapsedSeconds := elapsedSeconds t;
     isRunning := isRunning t; timerInterval := timerInterval t;
     warningsSent := {[key]} ∪ warningsSent t; showDetails := showDetails t;
     emitted := emitted t ++ [ev]; nextInterval := nextInterval t |}.

(** [if (remaining === at && !warningsSent.value.has(key)) { ... }] *)
Definition threshold (remaining at_ : Z) (key : string) (ev : TimerEvent)
    (t : HeaderTimer) : HeaderTimer :=
  if decide (remaining = at_ ∧ key ∉ warningsSent t) then notify key ev t else t.

(** [checkTimeEvents()] *)
Definition checkTimeEvents (v : View) : View :=
  let p := currentPhase v in
  let phaseRemaining := phaseRemainingSeconds v in
  let totalRemaining := remainingSeconds v in
  let t0 := timer v in
  let t1 := threshold phaseRemaining 300 (phaseName p +:+ "-5min")
              (timeWarning "phase-5min" 5 p) t0 in
  let t2 := threshold phaseRemaining 60 (phaseName p +:+ "-1min")
              (timeWarning "phase-1min" 1 p) t1 in
  let t3 := threshold phaseRemaining 0 (phaseName p +:+ "-end")
              (phaseTimeUp p) t2 in
  let t4 := threshold totalRemaining 600 "total-10min"
              (timeWarning "total-10min" 10 p) t3 in
  let t5 := threshold totalRemaining 300 "total-5min"
              (timeWarning "total-5min" 5 p) t4 in
  let t6 :=
    if decide (totalRemaining = 0 ∧ "workshop-end" ∉ warningsSent t5)
    then pauseTimerLocal (notify "workshop-end" workshopEnd t5)
    else t5 in
  set_timer t6 v.

(** The callback of the interval installed by [startTimerLocal]; it only
    runs while the interval is installed. *)
Definition tick (v : View) : View :=
  match timerInterval (timer v) with
  | Some _ =>
      if isPaused (store v) then v
      else
        checkTimeEvents
          (set_timer (set_elapsedSeconds (elapsedSeconds (timer v) + 1) (timer v)) v)
  | None => v
  end.

(** [toggleTimer()] *)
Definition toggleTimer (v : View) : View :=
  if isRunning (timer v) then
    let t := pauseTimerLocal (timer v) in
    {| store := pauseTimer true (elapsedSeconds t) (store v); timer := t |}
  else
    let st :=
      if isWorkshopRunning (store v) then
        pauseTimer false (elapsedSeconds (timer v)) (store v)
      else startWorkshop (store v) in
    {| store := st; timer := startTimerLocal (timer v) |}.

(** The reset button: [elapsedSeconds = 0; warningsSent.clear()] *)
Definition reset (v : View) : View :=
  set_timer
    {| totalMinutes := totalMinutes (timer v); elapsedSeconds := 0;
       isRunning := isRunning (timer v);
       timerInterval := timerInterval (timer v);
       warningsSent := ∅; showDetails := showDetails (timer v);
       emitted := emitted (timer v);
       nextInterval := nextInterval (timer v) |} v.

(** [Math.floor((Date.now() - startedAt.getTime()) / 1000)] *)
Definition secondsSince (now startedAt : Z) : Z := (now - startedAt) / 1000.

(** The watcher on [sessionStore.workshopStartedAt]. *)
Definition watch_workshopStartedAt (now : Z) (startedAt : option Z) (v : View) : View :=
  match startedAt with
  | Some t0 =>
      let t := set_elapsedSeconds (secondsSince now t0) (timer v) in
      set_timer (if isRunning t then t else startTimerLocal t) v
  | None => v
  end.

(** The watcher on [sessionStore.isPaused]. *)
Definition watch_isPaused (paused : bool) (v : View) : View :=
  if paused then
    set_timer
      (pauseTimerLocal
         (set_elapsedSeconds (syncedElapsedSeconds (store v)) (timer v))) v
  else if isWorkshopRunning (store v) && negb (isRunning (timer v)) then
    set_timer (startTimerLocal (timer v)) v
  else v.

(** A message assigns a new [Date] to [workshopStartedAt]. *)
Definition assignsStartedAt (m : ServerMsg) : bool :=
  match m with
  | workshop_started _ _ => true
  | timer_sync (Some _) _ => true
  | _ => false
  end.

(** Processing one socket message: the store handler runs, then the
    watchers whose source changed run, in the order they were set up. *)
Definition deliver (now : Z) (m : ServerMsg) (v : View) : View :=
  let st := handle m (store v) in
  let v1 := set_store st v in
  let v2 :=
    if assignsStartedAt m then watch_workshopStartedAt now (workshopStartedAt st) v1
    else v1 in
  if decide (isPaused st = isPaused (store v)) then v2
  else watch_isPaused (isPaused st) v2.

(** [onMounted] *)
Definition mounted (now : Z) (v : View) : View :=
  let t :=
    match session (store v) ≫= started_at, workshopStartedAt (store v) with
    | Some t0, _ | None, Some t0 =>
        startTimerLocal (set_elapsedSeconds (secondsSince now t0) (timer v))
    | None, None => timer v
    end in
  {| store := requestTimerSync (store v); timer := t |}.

(** What can happen to a mounted timer. *)
Inductive Action :=
  | Tick
  | Deliver (now : Z) (m : ServerMsg)
  | ToggleTimer
  | ResetTimer.

Definition step (a : Action) (v : View) : View :=
  match a with
  | Tick => tick v
  | Deliver now m => deliver now m v
  | ToggleTimer => toggleTimer v
  | ResetTimer => reset v
  end.

Definition run (l : list Action) (v : View) : View := foldl (λ w a, step a w) v l.

End Computed.

(** The key under which [checkTimeEvents] records an event. *)
Definition thresholdKey (ev : TimerEvent) : string :=
  match ev with
  | timeWarning type _ p =>
      if decide (type = "phase-5min") then phaseName p +:+ "-5min"
      else if decide (type = "phase-1min") then phaseName p +:+ "-1min"
      else type
  | phaseTimeUp p => phaseName p +:+ "-end"
  | workshopEnd => "workshop-end"
  end.

(** [t'] continues [t]: nothing was forgotten, and what was emitted in
    between was emitted once per key, for keys that were not yet recorded
    and now are. *)
Definition continues (t t' : HeaderTimer) : Prop :=
  warningsSent t ⊆ warningsSent t' ∧
  ∃ new, emitted t' = emitted t ++ new ∧
         NoDup (thresholdKey <$> new) ∧
         ∀ ev, ev ∈ new →
           (thresholdKey ev ∉ warningsSent t) ∧ (thresholdKey ev ∈ warningsSent t').

End Timer.

(** ** Concrete clients used by the examples *)
Module Scenario.
Import Video.

Definition emptyStore (sock : option Socket) : VideoStore :=
  {| socket := sock; localStream := None; screenStream := None; peers := ∅;
     audioMuted := false; videoMuted := false; isScreenSharing := false;
     sessionId := "room"; participantName := ""; aiConnection := None;
     aiConnected := false; aiTranscript := []; aiAudioStream := None;
     isAIHost := false; conns := []; stoppedTracks := []; onended := [] |}.

Definition micTrack : MediaStreamTrack := {| track_id := "mic"; kind := audio |}.
Definition camTrack : MediaStreamTrack := {| track_id := "cam"; kind := video |}.
Definition screenTrack : MediaStreamTrack := {| track_id := "screen"; kind := video |}.
Definition agentTrack : MediaStreamTrack := {| track_id := "agent"; kind := audio |}.

Definition camera : MediaStream :=
  {| stream_id := "camera"; getTracks := [micTrack; camTrack] |}.
Definition screen : MediaStream :=
  {| stream_id := "screen"; getTracks := [screenTrack] |}.
Definition agentVoice : MediaStream :=
  {| stream_id := "agent"; getTracks := [agentTrack] |}.

(** Client A is already in the room; client B has just joined. *)
Definition clientA : VideoStore :=
  connectVideo "room" "Alice" None {| socket_id := "A"; outbox := [] |}
    (set_localStream (Some camera) (emptyStore None)).

Definition clientB : VideoStore :=
  connectVideo "room" "Bob" None {| socket_id := "B"; outbox := [] |}
    (set_localStream (Some camera) (emptyStore None)).

(** B after the snapshot naming A; A after B's offer. *)
Definition joinedB : VideoStore := receive (ev_video_peers ["A"]) clientB.

Definition offerOfB : Sdp :=
  {| sdp_type := sdp_offer; sdp_media := [Some audio; Some video] |}.

Definition answeringA : VideoStore :=
  receive (ev_video_offer "B" offerOfB)
    (receive (ev_video_peer_joined "B" "Bob") clientA).

(** A client that connected before any local media was acquired, and was
    then offered a connection by C. *)
Definition noMediaClient : VideoStore :=
  receive (ev_video_offer "C" offerOfB)
    (connectVideo "room" "Dana" None {| socket_id := "D"; outbox := [] |}
       (emptyStore None)).

(** Devices that deny every acquisition, and devices that grant them. *)
Definition deniedDevices : MediaDevices :=
  {| getUserMedia := λ _ _, Throw NotAllowedError;
     getDisplayMedia := Throw NotAllowedError |}.

Definition grantedDevices : MediaDevices :=
  {| getUserMedia := λ _ _, Return camera; getDisplayMedia := Return screen |}.

End Scenario.

(** ** Concrete timers used by the examples *)
Module TimerScenario.
Import Timer.

Open Scope Z_scope.

(** [Math.floor(total * (percent / 100))] where the product is exact. *)
Definition exactShare (total percent : Z) : Z := total * percent / 100.

Definition hourSession : Session :=
  {| session_id := "room"; phase := orientation; duration_minutes := 60;
     started_at := Some 0 |}.

Definition storeAt (paused : bool) (synced : Z) : SessionStore :=
  {| socket := Some []; session := Some hourSession; currentUser := "Bob";
     workshopStartedAt := Some 0; isWorkshopRunning := true;
     isPaused := paused; syncedElapsedSeconds := synced |}.

(** A client whose timer runs and shows [elapsed] seconds. *)
Definition runningView (elapsed : Z) : View :=
  {| store := storeAt false 0;
     timer := {| totalMinutes := None; elapsedSeconds := elapsed;
                 isRunning := true; timerInterval := Some 0%nat;
                 warningsSent := ∅; showDetails := false; emitted := [];
                 nextInterval := 1%nat |} |}.

(** A client that was paused at [elapsed] seconds. *)
Definition pausedView (elapsed : Z) : View :=
  {| store := storeAt true elapsed;
     timer := {| totalMinutes := None; elapsedSeconds := elapsed;
                 isRunning := false; timerInterval := None;
                 warningsSent := ∅; showDetails := false; emitted := [];
                 nextInterval := 1%nat |} |}.

(** One tick to the five-minute mark of the first phase, a re-sync that
    puts the clock back one second, and the tick that crosses the mark
    again. *)
Definition crossTwice : list Action :=
  [Tick; Deliver 59000 (workshop_started 0 orientation); Tick].

End TimerScenario.

(** ** More of [stores/video.ts]: teardown, muting, and the steps of a
    client *)
Module VideoMore.
Import Video.

(** [stream?.getTracks().forEach(track => track.stop())] *)
Definition stopTracks (m : option MediaStream) (s : VideoStore) : VideoStore :=
  set_stoppedTracks (stoppedTracks s ++ from_option getTracks [] m) s.

(** [disconnect()] *)
Definition disconnect (s : VideoStore) : VideoStore :=
  let s1 :=
    set_conns
      (forEachPeer (λ peer _, onConnection close peer) (peers s) (conns s)) s in
  let s2 := set_peers ∅ s1 in
  let s3 := set_localStream None (stopTracks (localStream s2) s2) in
  let s4 := set_screenStream None (stopTracks (screenStream s3) s3) in
  let s5 := disconnectAI s4 in
  emit (video_leave (sessionId s5)) s5.

(** The store as [defineStore] creates it. *)
Definition initialStore : VideoStore :=
  {| socket := None; localStream := None; screenStream := None; peers := ∅;
     audioMuted := false; videoMuted := false; isScreenSharing := false;
     sessionId := ""; participantName := ""; aiConnection := None;
     aiConnected := false; aiTranscript := []; aiAudioStream := None;
     isAIHost := false; conns := []; stoppedTracks := []; onended := [] |}.

(** What can happen to the store: calls of its actions, socket messages,
    and callbacks of the connections and tracks it set up. *)
Inductive Op :=
  | op_connectVideo (sid name : string) (existingSocket : option Socket) (io : Socket)
  | op_receive (ev : ServerEvent)
  | op_initLocalMedia (dev : MediaDevices) (video_ audio_ : bool)
  | op_startScreenShare (dev : MediaDevices)
  | op_stopScreenShare
  | op_track_ended (t : MediaStreamTrack)
  | op_track (h : nat) (m : MediaStream)
  | op_icecandidate (h : nat) (candidate : option string)
  | op_setAIAudioStream (m : MediaStream)
  | op_broadcastAIAudio
  | op_handleRemoteAIAudio (m : MediaStream)
  | op_disconnectAI
  | op_disconnect.

Definition perform (o : Op) (s : VideoStore) : VideoStore :=
  match o with
  | op_connectVideo sid name existingSocket io =>
      connectVideo sid name existingSocket io s
  | op_receive ev => receive ev s
  | op_initLocalMedia dev v a => (initLocalMedia dev v a s).2
  | op_startScreenShare dev => (startScreenShare dev s).2
  | op_stopScreenShare => stopScreenShare s
  | op_track_ended t => on_track_ended t s
  | op_track h m => on_track h m s
  | op_icecandidate h c => on_icecandidate h c s
  | op_setAIAudioStream m => setAIAudioStream m s
  | op_broadcastAIAudio => broadcastAIAudio s
  | op_handleRemoteAIAudio m => handleRemoteAIAudio m s
  | op_disconnectAI => disconnectAI s
  | op_disconnect => disconnect s
  end.

Definition performAll (l : list Op) (s : VideoStore) : VideoStore :=
  foldl (λ st o, perform o st) s l.

(** The connection the store dialled for the agent, when there is one, is
    an allocated object that no registry entry holds. *)
Definition aiDetached (s : VideoStore) : Prop :=
  ∀ h, aiConnection s = Some h →
    h < length (conns s) ∧
    ∀ k p, peers s !! k = Some p → connection p ≠ Some h.

Definition storeInvariant (s : VideoStore) : Prop :=
  registryLive s ∧ aiDetached s.

(** From [s] to [s'] the agent connection stays or is dropped, no connection
    object disappears, and a handle held by an entry of [s'] was either held
    in [s] or names an object allocated since. *)
Definition grows (s s' : VideoStore) : Prop :=
  (aiConnection s' = aiConnection s ∨ aiConnection s' = None) ∧
  length (conns s) ≤ length (conns s') ∧
  ∀ k p h, peers s' !! k = Some p → connection p = Some h →
    (∃ k0 p0, peers s !! k0 = Some p0 ∧ connection p0 = Some h) ∨
    length (conns s) ≤ h.

(** *** Muting *)

(** The store together with what [toggleAudio] and [toggleVideo] act on
    besides it: the [enabled] flag of tracks (those listed are disabled) and
    the ['video_mute'] messages emitted, as [(session_id, audio_muted,
    video_muted)]. *)
Record Muting := {
  mstore : VideoStore;
  disabledTracks : list MediaStreamTrack;
  muteSent : list (string * bool * bool)
}.

Definition set_audioMuted (v : bool) (s : VideoStore) : VideoStore :=
  Build_VideoStore (socket s) (localStream s) (screenStream s) (peers s) v
    (videoMuted s) (isScreenSharing s) (sessionId s) (participantName s)
    (aiConnection s) (aiConnected s) (aiTranscript s) (aiAudioStream s)
    (isAIHost s) (conns s) (stoppedTracks s) (onended s).

Definition set_videoMuted (v : bool) (s : VideoStore) : VideoStore :=
  Build_VideoStore (socket s) (localStream s) (screenStream s) (peers s)
    (audioMuted s) v (isScreenSharing s) (sessionId s) (participantName s)
    (aiConnection s) (aiConnected s) (aiTranscript s) (aiAudioStream s)
    (isAIHost s) (conns s) (stoppedTracks s) (onended s).

(** [track.enabled] *)
Definition enabled (m : Muting) (t : MediaStreamTrack) : bool :=
  bool_decide (t ∉ disabledTracks m).

(** [track.enabled = b] *)
Definition setEnabled (t : MediaStreamTrack) (b : bool)
    (l : list MediaStreamTrack) : list MediaStreamTrack :=
  if b then filter (λ u, u ≠ t) l else t :: filter (λ u, u ≠ t) l.

(** [socket.value?.emit('video_mute', { session_id, audio_muted, video_muted })] *)
Definition emitMute (m : Muting) : Muting :=
  match socket (mstore m) with
  | Some _ =>
      {| mstore := mstore m; disabledTracks := disabledTracks m;
         muteSent := muteSent m ++
           [(sessionId (mstore m), audioMuted (mstore m), videoMuted (mstore m))] |}
  | None => m
  end.

(** [toggleAudio()] *)
Definition toggleAudio (m : Muting) : Muting :=
  match localStream (mstore m) with
  | Some ls =>
      match head (getAudioTracks ls) with
      | Some audioTrack =>
          let en := negb (enabled m audioTrack) in
          emitMute
            {| mstore := set_audioMuted (negb en) (mstore m);
               disabledTracks := setEnabled audioTrack en (disabledTracks m);
               muteSent := muteSent m |}
      | None => m
      end
  | None => m
  end.

(** [toggleVideo()] *)
Definition toggleVideo (m : Muting) : Muting :=
  match localStream (mstore m) with
  | Some ls =>
      match head (getVideoTracks ls) with
      | Some videoTrack =>
          let en := negb (enabled m videoTrack) in
          emitMute
            {| mstore := set_videoMuted (negb en) (mstore m);
               disabledTracks := setEnabled videoTrack en (disabledTracks m);
               muteSent := muteSent m |}
      | None => m
      end
  | None => m
  end.

(** Example: client A of the scenario with everything enabled. *)
Definition unmutedA : Muting :=
  {| mstore := Scenario.answeringA; disabledTracks := []; muteSent := [] |}.

(** Example: a host whose store holds a dialled agent connection. *)
Definition dialledHost : VideoStore :=
  set_aiConnection (Some 1)
    (set_conns (conns Scenario.answeringA ++ [newRTCPeerConnection ""])
       (setAIAudioStream Scenario.agentVoice Scenario.answeringA)).

End VideoMore.

(** ** The canvas part of [stores/session.ts] *)
Module Board.

Open Scope Z_scope.

Inductive StickerType :=
  | st_event
  | st_command
  | st_policy
  | st_read_model
  | st_external_system.

#[global] Instance StickerType_eq_dec : EqDecision StickerType.
Proof. solve_decision. Defined.

(** Coordinates are stored and forwarded by the store, never computed
    with. *)
Record Position := { pos_x : Z; pos_y : Z }.

#[global] Instance Position_eq_dec : EqDecision Position.
Proof. solve_decision. Defined.

Record Sticker := {
  sticker_id : string;
  sticker_type : StickerType;
  text : string;
  position : Position;
  author : string;
  created_at : string;
  updated_at : string
}.

Record Connection := {
  connection_id : string;
  source_id : string;
  target_id : string;
  label : option string
}.

Record Participant := { participant_id : string; participant_name : string }.

Record AIFeedback := {
  feedback_type : string;
  feedback_sticker_id : option string;
  feedback_message : string;
  suggestion : option string
}.

Record Cursor := { cursor_x : Z; cursor_y : Z; cursor_name : string }.

(** Messages the canvas actions emit. *)
Inductive BoardMsg :=
  | add_sticker (session_id : string) (type : StickerType) (text : string)
      (position : Position) (author : string)
  | update_sticker (session_id sticker_id : string) (text : option string)
      (position : option Position)
  | move_sticker (session_id sticker_id : string) (position : Position)
  | delete_sticker (session_id sticker_id : string)
  | add_connection (session_id source_id target_id : string) (label : option string)
  | delete_connection (session_id connection_id : string)
  | cursor_move (session_id : string) (x y : Z) (name : string)
  | update_phase (session_id : string) (phase : Timer.SessionPhase).

(** The canvas refs of the session store; [socket] holds what the canvas
    actions have emitted. *)
Record BoardStore := {
  socket : option (list BoardMsg);
  session : option Timer.Session;
  stickers : list Sticker;
  connections : list Connection;
  participants : list Participant;
  currentUser : string;
  aiFeedback : option AIFeedback;
  cursors : gmap string Cursor
}.

Definition set_stickers (v : list Sticker) (s : BoardStore) : BoardStore :=
  Build_BoardStore (socket s) (session s) v (connections s) (participants s)
    (currentUser s) (aiFeedback s) (cursors s).

Definition set_connections (v : list Connection) (s : BoardStore) : BoardStore :=
  Build_BoardStore (socket s) (session s) (stickers s) v (participants s)
    (currentUser s) (aiFeedback s) (cursors s).

Definition set_participants (v : list Participant) (s : BoardStore) : BoardStore :=
  Build_BoardStore (socket s) (session s) (stickers s) (connections s) v
    (currentUser s) (aiFeedback s) (cursors s).

Definition set_aiFeedback (v : option AIFeedback) (s : BoardStore) : BoardStore :=
  Build_BoardStore (socket s) (session s) (stickers s) (connections s)
    (participants s) (currentUser s) v (cursors s).

Definition set_cursors (v : gmap string Cursor) (s : BoardStore) : BoardStore :=
  Build_BoardStore (socket s) (session s) (stickers s) (connections s)
    (participants s) (currentUser s) (aiFeedback s) v.

Definition set_position (p : Position) (x : Sticker) : Sticker :=
  {| sticker_id := sticker_id x; sticker_type := sticker_type x; text := text x;
     position := p; author := author x; created_at := created_at x;
     updated_at := updated_at x |}.

Definition set_participant_id (sid : string) (p : Participant) : Participant :=
  {| participant_id := sid; participant_name := participant_name p |}.

(** *** Socket handlers *)

(** ['session_state'] *)
Definition on_session_state (x : Timer.Session) (st : list Sticker)
    (cs : list Connection) (ps : list Participant) (s : BoardStore) : BoardStore :=
  Build_BoardStore (socket s) (Some x) st cs ps (currentUser s) (aiFeedback s)
    (cursors s).

(** ['sticker_added'] (the feedback is cleared by a timeout, see
    [on_feedback_timeout]) *)
Definition on_sticker_added (x : Sticker) (ai_feedback : option AIFeedback)
    (s : BoardStore) : BoardStore :=
  let s1 := set_stickers (stickers s ++ [x]) s in
  match ai_feedback with
  | Some fb => set_aiFeedback (Some fb) s1
  | None => s1
  end.

(** The callback of [setTimeout(() => { aiFeedback.value = null }, 10000)] *)
Definition on_feedback_timeout (s : BoardStore) : BoardStore :=
  set_aiFeedback None s.

(** [stickers.value.findIndex(s => s.id === id)] and its uses *)
Definition findSticker (id : string) (l : list Sticker) : option (nat * Sticker) :=
  list_find (λ x, sticker_id x = id) l.

(** ['sticker_updated'] *)
Definition on_sticker_updated (x : Sticker) (s : BoardStore) : BoardStore :=
  match findSticker (sticker_id x) (stickers s) with
  | Some (idx, _) => set_stickers (<[idx := x]> (stickers s)) s
  | None => s
  end.

(** ['sticker_moved'] *)
Definition on_sticker_moved (id : string) (p : Position) (s : BoardStore) : BoardStore :=
  match findSticker id (stickers s) with
  | Some (idx, x) => set_stickers (<[idx := set_position p x]> (stickers s)) s
  | None => s
  end.

(** ['sticker_deleted'] *)
Definition on_sticker_deleted (id : string) (s : BoardStore) : BoardStore :=
  set_stickers (filter (λ x, sticker_id x ≠ id) (stickers s)) s.

(** ['connection_added'] *)
Definition on_connection_added (c : Connection) (s : BoardStore) : BoardStore :=
  set_connections (connections s ++ [c]) s.

(** ['connection_deleted'] *)
Definition on_connection_deleted (id : string) (s : BoardStore) : BoardStore :=
  set_connections (filter (λ c, connection_id c ≠ id) (connections s)) s.

(** ['participant_joined'] *)
Definition on_participant_joined (sid name : string) (s : BoardStore) : BoardStore :=
  if decide (Exists (λ p, participant_name p = name) (participants s)) then s
  else
    set_participants
      (participants s ++ [{| participant_id := sid; participant_name := name |}]) s.

(** ['participant_reconnected'] *)
Definition on_participant_reconnected (sid name : string) (s : BoardStore) : BoardStore :=
  match list_find (λ p, participant_name p = name) (participants s) with
  | Some (idx, p) =>
      set_participants (<[idx := set_participant_id sid p]> (participants s)) s
  | None => s
  end.

(** ['participant_offline'] *)
Definition on_participant_offline (sid : string) (s : BoardStore) : BoardStore :=
  set_cursors (delete sid (cursors s)) s.

(** ['participant_left'] *)
Definition on_participant_left (sid : string) (s : BoardStore) : BoardStore :=
  set_cursors (delete sid (cursors s))
    (set_participants (filter (λ p, participant_id p ≠ sid) (participants s)) s).

(** ['cursor_update'] *)
Definition on_cursor_update (sid : string) (x y : Z) (name : string)
    (s : BoardStore) : BoardStore :=
  set_cursors
    (<[sid := {| cursor_x := x; cursor_y := y; cursor_name := name |}]> (cursors s)) s.

(** The participant messages. *)
Inductive ParticipantEvent :=
  | participant_joined (sid name : string)
  | participant_reconnected (sid name : string)
  | participant_offline (sid : string)
  | participant_left (sid : string).

Definition on_participant (ev : ParticipantEvent) (s : BoardStore) : BoardStore :=
  match ev with
  | participant_joined sid name => on_participant_joined sid name s
  | participant_reconnected sid name => on_participant_reconnected sid name s
  | participant_offline sid => on_participant_offline sid s
  | participant_left sid => on_participant_left sid s
  end.

(** *** Computed *)

Definition eventCount (s : BoardStore) : nat :=
  length (filter (λ x, sticker_type x = st_event) (stickers s)).

Definition commandCount (s : BoardStore) : nat :=
  length (filter (λ x, sticker_type x = st_command) (stickers s)).

(** *** Canvas actions *)

(** [if (!socket.value || !session.value) return; socket.value.emit(...)] *)
Definition emitBoard (mk : string → BoardMsg) (s : BoardStore) : BoardStore :=
  match socket s, session s with
  | Some out, Some x =>
      Build_BoardStore (Some (out ++ [mk (Timer.session_id x)])) (session s)
        (stickers s) (connections s) (participants s) (currentUser s)
        (aiFeedback s) (cursors s)
  | _, _ => s
  end.

Definition addSticker (type : StickerType) (txt : string) (p : Position)
    (s : BoardStore) : BoardStore :=
  emitBoard (λ sid, add_sticker sid type txt p (currentUser s)) s.

Definition updateSticker (stickerId : string) (txt : option string)
    (p : option Position) (s : BoardStore) : BoardStore :=
  emitBoard (λ sid, update_sticker sid stickerId txt p) s.

(** [moveSticker]: the guard comes first, then the optimistic update of the
    local sticker, then the emit. *)
Definition moveSticker (stickerId : string) (p : Position) (s : BoardStore)
    : BoardStore :=
  match socket s, session s with
  | Some _, Some _ =>
      emitBoard (λ sid, move_sticker sid stickerId p) (on_sticker_moved stickerId p s)
  | _, _ => s
  end.

Definition deleteSticker (stickerId : string) (s : BoardStore) : BoardStore :=
  emitBoard (λ sid, delete_sticker sid stickerId) s.

Definition addConnection (sourceId targetId : string) (lbl : option string)
    (s : BoardStore) : BoardStore :=
  emitBoard (λ sid, add_connection sid sourceId targetId lbl) s.

Definition deleteConnection (connectionId : string) (s : BoardStore) : BoardStore :=
  emitBoard (λ sid, delete_connection sid connectionId) s.

Definition updateCursor (x y : Z) (s : BoardStore) : BoardStore :=
  emitBoard (λ sid, cursor_move sid x y (currentUser s)) s.

Definition updatePhase (p : Timer.SessionPhase) (s : BoardStore) : BoardStore :=
  emitBoard (λ sid, update_phase sid p) s.

(** [clearAIFeedback()] *)
Definition clearAIFeedback (s : BoardStore) : BoardStore := set_aiFeedback None s.

(** The canvas actions that only ask the server. *)
Inductive Request :=
  | req_addSticker (type : StickerType) (txt : string) (p : Position)
  | req_updateSticker (stickerId : string) (txt : option string) (p : option Position)
  | req_deleteSticker (stickerId : string)
  | req_addConnection (sourceId targetId : string) (lbl : option string)
  | req_deleteConnection (connectionId : string)
  | req_updateCursor (x y : Z)
  | req_updatePhase (p : Timer.SessionPhase).

Definition request (r : Request) (s : BoardStore) : BoardStore :=
  match r with
  | req_addSticker type txt p => addSticker type txt p s
  | req_updateSticker id txt p => updateSticker id txt p s
  | req_deleteSticker id => deleteSticker id s
  | req_addConnection a b l => addConnection a b l s
  | req_deleteConnection id => deleteConnection id s
  | req_updateCursor x y => updateCursor x y s
  | req_updatePhase p => updatePhase p s
  end.

(** *** The session view's phase advance ([getNextPhase], [onPhaseTimeUp]) *)

Definition phaseNames : list string :=
  ["orientation"; "event_elicitation"; "event_refinement"; "command_policy";
   "timeline_ordering"; "summary"].

(** [order.indexOf(phase)], with [-1] for a string that is not listed. *)
Definition indexOf (x : string) (l : list string) : Z :=
  match list_find (λ y, y = x) l with
  | Some (i, _) => Z.of_nat i
  | None => -1
  end.

(** [idx < order.length - 1 ? order[idx + 1] : null] *)
Definition getNextPhase (phase : string) : option string :=
  let idx := indexOf phase phaseNames in
  if decide (idx < Z.of_nat (length phaseNames) - 1)
  then phaseNames !! Z.to_nat (idx + 1)
  else None.

(** Example board: two stickers, two participants. *)
Definition sampleSticker (id : string) (t : StickerType) : Sticker :=
  {| sticker_id := id; sticker_type := t; text := "order placed";
     position := {| pos_x := 10; pos_y := 20 |}; author := "Alice";
     created_at := "t0"; updated_at := "t0" |}.

Definition sampleBoard : BoardStore :=
  {| socket := Some [];
     session := Some TimerScenario.hourSession;
     stickers := [sampleSticker "s1" st_event; sampleSticker "s2" st_command];
     connections := [];
     participants := [{| participant_id := "sidA"; participant_name := "Alice" |};
                      {| participant_id := "sidB"; participant_name := "Bob" |}];
     currentUser := "Alice"; aiFeedback := None; cursors := ∅ |}.

End Board.

(** ** More of [HeaderTimer.vue] *)
Module TimerMore.
Import Timer.

Open Scope Z_scope.

(** The interval is installed exactly while the timer counts as running. *)
Definition intervalConsistent (t : HeaderTimer) : Prop :=
  isRunning t = true ↔ is_Some (timerInterval t).

(** The events emitted from [t] to [t']. *)
Definition emittedSince (t t' : HeaderTimer) : list TimerEvent :=
  drop (length (emitted t)) (emitted t').

(** From [t] to [t'] only notifications other than the workshop end
    happened: the clock, the interval and the prop are as before, what was
    emitted is not [workshopEnd], and the ['workshop-end'] key was not
    added. *)
Definition quiet (t t' : HeaderTimer) : Prop :=
  totalMinutes t' = totalMinutes t ∧ elapsedSeconds t' = elapsedSeconds t ∧
  isRunning t' = isRunning t ∧ timerInterval t' = timerInterval t ∧
  nextInterval t' = nextInterval t ∧
  (∃ new, emitted t' = emitted t ++ new ∧ workshopEnd ∉ new) ∧
  ("workshop-end" ∈ warningsSent t' → "workshop-end" ∈ warningsSent t).

#[global] Instance TimerEvent_eq_dec : EqDecision TimerEvent.
Proof. solve_decision. Defined.

(** [n] firings of the interval callback. *)
Definition ticks (floorShare : Z → Z → Z) (n : nat) (v : View) : View :=
  run floorShare (replicate n Tick) v.

(** Each timing starts where the one before it ends. *)
Fixpoint contiguous (start : Z) (l : list PhaseTiming) : Prop :=
  match l with
  | [] => True
  | t :: rest => startSeconds t = start ∧ contiguous (endSeconds t) rest
  end.

(** A component that was just created in a session nobody has started. *)
Definition freshView : View :=
  {| store :=
       {| socket := Some [];
          session := Some {| session_id := "room"; phase := orientation;
                             duration_minutes := 60; started_at := None |};
          currentUser := "Ann"; workshopStartedAt := None;
          isWorkshopRunning := false; isPaused := false;
          syncedElapsedSeconds := 0 |};
     timer := {| totalMinutes := None; elapsedSeconds := 0; isRunning := false;
                 timerInterval := None; warningsSent := ∅; showDetails := false;
                 emitted := []; nextInterval := 0 |} |}.

End TimerMore.

Module VideoProps.
Import Video.

(** ** Frame lemmas for [emit] and the loops *)

Lemma peers_emit e s : peers (emit e s) = peers s.
Proof. unfold emit. by destruct (socket s). Qed.

Lemma conns_emit e s : conns (emit e s) = conns s.
Proof. unfold emit. by destruct (socket s). Qed.

Lemma socket_emit_is_Some e s : is_Some (socket s) → is_Some (socket (emit e s)).
Proof. unfold emit. intros [k Hk]. rewrite Hk. simpl. eauto. Qed.

Lemma sent_emit e s : is_Some (socket s) → sent (emit e s) = sent s ++ [e].
Proof. unfold emit, sent. intros [k Hk]. by rewrite Hk. Qed.

Lemma emit_no_socket e s : socket s = None → emit e s = s.
Proof. unfold emit. by intros ->. Qed.

Lemma offerTargets_app l1 l2 :
  offerTargets (l1 ++ l2) = offerTargets l1 ++ offerTargets l2.
Proof. apply omap_app. Qed.

Lemma answerTargets_app l1 l2 :
  answerTargets (l1 ++ l2) = answerTargets l1 ++ answerTargets l2.
Proof. apply omap_app. Qed.

(** A registry loop that applies [f] to the connection [touch] selects. *)
Section Loop.

Variable f : RTCPeerConnection → RTCPeerConnection.
Variable touch : string → Peer → option nat.
Variable cb : Peer → string → list RTCPeerConnection → list RTCPeerConnection.

Hypothesis cb_touch : ∀ p k hp,
  cb p k hp = match touch k p with Some i => alter f i hp | None => hp end.
Hypothesis f_idem : ∀ pc, f (f pc) = f pc.

Lemma foldl_cb_length (l : list (string * Peer)) heap :
  length (foldl (λ hp kp, cb kp.2 kp.1 hp) heap l) = length heap.
Proof.
  revert heap. induction l as [|[k p] l IH]; intros heap; simpl; [done|].
  rewrite IH, cb_touch. destruct (touch k p); [apply length_alter | done].
Qed.

Lemma foldl_cb_touched (l : list (string * Peer)) heap h :
  Exists (λ kp, touch kp.1 kp.2 = Some h) l →
  foldl (λ hp kp, cb kp.2 kp.1 hp) heap l !! h = f <$> heap !! h.
Proof.
  assert (Hafter : ∀ (l : list (string * Peer)) heap,
    (f <$> heap !! h = heap !! h) →
    foldl (λ hp kp, cb kp.2 kp.1 hp) heap l !! h = heap !! h).
  { clear l heap. intros l. induction l as [|[k p] l IH]; intros heap Hfix; simpl; [done|].
    rewrite cb_touch. destruct (touch k p) as [i|] eqn:Ht; [|by apply IH].
    destruct (decide (i = h)) as [->|Hne].
    - rewrite IH.
      + by rewrite list_lookup_alter_eq.
      + by rewrite list_lookup_alter_eq, !Hfix.
    - rewrite IH.
      + by rewrite list_lookup_alter_ne.
      + by rewrite list_lookup_alter_ne. }
  revert heap. induction l as [|[k p] l IH]; intros heap HE; simpl.
  { by apply Exists_nil in HE. }
  rewrite cb_touch.
  destruct (decide (touch k p = Some h)) as [Hk|Hk].
  - rewrite Hk. rewrite Hafter.
    + by rewrite list_lookup_alter_eq.
    + rewrite list_lookup_alter_eq. destruct (heap !! h); simpl; [|done].
      by rewrite f_idem.
  - apply Exists_cons in HE as [HE|HE]; [done|].
    destruct (touch k p) as [i|]; [|by apply IH].
    rewrite IH by done. rewrite list_lookup_alter_ne; [done|congruence].
Qed.

Lemma foldl_cb_untouched (l : list (string * Peer)) heap h :
  Forall (λ kp, touch kp.1 kp.2 ≠ Some h) l →
  foldl (λ hp kp, cb kp.2 kp.1 hp) heap l !! h = heap !! h.
Proof.
  revert heap. induction l as [|[k p] l IH]; intros heap HF; simpl; [done|].
  apply Forall_cons in HF as [Hk HF]. simpl in Hk.
  rewrite IH by done. rewrite cb_touch.
  destruct (touch k p) as [i|]; [|done].
  rewrite list_lookup_alter_ne; [done|congruence].
Qed.

Lemma forEachPeer_length ps heap : length (forEachPeer cb ps heap) = length heap.
Proof. apply foldl_cb_length. Qed.

Lemma forEachPeer_touched ps heap h k p :
  ps !! k = Some p → touch k p = Some h →
  forEachPeer cb ps heap !! h = f <$> heap !! h.
Proof.
  intros Hk Ht. apply foldl_cb_touched. apply Exists_exists.
  exists (k, p). split; [|done]. by apply elem_of_map_to_list.
Qed.

Lemma forEachPeer_untouched ps heap h :
  (∀ k p, ps !! k = Some p → touch k p ≠ Some h) →
  forEachPeer cb ps heap !! h = heap !! h.
Proof.
  intros Hn. apply foldl_cb_untouched. apply Forall_forall.
  intros [k p] Hin. apply elem_of_map_to_list in Hin. by apply Hn.
Qed.

End Loop.

Lemma elem_of_connectedHandles s h :
  h ∈ connectedHandles s ↔ ∃ k p, peers s !! k = Some p ∧ connection p = Some h.
Proof.
  unfold connectedHandles. rewrite elem_of_list_to_set, list_elem_of_omap. split.
  - intros [[k p] [Hin Hc]]. apply elem_of_map_to_list in Hin. eauto.
  - intros (k & p & Hk & Hc). exists (k, p). split; [|done].
    by apply elem_of_map_to_list.
Qed.


(** ** Stopping and failed acquisition *)

(** C10: with no screen stream, [stopScreenShare] returns at once: no
    track is replaced, no flag or other state changes, and nothing is
    emitted (the store, heap and socket included, is the same). *)
Theorem C10_stop_without_screen_is_noop (s : VideoStore) :
  screenStream s = None → stopScreenShare s = s.
Proof. unfold stopScreenShare. by intros ->. Qed.

Lemma C10_stop_without_screen_witness :
  stopScreenShare Scenario.answeringA = Scenario.answeringA.
Proof. apply C10_stop_without_screen_is_noop. reflexivity. Defined.

(** C6: a failed device acquisition (camera and microphone in
    [initLocalMedia], screen in [startScreenShare]) is rethrown to the
    caller and leaves the whole store as it was: local stream, screen
    stream, sharing flag, the senders of every connection and the socket's
    outbox are unchanged. *)
Theorem C6_acquisition_failure_unchanged (dev : MediaDevices) (s : VideoStore)
    (e : Exception) :
  (∀ v a, getUserMedia dev v a = Throw e →
     initLocalMedia dev v a s = (Throw e, s)) ∧
  (getDisplayMedia dev = Throw e → startScreenShare dev s = (Throw e, s)).
Proof.
  split.
  - intros v a H. unfold initLocalMedia. by rewrite H.
  - intros H. unfold startScreenShare. by rewrite H.
Qed.

Lemma C6_acquisition_failure_witness :
  initLocalMedia Scenario.deniedDevices true true Scenario.answeringA
    = (Throw NotAllowedError, Scenario.answeringA) ∧
  startScreenShare Scenario.deniedDevices Scenario.answeringA
    = (Throw NotAllowedError, Scenario.answeringA).
Proof.
  split.
  - apply (proj1 (C6_acquisition_failure_unchanged Scenario.deniedDevices
                    Scenario.answeringA NotAllowedError)).
    reflexivity.
  - apply (proj2 (C6_acquisition_failure_unchanged Scenario.deniedDevices
                    Scenario.answeringA NotAllowedError)).
    reflexivity.
Defined.

(** ** ICE candidates *)

Lemma addIceCandidate_Return c pc pc' :
  addIceCandidate c pc = Return pc' →
  closed pc = false ∧ is_Some (remoteDescription pc) ∧
  iceCandidates pc' = iceCandidates pc ++ [c] ∧
  closed pc' = closed pc ∧ pc_peer pc' = pc_peer pc ∧
  getSenders pc' = getSenders pc ∧
  localDescription pc' = localDescription pc ∧
  remoteDescription pc' = remoteDescription pc.
Proof.
  unfold addIceCandidate. destruct (closed pc) eqn:Hc; [discriminate|].
  destruct (remoteDescription pc) as [d|] eqn:Hd; [|discriminate].
  intros [= <-]. simpl. repeat split; eauto.
Qed.

Lemma addIceCandidate_Throw c pc :
  closed pc = true ∨ remoteDescription pc = None →
  addIceCandidate c pc = Throw InvalidStateError.
Proof.
  unfold addIceCandidate. intros [-> | ->]; [done|]. by destruct (closed pc).
Qed.

(** What [handleIceCandidate] leaves alone, whatever its outcome. *)
Lemma handleIceCandidate_frame fromId c s :
  peers (handleIceCandidate fromId c s).2 = peers s ∧
  closed <$> conns (handleIceCandidate fromId c s).2 = closed <$> conns s ∧
  length (conns (handleIceCandidate fromId c s).2) = length (conns s) ∧
  aiConnection (handleIceCandidate fromId c s).2 = aiConnection s ∧
  socket (handleIceCandidate fromId c s).2 = socket s.
Proof.
  unfold handleIceCandidate.
  destruct (peers s !! fromId ≫= connection) as [h|]; [|done].
  destruct (conns s !! h) as [pc|] eqn:Hpc; [|done].
  destruct (addIceCandidate c pc) as [pc'|e] eqn:Ha; [|done].
  apply addIceCandidate_Return in Ha as (_ & _ & _ & Hcl & _). simpl.
  split; [done|]. split; [|by rewrite length_insert].
  rewrite list_fmap_insert, Hcl. apply list_insert_id.
  by rewrite list_lookup_fmap, Hpc.
Qed.

(** A candidate for a registered connection that is closed or has no remote
    description yet: [addIceCandidate] rejects, and so does the handler; the
    candidate is not applied. *)
Lemma handleIceCandidate_rejects s fromId c p h pc :
  peers s !! fromId = Some p → connection p = Some h →
  conns s !! h = Some pc →
  closed pc = true ∨ remoteDescription pc = None →
  handleIceCandidate fromId c s = (Throw InvalidStateError, s).
Proof.
  intros Hp Hh Hpc Hbad. unfold handleIceCandidate. rewrite Hp. simpl.
  rewrite Hh, Hpc. by rewrite (addIceCandidate_Throw c pc Hbad).
Qed.

(** C7 (as the code has it): an incoming ICE candidate is handed at once to
    the sender's connection when the registry entry has one that is open and
    already has a remote description: the handler returns normally, the
    connection's candidates grow by exactly this one and nothing else
    changes.  When the peer is unknown or has no connection yet the candidate
    is dropped: the handler returns normally with the store unchanged. *)
Theorem C7_ice_candidate_applied_or_dropped (s : VideoStore) (fromId c : string) :
  (∀ p h pc, peers s !! fromId = Some p → connection p = Some h →
     conns s !! h = Some pc →
     closed pc = false → is_Some (remoteDescription pc) →
     ∃ pc', addIceCandidate c pc = Return pc' ∧
       handleIceCandidate fromId c s
         = (Return (), set_conns (<[h := pc']> (conns s)) s) ∧
       let s' := (handleIceCandidate fromId c s).2 in
       conns s' !! h = Some pc' ∧
       iceCandidates pc' = iceCandidates pc ++ [c] ∧
       closed pc' = false ∧ getSenders pc' = getSenders pc ∧
       localDescription pc' = localDescription pc ∧
       remoteDescription pc' = remoteDescription pc ∧
       (∀ j, j ≠ h → conns s' !! j = conns s !! j) ∧
       peers s' = peers s ∧ socket s' = socket s) ∧
  (peers s !! fromId = None ∨
   (∃ p, peers s !! fromId = Some p ∧ connection p = None) →
   handleIceCandidate fromId c s = (Return (), s)).
Proof.
  split.
  - intros p h pc Hp Hh Hpc Hopen [d Hd].
    assert (∃ pc', addIceCandidate c pc = Return pc') as [pc' Ha].
    { unfold addIceCandidate. rewrite Hopen, Hd. eauto. }
    exists pc'. split; [done|].
    assert (Hrun : handleIceCandidate fromId c s
                   = (Return (), set_conns (<[h := pc']> (conns s)) s)).
    { unfold handleIceCandidate. rewrite Hp. simpl. by rewrite Hh, Hpc, Ha. }
    split; [done|]. rewrite Hrun. cbv zeta.
    apply addIceCandidate_Return in Ha
      as (_ & _ & Hice & Hcl & _ & Hsend & Hloc & Hrem).
    simpl. split.
    { apply list_lookup_insert_eq. by eapply lookup_lt_Some. }
    repeat split; try done; [congruence|].
    intros j Hj. by rewrite list_lookup_insert_ne.
  - intros [Hn|(p & Hp & Hc)]; unfold handleIceCandidate.
    + by rewrite Hn.
    + rewrite Hp. simpl. by rewrite Hc.
Qed.

Lemma C7_ice_candidate_witness :
  (∃ pc', conns (handleIceCandidate "B" "candidate:1" Scenario.answeringA).2 !! 0
            = Some pc' ∧
          iceCandidates pc' = [] ++ ["candidate:1"]) ∧
  handleIceCandidate "Z" "candidate:1" Scenario.answeringA
    = (Return (), Scenario.answeringA).
Proof.
  pose proof (C7_ice_candidate_applied_or_dropped
                Scenario.answeringA "B" "candidate:1") as HB.
  pose proof (C7_ice_candidate_applied_or_dropped
                Scenario.answeringA "Z" "candidate:1") as HZ.
  split.
  - destruct (proj1 HB _ 0 _ eq_refl eq_refl eq_refl eq_refl
                ltac:(vm_compute; eauto))
      as (pc' & _ & _ & Hin & Hice & _).
    exists pc'. split; [exact Hin|exact Hice].
  - apply (proj2 HZ). left. reflexivity.
Defined.

(** C7, as stated, fails: after the snapshot naming A, client B holds a
    connection to A that has a local offer and no remote description yet.  A
    candidate from A that arrives now finds the connection object in the
    registry, but it is not applied: the handler rejects with
    [InvalidStateError] and the connection has no candidate. *)
Lemma C7_counterexample :
  (∃ p pc, peers Scenario.joinedB !! "A" = Some p ∧ connection p = Some 0 ∧
           conns Scenario.joinedB !! 0 = Some pc ∧ closed pc = false ∧
           remoteDescription pc = None) ∧
  handleIceCandidate "A" "candidate:1" Scenario.joinedB
    = (Throw InvalidStateError, Scenario.joinedB) ∧
  (iceCandidates <$>
     conns (receive (ev_video_ice_candidate "A" "candidate:1") Scenario.joinedB) !! 0)
    = Some [].
Proof.
  split; [|split].
  - eexists _, _. repeat split; reflexivity.
  - eapply handleIceCandidate_rejects; [reflexivity..|]. right. reflexivity.
  - reflexivity.
Qed.

(** ** The AI participant *)

Lemma peers_broadcastAIAudio s : peers (broadcastAIAudio s) = peers s.
Proof.
  unfold broadcastAIAudio. destruct (aiAudioStream s) as [m|]; [|done].
  by destruct (head (getAudioTracks m)).
Qed.

Lemma aiConnection_broadcastAIAudio s :
  aiConnection (broadcastAIAudio s) = aiConnection s.
Proof.
  unfold broadcastAIAudio. destruct (aiAudioStream s) as [m|]; [|done].
  by destruct (head (getAudioTracks m)).
Qed.

Lemma attach_touch (t : MediaStreamTrack) p k (hp : list RTCPeerConnection) :
  (if decide (k = ai_facilitator) then hp else onConnection (attachAITrack t) p hp)
  = match (if decide (k = ai_facilitator) then None else connection p) with
    | Some i => alter (attachAITrack t) i hp
    | None => hp
    end.
Proof. unfold onConnection. by destruct (decide (k = ai_facilitator)). Qed.

Lemma length_conns_broadcastAIAudio s :
  length (conns (broadcastAIAudio s)) = length (conns s).
Proof.
  unfold broadcastAIAudio. destruct (aiAudioStream s) as [m|]; [|done].
  destruct (head (getAudioTracks m)) as [t|]; [|done]. simpl.
  apply (forEachPeer_length (attachAITrack t)
           (λ k p, if decide (k = ai_facilitator) then None else connection p)).
  intros. apply attach_touch.
Qed.

(** C9: the entry of the AI participant never carries a connection: both
    [setAIAudioStream] (host) and [handleRemoteAIAudio] (non-host) write an
    entry whose [connection] is absent, neither creates a connection object
    nor dials the agent, and [handleRemoteAIAudio] changes nothing on the
    host. *)
Theorem C9_ai_entry_has_no_connection (m : MediaStream) (s : VideoStore) :
  connection (aiPeer m) = None ∧
  (peers (setAIAudioStream m s) !! ai_facilitator = Some (aiPeer m) ∧
   length (conns (setAIAudioStream m s)) = length (conns s) ∧
   aiConnection (setAIAudioStream m s) = aiConnection s) ∧
  (isAIHost s = false →
   peers (handleRemoteAIAudio m s) !! ai_facilitator = Some (aiPeer m) ∧
   conns (handleRemoteAIAudio m s) = conns s ∧
   aiConnection (handleRemoteAIAudio m s) = aiConnection s ∧
   socket (handleRemoteAIAudio m s) = socket s) ∧
  (isAIHost s = true → handleRemoteAIAudio m s = s).
Proof.
  split; [done|]. split; [|split].
  - unfold setAIAudioStream.
    rewrite peers_broadcastAIAudio, length_conns_broadcastAIAudio,
      aiConnection_broadcastAIAudio, peers_emit, conns_emit.
    split; [simpl; by rewrite lookup_insert_eq|]. split; [done|].
    unfold emit. by destruct (socket _).
  - intros Hh. unfold handleRemoteAIAudio. rewrite Hh. simpl.
    by rewrite lookup_insert_eq.
  - intros Hh. unfold handleRemoteAIAudio. by rewrite Hh.
Qed.

Lemma C9_ai_entry_witness :
  (peers (handleRemoteAIAudio Scenario.agentVoice Scenario.joinedB) !! ai_facilitator
     = Some (aiPeer Scenario.agentVoice) ∧
   conns (handleRemoteAIAudio Scenario.agentVoice Scenario.joinedB)
     = conns Scenario.joinedB) ∧
  handleRemoteAIAudio Scenario.agentVoice
      (setAIAudioStream Scenario.agentVoice Scenario.answeringA)
    = setAIAudioStream Scenario.agentVoice Scenario.answeringA.
Proof.
  split.
  - pose proof (proj1 (proj2 (proj2 (C9_ai_entry_has_no_connection
                  Scenario.agentVoice Scenario.joinedB))) eq_refl) as H.
    exact (conj (proj1 H) (proj1 (proj2 H))).
  - apply (proj2 (proj2 (proj2 (C9_ai_entry_has_no_connection Scenario.agentVoice
             (setAIAudioStream Scenario.agentVoice Scenario.answeringA))))).
    reflexivity.
Defined.

(** ** Who offers *)

Lemma insert_at_length {A} (l : list A) (x y : A) :
  <[length l := y]> (l ++ [x]) = l ++ [y].
Proof.
  rewrite insert_app_r_alt by done. by rewrite Nat.sub_diag.
Qed.

Lemma createPeerConnection_handle peerId b s :
  (createPeerConnection peerId b s).1.1 = length (conns s).
Proof. unfold createPeerConnection. by destruct b. Qed.

Lemma createPeerConnection_conns peerId b s :
  conns (createPeerConnection peerId b s).2
  = conns s ++ [(createPeerConnection peerId b s).1.2].
Proof.
  unfold createPeerConnection. destruct b; simpl; [|done].
  rewrite conns_emit. simpl. apply insert_at_length.
Qed.

Lemma createPeerConnection_peers peerId b s :
  ∃ p, peers (createPeerConnection peerId b s).2 = <[peerId := p]> (peers s)
       ∧ connection p = Some (length (conns s)).
Proof.
  unfold createPeerConnection. destruct b; simpl.
  - rewrite peers_emit. simpl. eauto.
  - eauto.
Qed.

Lemma createPeerConnection_socket peerId b s :
  is_Some (socket s) → is_Some (socket (createPeerConnection peerId b s).2).
Proof.
  intros Hs. unfold createPeerConnection. destruct b; simpl; [|done].
  by apply socket_emit_is_Some.
Qed.

Lemma createPeerConnection_offers peerId s :
  is_Some (socket s) →
  offerTargets (sent (createPeerConnection peerId true s).2)
  = offerTargets (sent s) ++ [peerId].
Proof.
  intros Hs. unfold createPeerConnection. simpl.
  rewrite sent_emit by done. by rewrite offerTargets_app.
Qed.

Lemma createPeerConnection_silent peerId s :
  sent (createPeerConnection peerId false s).2 = sent s.
Proof. done. Qed.

Lemma on_video_peers_snoc ids x s :
  on_video_peers (ids ++ [x]) s
  = (createPeerConnection x true (on_video_peers ids s)).2.
Proof. unfold on_video_peers. by rewrite foldl_app. Qed.

Lemma on_video_peers_spec ids s :
  is_Some (socket s) →
  is_Some (socket (on_video_peers ids s)) ∧
  offerTargets (sent (on_video_peers ids s)) = offerTargets (sent s) ++ ids ∧
  length (conns (on_video_peers ids s)) = length (conns s) + length ids ∧
  (∀ x, x ∈ ids → ∃ p h, peers (on_video_peers ids s) !! x = Some p ∧
       connection p = Some h ∧
       length (conns s) ≤ h < length (conns (on_video_peers ids s))).
Proof.
  intros Hs. induction ids as [|x ids IH] using rev_ind.
  { simpl. rewrite app_nil_r, Nat.add_0_r. repeat split; try done.
    intros x Hx. by apply elem_of_nil in Hx. }
  destruct IH as (IHs & IHo & IHl & IHp).
  rewrite on_video_peers_snoc. repeat split.
  - by apply createPeerConnection_socket.
  - rewrite createPeerConnection_offers by done. by rewrite IHo, app_assoc.
  - rewrite createPeerConnection_conns, !length_app, IHl. simpl. lia.
  - intros y Hy.
    destruct (createPeerConnection_peers x true (on_video_peers ids s))
      as (p & Hp & Hc).
    rewrite Hp, createPeerConnection_conns, length_app. simpl.
    destruct (decide (x = y)) as [->|Hne].
    + exists p, (length (conns (on_video_peers ids s))).
      rewrite lookup_insert_eq. repeat split; [done|lia|lia].
    + apply elem_of_app in Hy as [Hy|Hy]; [|apply list_elem_of_singleton in Hy; congruence].
      destruct (IHp y Hy) as (q & h & Hq & Hqc & Hh).
      exists q, h. rewrite lookup_insert_ne by done. repeat split; [done..|lia|lia].
Qed.

Lemma addTracks_open (l : list MediaStreamTrack) (q : RTCPeerConnection) :
  closed q = false →
  closed (foldl (λ pc t, default pc (addTrack t pc)) q l) = false.
Proof.
  revert q. induction l as [|t l IH]; intros q Hq; simpl; [done|].
  apply IH. unfold addTrack. by rewrite Hq.
Qed.

Lemma createPeerConnection_open peerId b s :
  closed (createPeerConnection peerId b s).1.2 = false.
Proof.
  unfold createPeerConnection.
  destruct b; simpl; (destruct (localStream s); [by apply addTracks_open|done]).
Qed.

Lemma handleOffer_unfold fromId sdp s :
  handleOffer fromId sdp s
  = let r := createPeerConnection fromId false s in
    let pc1 := setRemoteDescription sdp r.1.2 in
    let pc2 := setLocalDescription (createAnswer pc1) pc1 in
    emit (video_answer fromId (localDescription pc2))
      (set_conns (<[r.1.1 := pc2]> (conns r.2)) r.2).
Proof.
  unfold handleOffer. by destruct (createPeerConnection fromId false s) as [[h pc] s1].
Qed.

Lemma handleOffer_spec fromId sdp s :
  let s' := handleOffer fromId sdp s in
  (∃ p pc, peers s' !! fromId = Some p ∧ connection p = Some (length (conns s)) ∧
     conns s' !! length (conns s) = Some pc ∧
     remoteDescription pc = Some sdp ∧
     (sdp_type <$> localDescription pc) = Some sdp_answer ∧ closed pc = false) ∧
  (is_Some (socket s) →
     offerTargets (sent s') = offerTargets (sent s) ∧
     answerTargets (sent s') = answerTargets (sent s) ++ [fromId]).
Proof.
  intros s'. subst s'. rewrite handleOffer_unfold.
  pose proof (createPeerConnection_handle fromId false s) as Hh.
  pose proof (createPeerConnection_conns fromId false s) as Hcs.
  destruct (createPeerConnection_peers fromId false s) as (p & Hp & Hpc).
  pose proof (createPeerConnection_silent fromId s) as Hsent.
  pose proof (createPeerConnection_open fromId false s) as Hopen.
  pose proof (createPeerConnection_socket fromId false s) as Hsock.
  destruct (createPeerConnection fromId false s) as [[h pc] s1].
  simpl in *. subst h. split.
  - eexists p, _. rewrite peers_emit, conns_emit. simpl. rewrite Hp, Hcs.
    rewrite lookup_insert_eq, insert_at_length.
    rewrite lookup_app_r, Nat.sub_diag by done. simpl. repeat split; done.
  - intros Hs. rewrite sent_emit by (simpl; auto).
    change (sent (set_conns _ s1)) with (sent s1).
    rewrite offerTargets_app, answerTargets_app, Hsent. simpl.
    by rewrite app_nil_r.
Qed.

(** The connection [handleOffer] makes is put after the ones the store
    holds, open, with the offer as its remote and an answer as its local
    description; with a socket, this answer is what is sent. *)
Lemma handleOffer_answers fromId sdp s :
  let s' := handleOffer fromId sdp s in
  ∃ pc answer,
    conns s' = conns s ++ [pc] ∧ closed pc = false ∧
    remoteDescription pc = Some sdp ∧ localDescription pc = Some answer ∧
    sdp_type answer = sdp_answer ∧
    (is_Some (socket s) →
       sent s' = sent s ++ [video_answer fromId (Some answer)]).
Proof.
  intros s'. subst s'. rewrite handleOffer_unfold. cbv zeta.
  pose proof (createPeerConnection_handle fromId false s) as Hh.
  pose proof (createPeerConnection_conns fromId false s) as Hcs.
  pose proof (createPeerConnection_silent fromId s) as Hsent.
  pose proof (createPeerConnection_open fromId false s) as Hopen.
  pose proof (createPeerConnection_socket fromId false s) as Hsock.
  destruct (createPeerConnection fromId false s) as [[h pc] s1].
  simpl in Hh, Hcs, Hopen, Hsock. subst h.
  change (sent s1 = sent s) in Hsent.
  eexists _, (createAnswer (setRemoteDescription sdp pc)).
  split; [|split; [|split; [|split; [|split]]]].
  - rewrite conns_emit. simpl. rewrite Hcs. apply insert_at_length.
  - exact Hopen.
  - reflexivity.
  - reflexivity.
  - reflexivity.
  - intros Hs. rewrite sent_emit by (simpl; auto).
    rewrite <- Hsent. reflexivity.
Qed.

(** C1 (as the code has it): the initiator of a negotiation triggered by a
    join is the newcomer.  An existing client that receives the join
    notification only records the newcomer (no connection, nothing sent) and
    waits; the newcomer, on the snapshot of existing peers, creates one
    connection per listed peer and sends each exactly one offer; the existing
    client, on receiving that offer, answers and never offers.  So exactly one
    side of each pair offers. *)
Theorem C1_newcomer_initiates (a b : VideoStore) (newcomer name : string)
    (ids : list string) :
  is_Some (socket a) → is_Some (socket b) →
  let a' := on_video_peer_joined newcomer name a in
  let b' := on_video_peers ids b in
  ((∃ p, peers a' !! newcomer = Some p ∧ connection p = None) ∧
   conns a' = conns a ∧ sent a' = sent a) ∧
  (offerTargets (sent b') = offerTargets (sent b) ++ ids ∧
   length (conns b') = length (conns b) + length ids ∧
   ∀ x, x ∈ ids → ∃ p h, peers b' !! x = Some p ∧ connection p = Some h ∧
        length (conns b) ≤ h < length (conns b')) ∧
  (∀ sdp, let a'' := handleOffer newcomer sdp a' in
     offerTargets (sent a'') = offerTargets (sent a) ∧
     answerTargets (sent a'') = answerTargets (sent a) ++ [newcomer] ∧
     ∃ p, peers a'' !! newcomer = Some p ∧ connection p = Some (length (conns a))).
Proof.
  intros Ha Hb a' b'. split; [|split].
  - subst a'. unfold on_video_peer_joined. simpl. rewrite lookup_insert_eq.
    split; [eauto|done].
  - destruct (on_video_peers_spec ids b Hb) as (_ & Ho & Hl & Hp). done.
  - intros sdp a''. destruct (handleOffer_spec newcomer sdp a') as [Hreg Hsent].
    destruct Hsent as [Ho Han]; [done|].
    destruct Hreg as (p & pc & Hp & Hc & _). repeat split; [done..|]. eauto.
Qed.

Lemma C1_newcomer_initiates_witness :
  offerTargets (sent (on_video_peers ["A"] Scenario.clientB))
    = offerTargets (sent Scenario.clientB) ++ ["A"] ∧
  sent (on_video_peer_joined "B" "Bob" Scenario.clientA) = sent Scenario.clientA.
Proof.
  pose proof (C1_newcomer_initiates Scenario.clientA Scenario.clientB "B" "Bob" ["A"]
                ltac:(vm_compute; eauto) ltac:(vm_compute; eauto)) as H.
  exact (conj (proj1 (proj1 (proj2 H))) (proj2 (proj2 (proj1 H)))).
Defined.

(** C1, as stated, fails: on the join notification the existing client A
    sends no offer to the newcomer B and creates no connection, and on the
    snapshot the newcomer B does offer to A. *)
Lemma C1_counterexample :
  ¬ ("B" ∈ offerTargets (sent (receive (ev_video_peer_joined "B" "Bob") Scenario.clientA))) ∧
  conns (receive (ev_video_peer_joined "B" "Bob") Scenario.clientA) = [] ∧
  ¬ (offerTargets (sent (receive (ev_video_peers ["A"]) Scenario.clientB)) = []).
Proof.
  split; [|split].
  - vm_compute. intros H. by apply elem_of_nil in H.
  - reflexivity.
  - vm_compute. discriminate.
Qed.

(** ** Leaving *)

(** C5 (as the code has it): processing [peer_left] for a registered id
    closes that peer's connection when it has one, removes the entry and
    leaves every other entry and connection alone.  Afterwards an answer or
    an ICE candidate carrying that id is ignored (the handlers return
    normally, the store is unchanged); an offer carrying that id is still
    processed: it creates a fresh connection, open and placed after the
    connections held so far, which stay as they are, registers the id with it
    and answers: the offer is the remote and an answer the local description
    of the new connection, and with a socket this answer is sent to the
    id. *)
Theorem C5_peer_left_releases (s : VideoStore) (pid : string) (p : Peer) :
  peers s !! pid = Some p →
  let s' := on_video_peer_left pid s in
  peers s' !! pid = None ∧
  (∀ k, k ≠ pid → peers s' !! k = peers s !! k) ∧
  (∀ h, connection p = Some h → conns s' !! h = close <$> conns s !! h) ∧
  (∀ h, connection p ≠ Some h → conns s' !! h = conns s !! h) ∧
  sent s' = sent s ∧
  (∀ sdp, handleAnswer pid sdp s' = s') ∧
  (∀ c, handleIceCandidate pid c s' = (Return (), s')) ∧
  (∀ sdp, let s'' := handleOffer pid sdp s' in
     ∃ q pc answer,
       peers s'' !! pid = Some q ∧ connection q = Some (length (conns s')) ∧
       conns s'' !! length (conns s') = Some pc ∧ closed pc = false ∧
       remoteDescription pc = Some sdp ∧ localDescription pc = Some answer ∧
       sdp_type answer = sdp_answer ∧
       (∀ j, j < length (conns s') → conns s'' !! j = conns s' !! j) ∧
       (is_Some (socket s) →
          sent s'' = sent s' ++ [video_answer pid (Some answer)])).
Proof.
  intros Hp s'.
  assert (Hgone : peers s' !! pid = None).
  { subst s'. unfold on_video_peer_left. simpl. apply lookup_delete_eq. }
  split; [done|]. split; [|split; [|split; [|split; [|split; [|split]]]]].
  - intros k Hk. subst s'. unfold on_video_peer_left. simpl.
    rewrite lookup_delete_ne by done. by destruct (peers s !! pid ≫= connection).
  - intros h Hh. subst s'. unfold on_video_peer_left. rewrite Hp. simpl.
    rewrite Hh. simpl. apply list_lookup_alter_eq.
  - intros h Hh. subst s'. unfold on_video_peer_left. rewrite Hp. simpl.
    destruct (connection p) as [i|]; simpl; [|done].
    rewrite list_lookup_alter_ne; [done|congruence].
  - subst s'. unfold on_video_peer_left.
    by destruct (peers s !! pid ≫= connection).
  - intros sdp. unfold handleAnswer. by rewrite Hgone.
  - intros c. unfold handleIceCandidate. by rewrite Hgone.
  - intros sdp s''. subst s''.
    destruct (handleOffer_spec pid sdp s') as [(q & pc0 & Hq & Hc & _) _].
    destruct (handleOffer_answers pid sdp s')
      as (pc & answer & Hconns & Hopen & Hrem & Hloc & Hty & Hsent).
    exists q, pc, answer. rewrite Hconns.
    split; [done|]. split; [done|].
    split; [by rewrite lookup_app_r, Nat.sub_diag|].
    split; [done|]. split; [done|]. split; [done|]. split; [done|]. split.
    + intros j Hj. by rewrite lookup_app_l.
    + intros Hs. apply Hsent. subst s'. unfold on_video_peer_left.
      by destruct (peers s !! pid ≫= connection).
Qed.

Lemma C5_peer_left_witness :
  peers (on_video_peer_left "B" Scenario.answeringA) !! "B" = None ∧
  (closed <$> conns (on_video_peer_left "B" Scenario.answeringA) !! 0) = Some true.
Proof.
  pose proof (C5_peer_left_releases Scenario.answeringA "B" _ eq_refl) as H.
  split; [exact (proj1 H)|].
  rewrite (proj1 (proj2 (proj2 H)) 0 eq_refl). reflexivity.
Defined.

(** C5, as stated, fails: after [peer_left] for B, an offer carrying B's id
    is processed: the store changes, B is registered again with a new
    connection, and an answer is sent to B. *)
Lemma C5_counterexample :
  let left := receive (ev_video_peer_left "B") Scenario.answeringA in
  let again := receive (ev_video_offer "B" Scenario.offerOfB) left in
  peers left !! "B" = None ∧
  again ≠ left ∧
  (connection <$> peers again !! "B") = Some (Some 1) ∧
  answerTargets (sent again) = answerTargets (sent left) ++ ["B"].
Proof.
  simpl. split; [reflexivity|]. split; [|split; reflexivity].
  intros H. apply (f_equal (λ x, length (conns x))) in H.
  vm_compute in H. discriminate.
Qed.

(** ** The registry invariant *)

Lemma fmap_closed_alter (f : RTCPeerConnection → RTCPeerConnection) h
    (heap : list RTCPeerConnection) :
  (∀ pc, closed (f pc) = closed pc) →
  closed <$> alter f h heap = closed <$> heap.
Proof.
  intros Hf. rewrite (list_fmap_alter closed f (λ b, b)).
  - by apply list_alter_id.
  - apply Forall_forall. intros pc _. apply Hf.
Qed.

Lemma fmap_closed_forEachPeer (f : RTCPeerConnection → RTCPeerConnection)
    (touch : string → Peer → option nat) cb ps heap :
  (∀ p k hp, cb p k hp
     = match touch k p with Some i => alter f i hp | None => hp end) →
  (∀ pc, closed (f pc) = closed pc) →
  closed <$> forEachPeer cb ps heap = closed <$> heap.
Proof.
  intros Hcb Hf. unfold forEachPeer. generalize (map_to_list ps). intros l.
  revert heap. induction l as [|[k p] l IH]; intros heap; simpl; [done|].
  rewrite IH, Hcb. destruct (touch k p); [by apply fmap_closed_alter|done].
Qed.

Lemma closed_replaceVideoSender t pc : closed (replaceVideoSender t pc) = closed pc.
Proof.
  unfold replaceVideoSender.
  by destruct (list_find isVideoSender (getSenders pc)) as [[i x]|].
Qed.

Lemma closed_attachAITrack t pc : closed (attachAITrack t pc) = closed pc.
Proof.
  unfold attachAITrack, addTrack. case_decide; [done|].
  by destruct (closed pc) eqn:Hc.
Qed.

Lemma registryLive_frame s s' :
  peers s' = peers s → closed <$> conns s' = closed <$> conns s →
  registryLive s → registryLive s'.
Proof. unfold registryLive. intros -> ->. done. Qed.

Lemma registryLive_empty s : peers s = ∅ → registryLive s.
Proof. intros He k p h Hk. by rewrite He, lookup_empty in Hk. Qed.

Lemma registryLive_insert_unconnected k p s :
  connection p = None → registryLive s →
  registryLive (set_peers (<[k := p]> (peers s)) s).
Proof.
  intros Hc Hl k1 p1 h Hk1 Hh. simpl in *.
  destruct (decide (k = k1)) as [->|Hne].
  { rewrite lookup_insert_eq in Hk1. congruence. }
  rewrite lookup_insert_ne in Hk1 by done.
  destruct (Hl k1 p1 h Hk1 Hh) as [Hopen Huniq]. split; [done|].
  intros k2 p2 Hk2 Hh2. destruct (decide (k = k2)) as [->|Hne2].
  { rewrite lookup_insert_eq in Hk2. congruence. }
  rewrite lookup_insert_ne in Hk2 by done. eauto.
Qed.

Lemma registryLive_createPeerConnection peerId b s :
  registryLive s → registryLive (createPeerConnection peerId b s).2.
Proof.
  intros Hl.
  destruct (createPeerConnection_peers peerId b s) as (e & He & Hec).
  pose proof (createPeerConnection_conns peerId b s) as Hc.
  pose proof (createPeerConnection_open peerId b s) as Ho.
  assert (Hold : ∀ k p h, peers s !! k = Some p → connection p = Some h →
            h < length (conns s)).
  { intros k p h Hk Hh. destruct (Hl k p h Hk Hh) as [Hopen _].
    apply lookup_lt_Some in Hopen. by rewrite length_fmap in Hopen. }
  intros k p h Hk Hh. rewrite He in Hk. rewrite Hc, fmap_app. simpl. rewrite Ho.
  destruct (decide (peerId = k)) as [->|Hne].
  - rewrite lookup_insert_eq in Hk. injection Hk as <-.
    rewrite Hec in Hh. injection Hh as <-. split.
    + rewrite lookup_app_r, length_fmap, Nat.sub_diag; [done|].
      by rewrite length_fmap.
    + intros k' p' Hk' Hh'. rewrite He in Hk'.
      destruct (decide (k = k')) as [|Hne']; [done|].
      rewrite lookup_insert_ne in Hk' by done.
      specialize (Hold k' p' _ Hk' Hh'). lia.
  - rewrite lookup_insert_ne in Hk by done.
    destruct (Hl k p h Hk Hh) as [Hopen Huniq]. split.
    + rewrite lookup_app_l; [done|]. rewrite length_fmap. eauto.
    + intros k' p' Hk' Hh'. rewrite He in Hk'.
      destruct (decide (peerId = k')) as [<-|Hne'].
      * rewrite lookup_insert_eq in Hk'. injection Hk' as <-.
        rewrite Hec in Hh'. injection Hh' as <-.
        specialize (Hold k p _ Hk Hh). lia.
      * rewrite lookup_insert_ne in Hk' by done. eauto.
Qed.

(** Every socket message preserves the registry invariant. *)
Lemma registryLive_receive ev s : registryLive s → registryLive (receive ev s).
Proof.
  intros Hl. destruct ev as [ids|pid name|pid|from_id sdp|from_id sdp|from_id c|pid a v];
    cbv [receive].
  - unfold on_video_peers. revert s Hl.
    induction ids as [|x ids IH]; intros s Hl; cbn [foldl]; [done|].
    apply IH. by apply registryLive_createPeerConnection.
  - by apply registryLive_insert_unconnected.
  - intros k p h Hk Hh. unfold on_video_peer_left in *. simpl in Hk.
    destruct (decide (pid = k)) as [->|Hne].
    { by rewrite lookup_delete_eq in Hk. }
    rewrite lookup_delete_ne in Hk by done.
    assert (peers s !! k = Some p) as Hk0
      by by destruct (peers s !! pid ≫= connection).
    destruct (Hl k p h Hk0 Hh) as [Hopen Huniq]. split.
    + destruct (peers s !! pid) as [q|] eqn:Hq; simpl; [|done].
      destruct (connection q) as [i|] eqn:Hi; simpl; [|done].
      rewrite list_lookup_fmap, list_lookup_alter_ne, <- list_lookup_fmap; [done|].
      intros ->. by destruct (Huniq pid q Hq Hi).
    + intros k' p' Hk' Hh'. simpl in Hk'.
      destruct (decide (pid = k')) as [->|Hne'].
      { by rewrite lookup_delete_eq in Hk'. }
      rewrite lookup_delete_ne in Hk' by done.
      apply (Huniq k' p'); [|done].
      by destruct (peers s !! pid ≫= connection).
  - rewrite handleOffer_unfold. cbv zeta.
    pose proof (registryLive_createPeerConnection from_id false s Hl) as Hl1.
    pose proof (createPeerConnection_handle from_id false s) as Hh.
    pose proof (createPeerConnection_conns from_id false s) as Hc.
    destruct (createPeerConnection from_id false s) as [[h pc] s1]. simpl in *.
    eapply registryLive_frame; [| |exact Hl1].
    + by rewrite peers_emit.
    + rewrite conns_emit. simpl. subst h.
      by rewrite Hc, insert_at_length, !fmap_app.
  - unfold handleAnswer. destruct (peers s !! from_id ≫= connection); [|done].
    apply (registryLive_frame s); [done| |done]. by apply fmap_closed_alter.
  - destruct (handleIceCandidate_frame from_id c s) as (Hp & Hc & _).
    by apply (registryLive_frame s).
  - intros k p h Hk Hh. unfold on_video_mute_status in *. simpl in *.
    assert (Hconn : ∀ k1 p1, alter
              (λ peer, {| peer_id := peer_id peer; peer_name := peer_name peer;
                          connection := connection peer; stream := stream peer;
                          peer_audioMuted := a; peer_videoMuted := v |}) pid (peers s)
              !! k1 = Some p1 →
            ∃ p0, peers s !! k1 = Some p0 ∧ connection p0 = connection p1).
    { intros k1 p1 H1. destruct (decide (pid = k1)) as [->|Hne].
      - rewrite lookup_alter_eq in H1.
        destruct (peers s !! k1) as [p0|]; [|done]. injection H1 as <-. eauto.
      - rewrite lookup_alter_ne in H1 by done. eauto. }
    destruct (Hconn k p Hk) as (p0 & Hk0 & Hc0).
    destruct (Hl k p0 h Hk0) as [Hopen Huniq]; [congruence|]. split; [done|].
    intros k' p' Hk' Hh'. destruct (Hconn k' p' Hk') as (p1 & Hk1 & Hc1).
    apply (Huniq k' p1); congruence.
Qed.

(** So do screen sharing and the operations on the AI participant. *)
Lemma registryLive_startScreenShare dev s :
  registryLive s → registryLive (startScreenShare dev s).2.
Proof.
  intros Hl. unfold startScreenShare. destruct (getDisplayMedia dev) as [scr|e]; [|done].
  assert (∀ t, closed <$> forEachPeer
             (λ peer _, onConnection (replaceVideoSender t) peer) (peers s) (conns s)
           = closed <$> conns s) as Hc.
  { intros t. apply (fmap_closed_forEachPeer (replaceVideoSender t)
                       (λ _ p, connection p)); [done|].
    apply closed_replaceVideoSender. }
  destruct (head (getVideoTracks scr)) as [vt|]; simpl.
  - eapply registryLive_frame; [| |exact Hl].
    + by rewrite peers_emit.
    + rewrite conns_emit. apply Hc.
  - apply (registryLive_frame s); [done|apply Hc|exact Hl].
Qed.

Lemma registryLive_stopScreenShare s :
  registryLive s → registryLive (stopScreenShare s).
Proof.
  intros Hl. unfold stopScreenShare. destruct (screenStream s) as [scr|]; [|done].
  eapply registryLive_frame; [| |exact Hl].
  - rewrite peers_emit. simpl. by destruct (localStream s).
  - rewrite conns_emit. simpl. destruct (localStream s) as [cam|]; [|done]. simpl.
    apply (fmap_closed_forEachPeer
             (restoreVideoSender (head (getVideoTracks cam))) (λ _ p, connection p));
      [done|].
    intros pc. unfold restoreVideoSender.
    destruct (head (getVideoTracks cam)); [apply closed_replaceVideoSender|done].
Qed.

Lemma registryLive_broadcastAIAudio s :
  registryLive s → registryLive (broadcastAIAudio s).
Proof.
  intros Hl. unfold broadcastAIAudio. destruct (aiAudioStream s) as [m|]; [|done].
  destruct (head (getAudioTracks m)) as [t|]; [|done].
  apply (registryLive_frame s); [done| |exact Hl]. simpl.
  apply (fmap_closed_forEachPeer (attachAITrack t)
           (λ k p, if decide (k = ai_facilitator) then None else connection p)).
  - intros. apply attach_touch.
  - apply closed_attachAITrack.
Qed.

Lemma registryLive_setAIAudioStream m s :
  registryLive s → registryLive (setAIAudioStream m s).
Proof.
  intros Hl. unfold setAIAudioStream. apply registryLive_broadcastAIAudio.
  eapply registryLive_frame;
    [apply peers_emit|by rewrite conns_emit|].
  apply (registryLive_insert_unconnected ai_facilitator (aiPeer m)); [done|].
  by apply (registryLive_frame s).
Qed.

Lemma registryLive_handleRemoteAIAudio m s :
  registryLive s → registryLive (handleRemoteAIAudio m s).
Proof.
  intros Hl. unfold handleRemoteAIAudio. destruct (isAIHost s); [done|].
  apply (registryLive_insert_unconnected ai_facilitator (aiPeer m)); [done|].
  by apply (registryLive_frame s).
Qed.

Lemma registryLive_connectVideo sid name sock io s :
  registryLive s → registryLive (connectVideo sid name sock io s).
Proof.
  intros Hl. unfold connectVideo.
  eapply registryLive_frame; [apply peers_emit|by rewrite conns_emit|].
  by apply (registryLive_frame s).
Qed.

(** ** Swapping the outgoing video track *)

Lemma head_getVideoTracks_kind m t : head (getVideoTracks m) = Some t → kind t = video.
Proof.
  intros H. apply head_Some_elem_of in H. unfold getVideoTracks in H.
  by apply list_elem_of_filter in H as [? _].
Qed.

Lemma replaceVideoSender_idem t pc :
  kind t = video →
  replaceVideoSender (Some t) (replaceVideoSender (Some t) pc)
  = replaceVideoSender (Some t) pc.
Proof.
  intros Hk. unfold replaceVideoSender at 2 3.
  destruct (list_find isVideoSender (getSenders pc)) as [[i x]|] eqn:Hf.
  - apply list_find_Some in Hf as (Hi & Hx & Hlt).
    assert (list_find isVideoSender (getSenders (replaceTrack i (Some t) pc))
            = Some (i, Some t)) as Hf'.
    { apply list_find_Some. simpl. split; [|split].
      - apply list_lookup_insert_eq. by eapply lookup_lt_Some.
      - unfold isVideoSender. simpl. by rewrite Hk.
      - intros j y Hj Hji. rewrite list_lookup_insert_ne in Hj by lia. eauto. }
    unfold replaceVideoSender. rewrite Hf'. unfold replaceTrack, set_senders. simpl.
    by rewrite list_insert_insert_eq.
  - unfold replaceVideoSender. by rewrite Hf.
Qed.

Lemma swap_touch (f : RTCPeerConnection → RTCPeerConnection) p (k : string)
    (hp : list RTCPeerConnection) :
  onConnection f p hp
  = match connection p with Some i => alter f i hp | None => hp end.
Proof. done. Qed.

Lemma count_none (l : list (option MediaStreamTrack)) t :
  (∀ j, l !! j ≠ Some (Some t)) → length (filter (λ x, x = Some t) l) = 0.
Proof.
  induction l as [|x l IH]; intros Hn; [done|].
  rewrite filter_cons_False.
  - apply IH. intros j. apply (Hn (S j)).
  - intros ->. by apply (Hn 0).
Qed.

Lemma count_insert_same (l : list (option MediaStreamTrack)) i t :
  i < length l → (∀ j, l !! j = Some (Some t) → j = i) →
  length (filter (λ x, x = Some t) (<[i := Some t]> l)) = 1.
Proof.
  revert i. induction l as [|x l IH]; intros i Hi Hj; simpl in Hi; [lia|].
  destruct i as [|i]; simpl.
  - rewrite filter_cons_True by done. simpl. f_equal.
    apply count_none. intros j Hl. by specialize (Hj (S j) Hl).
  - rewrite filter_cons_False.
    + apply IH; [lia|]. intros j Hl. specialize (Hj (S j) Hl). lia.
    + intros ->. by specialize (Hj 0 eq_refl).
Qed.

Lemma count_insert_other (l : list (option MediaStreamTrack)) i t u :
  u ≠ t → (∀ j, l !! j = Some (Some t) → j = i) →
  length (filter (λ x, x = Some t) (<[i := Some u]> l)) = 0.
Proof.
  intros Hu. revert i. induction l as [|x l IH]; intros i Hj; [done|].
  destruct i as [|i]; simpl.
  - rewrite filter_cons_False by congruence.
    apply count_none. intros j Hl. by specialize (Hj (S j) Hl).
  - rewrite filter_cons_False.
    + apply IH. intros j Hl. specialize (Hj (S j) Hl). lia.
    + intros ->. by specialize (Hj 0 eq_refl).
Qed.

(** The same three facts, per connection. *)
Section PerConnection.

Variable t : MediaStreamTrack.
Variable pc : RTCPeerConnection.
Hypothesis only : ∀ j, getSenders pc !! j = Some (Some t) →
  ∃ x, list_find isVideoSender (getSenders pc) = Some (j, x).

Lemma carrying_after_swap :
  Exists isVideoSender (getSenders pc) →
  carrying t (replaceVideoSender (Some t) pc) = 1.
Proof.
  intros HE. unfold replaceVideoSender, carrying.
  destruct (list_find isVideoSender (getSenders pc)) as [[i x]|] eqn:Hf.
  - simpl. apply count_insert_same.
    + apply list_find_Some in Hf as (Hi & _). by eapply lookup_lt_Some.
    + intros j Hj. destruct (only j Hj) as [y Hy]. congruence.
  - apply list_find_None in Hf. apply Exists_exists in HE as (y & Hy & HP).
    rewrite Forall_forall in Hf. by destruct (Hf y Hy).
Qed.

Lemma carrying_without_video :
  ¬ Exists isVideoSender (getSenders pc) →
  carrying t (replaceVideoSender (Some t) pc) = 0.
Proof.
  intros HE. unfold replaceVideoSender, carrying.
  destruct (list_find isVideoSender (getSenders pc)) as [[i x]|] eqn:Hf.
  - apply list_find_Some in Hf as (Hi & HP & _). destruct HE.
    apply Exists_exists. exists x. split; [|done]. by eapply list_elem_of_lookup_2.
  - apply count_none. intros j Hj. destruct (only j Hj) as [y Hy]. congruence.
Qed.

Lemma carrying_old_after_swap u :
  u ≠ t → carrying t (replaceVideoSender (Some u) pc) = 0.
Proof.
  intros Hu. unfold replaceVideoSender, carrying.
  destruct (list_find isVideoSender (getSenders pc)) as [[i x]|] eqn:Hf.
  - simpl. apply count_insert_other; [done|].
    intros j Hj. destruct (only j Hj) as [y Hy]. congruence.
  - apply count_none. intros j Hj. destruct (only j Hj) as [y Hy]. congruence.
Qed.

End PerConnection.

Lemma sum_indicator (P : nat → Prop) `{!∀ h, Decision (P h)} (l : list nat) :
  sum_list ((λ h, if decide (P h) then 1 else 0) <$> l) = length (filter P l).
Proof.
  induction l as [|h l IH]; [done|]. csimpl. rewrite IH.
  destruct (decide (P h)).
  - by rewrite filter_cons_True.
  - by rewrite filter_cons_False.
Qed.

Lemma size_filter_gset (P : nat → Prop) `{!∀ h, Decision (P h)} (X : gset nat) :
  size (filter P X) = length (filter P (elements X)).
Proof.
  unfold filter at 1, set_filter. rewrite size_list_to_set; [done|].
  apply NoDup_filter, NoDup_elements.
Qed.

(** What a loop that swaps [t] onto the video senders achieves. *)
Lemma swapped_by_loop (t : MediaStreamTrack) (s s' : VideoStore) :
  kind t = video →
  peers s' = peers s →
  conns s' = forEachPeer (λ peer _, onConnection (replaceVideoSender (Some t)) peer)
               (peers s) (conns s) →
  videoSendersSwapped t s s'.
Proof.
  intros Hk Hp Hc.
  assert (Hin : ∀ h, h ∈ connectedHandles s →
            conns s' !! h = replaceVideoSender (Some t) <$> conns s !! h).
  { intros h Hh. apply elem_of_connectedHandles in Hh as (k & p & Hkp & Hh).
    rewrite Hc.
    eapply (forEachPeer_touched (replaceVideoSender (Some t)) (λ _ p, connection p));
      [intros; apply swap_touch; done
      |intros; by apply replaceVideoSender_idem|done..]. }
  assert (Hsame : connectedHandles s' = connectedHandles s).
  { unfold connectedHandles. by rewrite Hp. }
  split; [done|]. split; [done|]. split; [|split].
  - intros h Hh. rewrite Hc.
    apply (forEachPeer_untouched (replaceVideoSender (Some t)) (λ _ p, connection p)).
    + intros. by apply swap_touch.
    + intros k p Hkp Hch. apply Hh. apply elem_of_connectedHandles. eauto.
  - intros Honly. unfold sendersCarrying, videoHandles.
    rewrite Hsame, size_filter_gset, <- sum_indicator. f_equal.
    apply Forall_fmap_ext, Forall_forall. intros h Hh.
    apply elem_of_elements in Hh. rewrite (Hin h Hh).
    destruct (decide (hasVideoSender (conns s) h)) as [HE|HE];
      unfold hasVideoSender in HE;
      destruct (conns s !! h) as [pc|] eqn:Hpc; simpl; try done.
    + apply carrying_after_swap; [|done]. intros j Hj. eapply Honly; eauto.
    + apply carrying_without_video; [|done]. intros j Hj. eapply Honly; eauto.
  - intros old Hold Honly. unfold sendersCarrying. rewrite Hsame.
    erewrite sum_list_fmap_same; [apply Nat.mul_0_r|].
    apply Forall_forall. intros h Hh. apply elem_of_elements in Hh.
    rewrite (Hin h Hh). destruct (conns s !! h) as [pc|] eqn:Hpc; simpl; [|done].
    apply carrying_old_after_swap; [|done]. intros j Hj. eapply Honly; eauto.
Qed.

(** C3 (as the code has it): starting screen share swaps the screen's video
    track onto the first outgoing video sender of every registered
    connection that has a video sender, and touches nothing else (a
    connection without a video sender keeps its senders); stopping does the
    same with the camera's video track when a local stream with a video
    track exists.  So when the new track sat on no other sender, exactly as
    many senders carry it afterwards as there are registered connections
    with a video sender, and no sender carries an old track that sat only
    on those video senders.  Nothing but the screen-share notification is
    emitted: no offer, no answer. *)
Theorem C3_screen_share_swaps_video_senders (s : VideoStore) :
  (∀ dev scr vt,
     getDisplayMedia dev = Return scr → head (getVideoTracks scr) = Some vt →
     (startScreenShare dev s).1 = Return scr ∧
     videoSendersSwapped vt s (startScreenShare dev s).2 ∧
     sent (startScreenShare dev s).2
       = sent (emit (screen_share_start (sessionId s)) s)) ∧
  (∀ scr cam ct,
     screenStream s = Some scr → localStream s = Some cam →
     head (getVideoTracks cam) = Some ct →
     videoSendersSwapped ct s (stopScreenShare s) ∧
     sent (stopScreenShare s) = sent (emit (screen_share_stop (sessionId s)) s)).
Proof.
  split.
  - intros dev scr vt Hd Hv. unfold startScreenShare. rewrite Hd, Hv. simpl.
    split; [done|]. split.
    + apply swapped_by_loop.
      * by eapply head_getVideoTracks_kind.
      * by rewrite peers_emit.
      * by rewrite conns_emit.
    + unfold emit, sent. simpl. by destruct (socket s).
  - intros scr cam ct Hs Hl Hv. unfold stopScreenShare. rewrite Hs. simpl.
    rewrite Hl, Hv. simpl. split.
    + apply swapped_by_loop.
      * by eapply head_getVideoTracks_kind.
      * by rewrite peers_emit.
      * by rewrite conns_emit.
    + unfold emit, sent. simpl. by destruct (socket s).
Qed.

Lemma C3_screen_share_witness :
  let s' := (startScreenShare Scenario.grantedDevices Scenario.answeringA).2 in
  sendersCarrying Scenario.screenTrack s' = size (videoHandles Scenario.answeringA) ∧
  sendersCarrying Scenario.camTrack s' = 0 ∧
  size (videoHandles Scenario.answeringA) = 1.
Proof.
  destruct (proj1 (C3_screen_share_swaps_video_senders Scenario.answeringA)
              Scenario.grantedDevices Scenario.screen Scenario.screenTrack
              eq_refl eq_refl) as (_ & (_ & _ & _ & Hnew & Hold) & _).
  split; [|split].
  - apply Hnew. intros h pc j _ Hpc Hj.
    destruct h as [|h]; [|discriminate Hpc].
    injection Hpc as <-. by destruct j as [|[|[|j]]].
  - apply Hold; [done|]. intros h pc j _ Hpc Hj.
    destruct h as [|h]; [|discriminate Hpc].
    injection Hpc as <-. destruct j as [|[|[|j]]]; try done. by eexists.
  - reflexivity.
Defined.

(** C3, as stated, fails: a client that connected before it had any local
    media holds one connection, with no video sender; screen sharing starts
    successfully and yet no sender carries the screen track. *)
Lemma C3_counterexample :
  let r := startScreenShare Scenario.grantedDevices Scenario.noMediaClient in
  r.1 = Return Scenario.screen ∧
  size (connectedHandles Scenario.noMediaClient) = 1 ∧
  sendersCarrying Scenario.screenTrack r.2 = 0 ∧
  sendersCarrying Scenario.screenTrack r.2 ≠ size (connectedHandles Scenario.noMediaClient).
Proof. simpl. split; [|split; [|split]]; [reflexivity..|]. vm_compute. discriminate. Qed.

(** ** The AI-audio fan-out *)

Lemma attachAITrack_idem t pc :
  attachAITrack t (attachAITrack t pc) = attachAITrack t pc.
Proof.
  unfold attachAITrack at 2 3.
  destruct (decide (Exists (carriesId (track_id t)) (getSenders pc))) as [HE|HE].
  - unfold attachAITrack. by rewrite decide_True.
  - unfold addTrack. destruct (closed pc) eqn:Hc; simpl.
    + unfold attachAITrack, addTrack. rewrite decide_False by done. by rewrite Hc.
    + unfold attachAITrack. rewrite decide_True; [done|]. simpl.
      apply Exists_app. right. by apply Exists_cons_hd.
Qed.

Lemma carryingId_attach t pc :
  closed pc = false →
  carryingId (track_id t) (attachAITrack t pc)
  = Nat.max 1 (carryingId (track_id t) pc).
Proof.
  intros Hopen. unfold attachAITrack.
  destruct (decide (Exists (carriesId (track_id t)) (getSenders pc))) as [HE|HE].
  - unfold carryingId in *.
    apply Exists_exists in HE as (x & Hx & HP).
    assert (x ∈ filter (carriesId (track_id t)) (getSenders pc)) as Hin
      by by apply list_elem_of_filter.
    destruct (filter (carriesId (track_id t)) (getSenders pc)) as [|y l];
      [by apply elem_of_nil in Hin|simpl; lia].
  - unfold addTrack. rewrite Hopen. simpl. unfold carryingId. simpl.
    rewrite filter_app, length_app.
    rewrite filter_cons_True by done. simpl.
    assert (filter (carriesId (track_id t)) (getSenders pc) = []) as ->; [|done].
    destruct (filter (carriesId (track_id t)) (getSenders pc)) as [|y l] eqn:Hf; [done|].
    destruct HE. apply Exists_exists. exists y.
    assert (y ∈ filter (carriesId (track_id t)) (getSenders pc)) as Hin
      by (rewrite Hf; left).
    apply list_elem_of_filter in Hin as [? ?]. done.
Qed.

(** C4: with the agent's audio track set, the fan-out is idempotent: a
    second call in succession changes nothing.  After the first call, and
    still after the second, every registered peer connection carries the
    agent's track (by track id) on exactly one sender, unless it already
    carried it on several, which the fan-out never causes; a connection that
    already carried it gets no further sender.  The registry is taken to
    satisfy its invariant [registryLive]. *)
Theorem C4_fanout_idempotent (s : VideoStore) (m : MediaStream)
    (t : MediaStreamTrack) :
  aiAudioStream s = Some m → head (getAudioTracks m) = Some t →
  registryLive s →
  broadcastAIAudio (broadcastAIAudio s) = broadcastAIAudio s ∧
  ∀ k p h,
    peers s !! k = Some p → k ≠ ai_facilitator → connection p = Some h →
    ∃ pc pc',
      conns s !! h = Some pc ∧
      conns (broadcastAIAudio s) !! h = Some pc' ∧
      conns (broadcastAIAudio (broadcastAIAudio s)) !! h = Some pc' ∧
      carryingId (track_id t) pc' = Nat.max 1 (carryingId (track_id t) pc) ∧
      (carryingId (track_id t) pc ≤ 1 → carryingId (track_id t) pc' = 1) ∧
      (Exists (carriesId (track_id t)) (getSenders pc) → pc' = pc).
Proof.
  intros Hm Ht Hlive.
  set (touch := λ (k : string) (p : Peer),
         if decide (k = ai_facilitator) then None else connection p).
  set (cb := λ (peer : Peer) (peerId : string) (heap : list RTCPeerConnection),
         if decide (peerId = ai_facilitator) then heap
         else onConnection (attachAITrack t) peer heap).
  assert (Hcb : ∀ p k hp, cb p k hp
            = match touch k p with Some i => alter (attachAITrack t) i hp | None => hp end)
    by (intros; apply attach_touch).
  assert (Hb : ∀ x, aiAudioStream x = Some m →
            broadcastAIAudio x = set_conns (forEachPeer cb (peers x) (conns x)) x).
  { intros x Hx. unfold broadcastAIAudio. by rewrite Hx, Ht. }
  assert (Hidem : broadcastAIAudio (broadcastAIAudio s) = broadcastAIAudio s).
  { rewrite (Hb (broadcastAIAudio s)) by by rewrite (Hb s Hm).
    rewrite (Hb s Hm). simpl. unfold set_conns. simpl. f_equal.
    apply list_eq. intros h.
    destruct (decide (Exists (λ kp : string * Peer, touch kp.1 kp.2 = Some h)
                        (map_to_list (peers s)))) as [HE|HE].
    - apply Exists_exists in HE as ([k p] & Hin & Hh).
      apply elem_of_map_to_list in Hin.
      erewrite !(forEachPeer_touched (attachAITrack t) touch cb Hcb
                   (attachAITrack_idem t)) by done.
      destruct (conns s !! h); simpl; [|done]. by rewrite attachAITrack_idem.
    - rewrite (forEachPeer_untouched (attachAITrack t) touch cb Hcb); [done|].
      intros k p Hk Hh. apply HE. apply Exists_exists. exists (k, p).
      split; [by apply elem_of_map_to_list|done]. }
  split; [done|].
  intros k p h Hk Hne Hc.
  destruct (Hlive k p h Hk Hc) as [Hopen _].
  rewrite list_lookup_fmap in Hopen.
  destruct (conns s !! h) as [pc|] eqn:Hpc; [|done].
  injection Hopen as Hopen.
  exists pc, (attachAITrack t pc).
  assert (Hone : conns (broadcastAIAudio s) !! h = Some (attachAITrack t pc)).
  { rewrite (Hb s Hm). simpl.
    erewrite (forEachPeer_touched (attachAITrack t) touch cb Hcb
                (attachAITrack_idem t)); [by rewrite Hpc|done|].
    unfold touch. by rewrite decide_False. }
  split; [done|]. split; [done|]. split; [by rewrite Hidem|].
  pose proof (carryingId_attach t pc Hopen) as Hcount.
  split; [done|]. split; [lia|].
  intros HE. unfold attachAITrack. by rewrite decide_True.
Qed.

Lemma C4_fanout_witness :
  let s := set_aiAudioStream (Some Scenario.agentVoice) Scenario.answeringA in
  broadcastAIAudio (broadcastAIAudio s) = broadcastAIAudio s ∧
  ∃ pc', conns (broadcastAIAudio s) !! 0 = Some pc' ∧
         conns (broadcastAIAudio (broadcastAIAudio s)) !! 0 = Some pc' ∧
         carryingId "agent" pc' = 1.
Proof.
  intros s.
  assert (registryLive s) as Hlive.
  { apply (registryLive_frame Scenario.answeringA); [reflexivity..|].
    do 2 apply registryLive_receive. apply registryLive_connectVideo.
    by apply registryLive_empty. }
  destruct (C4_fanout_idempotent s Scenario.agentVoice Scenario.agentTrack
              eq_refl eq_refl Hlive) as [Hidem Hconn].
  split; [exact Hidem|].
  destruct (Hconn "B" _ 0 eq_refl ltac:(discriminate) eq_refl)
    as (pc & pc' & Hpc & H1 & H2 & _ & H3 & _).
  exists pc'. split; [done|]. split; [done|]. apply H3.
  injection Hpc as <-. vm_compute. lia.
Defined.

End VideoProps.

Module TimerProps.
Import Timer.

Open Scope Z_scope.

(** ** Adopting the broadcast elapsed time *)

(** C2 (as the code has it): after a [timer_paused] message the store holds
    the message's paused flag and elapsed seconds.  The elapsed time the
    timer shows is set to the message's value when the message pauses a
    client that was not paused (and the local clock stops); a resume message
    leaves the shown elapsed time as it was. *)
Theorem C2_pause_adopts_elapsed (now : Z) (v : View) (paused : bool) (e : Z) :
  let v' := deliver now (timer_paused paused e) v in
  syncedElapsedSeconds (store v') = e ∧
  isPaused (store v') = paused ∧
  (paused = true → isPaused (store v) = false →
     elapsedSeconds (timer v') = e ∧ isRunning (timer v') = false ∧
     timerInterval (timer v') = None) ∧
  (paused = false → elapsedSeconds (timer v') = elapsedSeconds (timer v)).
Proof.
  intros v'. subst v'. unfold deliver. simpl.
  assert (Hst : ∀ b w, store (watch_isPaused b w) = store w).
  { intros [] w; unfold watch_isPaused; simpl; [done|].
    by destruct (isWorkshopRunning (store w) && negb (isRunning (timer w))). }
  split; [case_decide; [done|by rewrite Hst]|].
  split; [case_decide; [done|by rewrite Hst]|]. split.
  - intros -> Hp. rewrite Hp. done.
  - intros ->. case_decide; [done|]. unfold watch_isPaused. simpl.
    destruct (isWorkshopRunning (store v) && negb (isRunning (timer v))); simpl; [|done].
    unfold startTimerLocal. by destruct (isRunning (timer v)).
Qed.

Lemma C2_pause_adopts_elapsed_witness :
  elapsedSeconds (timer (deliver 0 (timer_paused true 100) (TimerScenario.runningView 95)))
    = 100 ∧
  elapsedSeconds (timer (deliver 0 (timer_paused false 130) (TimerScenario.pausedView 100)))
    = elapsedSeconds (timer (TimerScenario.pausedView 100)).
Proof.
  split.
  - apply (proj1 (proj2 (proj2 (C2_pause_adopts_elapsed 0
             (TimerScenario.runningView 95) true 100))) eq_refl eq_refl).
  - apply (proj2 (proj2 (proj2 (C2_pause_adopts_elapsed 0
             (TimerScenario.pausedView 100) false 130))) eq_refl).
Defined.

(** C2, as stated, fails in the resume case: a client paused at 100 seconds
    that processes [timer_paused] with [isPaused = false] and 130 elapsed
    seconds still shows 100. *)
Lemma C2_counterexample :
  elapsedSeconds
    (timer (deliver 0 (timer_paused false 130) (TimerScenario.pausedView 100))) = 100 ∧
  elapsedSeconds
    (timer (deliver 0 (timer_paused false 130) (TimerScenario.pausedView 100))) ≠ 130.
Proof. split; [reflexivity|]. vm_compute. discriminate. Qed.

(** ** Threshold notifications *)

Lemma continues_same t t' :
  warningsSent t' = warningsSent t → emitted t' = emitted t → continues t t'.
Proof.
  intros Hw He. split; [by rewrite Hw|]. exists []. rewrite He, app_nil_r.
  split; [done|]. split; [constructor|]. intros ev Hev. by apply elem_of_nil in Hev.
Qed.

Lemma continues_refl t : continues t t.
Proof. by apply continues_same. Qed.

Lemma continues_trans t1 t2 t3 :
  continues t1 t2 → continues t2 t3 → continues t1 t3.
Proof.
  intros (Hs1 & n1 & He1 & Hd1 & Hk1) (Hs2 & n2 & He2 & Hd2 & Hk2).
  split; [by etrans|]. exists (n1 ++ n2).
  split; [by rewrite He2, He1, app_assoc|]. split.
  - rewrite fmap_app. apply NoDup_app. split; [done|]. split; [|done].
    intros k Hk1' Hk2'.
    apply list_elem_of_fmap in Hk1' as (e1 & -> & Hin1).
    apply list_elem_of_fmap in Hk2' as (e2 & Heq & Hin2).
    destruct (Hk1 e1 Hin1) as [_ Hin]. destruct (Hk2 e2 Hin2) as [Hnot _].
    rewrite Heq in Hin. done.
  - intros ev Hev. apply elem_of_app in Hev as [Hev|Hev].
    + destruct (Hk1 ev Hev) as [Hout Hin]. split; [done|by apply Hs2].
    + destruct (Hk2 ev Hev) as [Hout Hin]. split; [|done].
      intros Hold. by apply Hout, Hs1.
Qed.

Lemma notify_continues key ev t :
  key = thresholdKey ev → key ∉ warningsSent t → continues t (notify key ev t).
Proof.
  intros -> Hn. split; [simpl; set_solver|]. exists [ev]. simpl.
  split; [done|]. split; [apply NoDup_singleton|].
  intros e He. apply list_elem_of_singleton in He as ->. set_solver.
Qed.

Lemma threshold_continues remaining at_ key ev t :
  key = thresholdKey ev → continues t (threshold remaining at_ key ev t).
Proof.
  intros Hk. unfold threshold. case_decide as H; [|apply continues_refl].
  apply notify_continues; [done|]. by destruct H.
Qed.

Lemma pauseTimerLocal_continues t : continues t (pauseTimerLocal t).
Proof. by apply continues_same. Qed.

Lemma startTimerLocal_continues t : continues t (startTimerLocal t).
Proof. unfold startTimerLocal. destruct (isRunning t); by apply continues_same. Qed.

Section Runs.

Variable floorShare : Z → Z → Z.

Lemma checkTimeEvents_continues v :
  continues (timer v) (timer (checkTimeEvents floorShare v)).
Proof.
  unfold checkTimeEvents. cbv zeta.
  change (timer (set_timer ?t v)) with t.
  set (p := currentPhase v).
  set (pr := phaseRemainingSeconds floorShare v).
  set (tr := remainingSeconds v).
  set (t1 := threshold pr 300 _ _ (timer v)).
  set (t2 := threshold pr 60 _ _ t1).
  set (t3 := threshold pr 0 _ _ t2).
  set (t4 := threshold tr 600 _ _ t3).
  set (t5 := threshold tr 300 _ _ t4).
  assert (H1 : continues (timer v) t1) by (apply threshold_continues; reflexivity).
  assert (H2 : continues t1 t2) by (apply threshold_continues; reflexivity).
  assert (H3 : continues t2 t3) by (apply threshold_continues; reflexivity).
  assert (H4 : continues t3 t4) by (apply threshold_continues; reflexivity).
  assert (H5 : continues t4 t5) by (apply threshold_continues; reflexivity).
  assert (H : continues (timer v) t5) by eauto using continues_trans.
  clearbody t5. clear H1 H2 H3 H4 H5.
  case_decide as Hd; [|exact H].
  apply (continues_trans _ _ _ H).
  eapply continues_trans; [|apply pauseTimerLocal_continues].
  apply notify_continues; [reflexivity|]. by destruct Hd.
Qed.

Lemma tick_continues v : continues (timer v) (timer (tick floorShare v)).
Proof.
  unfold tick. destruct (timerInterval (timer v)); [|apply continues_refl].
  destruct (isPaused (store v)); [apply continues_refl|].
  eapply continues_trans; [|apply checkTimeEvents_continues].
  by apply continues_same.
Qed.

Lemma watch_isPaused_continues b v : continues (timer v) (timer (watch_isPaused b v)).
Proof.
  unfold watch_isPaused. destruct b; simpl.
  - by apply continues_same.
  - destruct (isWorkshopRunning (store v) && negb (isRunning (timer v))); simpl;
      [apply startTimerLocal_continues|apply continues_refl].
Qed.

Lemma watch_workshopStartedAt_continues now t0 v :
  continues (timer v) (timer (watch_workshopStartedAt now t0 v)).
Proof.
  unfold watch_workshopStartedAt. destruct t0 as [t0|]; simpl; [|apply continues_refl].
  destruct (isRunning (timer v)); simpl; [by apply continues_same|].
  eapply continues_trans; [|apply startTimerLocal_continues]. by apply continues_same.
Qed.

Lemma deliver_continues now m v : continues (timer v) (timer (deliver now m v)).
Proof.
  unfold deliver.
  set (v1 := set_store (handle m (store v)) v).
  assert (continues (timer v)
            (timer (if assignsStartedAt m
                    then watch_workshopStartedAt now
                           (workshopStartedAt (handle m (store v))) v1
                    else v1))) as H2.
  { destruct (assignsStartedAt m); [|apply continues_refl].
    apply (watch_workshopStartedAt_continues now _ v1). }
  case_decide; [done|].
  eapply continues_trans; [exact H2|]. apply watch_isPaused_continues.
Qed.

Lemma toggleTimer_continues v : continues (timer v) (timer (toggleTimer v)).
Proof.
  unfold toggleTimer. destruct (isRunning (timer v)) eqn:Hr; simpl.
  - by apply continues_same.
  - apply startTimerLocal_continues.
Qed.

Lemma step_continues a v :
  a ≠ ResetTimer → continues (timer v) (timer (step floorShare a v)).
Proof.
  destruct a; simpl; intros Ha; [apply tick_continues|apply deliver_continues
    |apply toggleTimer_continues|done].
Qed.

Lemma run_continues l v :
  ResetTimer ∉ l → continues (timer v) (timer (run floorShare l v)).
Proof.
  revert v. induction l as [|a l IH]; intros v Hl; simpl; [apply continues_refl|].
  apply not_elem_of_cons in Hl as [Ha Hl].
  eapply continues_trans; [apply step_continues; intros Heq; by apply Ha|]. by apply IH.
Qed.

(** C8: between explicit resets each threshold raises its event at most
    once.  Over any sequence of ticks, socket messages and play/pause
    clicks that contains no reset, the set of already-notified keys only
    grows, and the events emitted meanwhile have pairwise distinct threshold
    keys, none of which was in the set before and all of which are in it
    afterwards (so a threshold whose key is in the set is never re-emitted).
    The reset action is what empties the set. *)
Theorem C8_thresholds_notified_once (l : list Action) (v : View) :
  ResetTimer ∉ l →
  let v' := run floorShare l v in
  warningsSent (timer v) ⊆ warningsSent (timer v') ∧
  (∃ new, emitted (timer v') = emitted (timer v) ++ new ∧
          NoDup (thresholdKey <$> new) ∧
          ∀ ev, ev ∈ new →
            (thresholdKey ev ∉ warningsSent (timer v)) ∧
            (thresholdKey ev ∈ warningsSent (timer v'))) ∧
  warningsSent (timer (step floorShare ResetTimer v')) = ∅.
Proof.
  intros Hl v'. destruct (run_continues l v Hl) as [Hsub Hnew]. done.
Qed.

End Runs.

Lemma C8_thresholds_witness :
  let v' := run TimerScenario.exactShare TimerScenario.crossTwice
              (TimerScenario.runningView 59) in
  warningsSent (timer (TimerScenario.runningView 59)) ⊆ warningsSent (timer v') ∧
  (∃ new, emitted (timer v') = emitted (timer (TimerScenario.runningView 59)) ++ new ∧
          NoDup (thresholdKey <$> new) ∧
          ∀ ev, ev ∈ new →
            (thresholdKey ev ∉ warningsSent (timer (TimerScenario.runningView 59))) ∧
            (thresholdKey ev ∈ warningsSent (timer v'))) ∧
  warningsSent (timer (step TimerScenario.exactShare ResetTimer v')) = ∅.
Proof.
  apply (C8_thresholds_notified_once TimerScenario.exactShare
           TimerScenario.crossTwice (TimerScenario.runningView 59)).
  unfold TimerScenario.crossTwice. intros H.
  repeat (apply elem_of_cons in H as [H|H]; [discriminate H|]).
  by apply elem_of_nil in H.
Defined.

(** The run of the witness crosses the five-minute mark of the first phase
    twice and notifies once. *)
Example crossTwice_emits_once :
  emitted (timer (run TimerScenario.exactShare TimerScenario.crossTwice
                    (TimerScenario.runningView 59)))
  = [timeWarning "phase-5min" 5 orientation].
Proof. vm_compute. reflexivity. Qed.

End TimerProps.

(** * Further properties of the video store *)
Module VideoExtra.
Import Video VideoMore VideoProps.

Lemma close_idem pc : close (close pc) = close pc.
Proof. done. Qed.

Lemma sent_emit_last e s : is_Some (socket s) → last (sent (emit e s)) = Some e.
Proof. intros Hs. rewrite sent_emit by done. apply last_snoc. Qed.

Lemma emit_localStream_frame e s : localStream (emit e s) = localStream s.
Proof. unfold emit. by destruct (socket s). Qed.

Lemma emit_screenStream_frame e s : screenStream (emit e s) = screenStream s.
Proof. unfold emit. by destruct (socket s). Qed.

Lemma emit_stopped_frame e s : stoppedTracks (emit e s) = stoppedTracks s.
Proof. unfold emit. by destruct (socket s). Qed.

Lemma emit_sharing_frame e s : isScreenSharing (emit e s) = isScreenSharing s.
Proof. unfold emit. by destruct (socket s). Qed.

Lemma set_peers_id s : set_peers (peers s) s = s.
Proof. by destruct s. Qed.

Lemma set_conns_id s : set_conns (conns s) s = s.
Proof. by destruct s. Qed.

Lemma peers_disconnectAI s : peers (disconnectAI s) = delete ai_facilitator (peers s) ∨
                             peers (disconnectAI s) = peers s.
Proof.
  unfold disconnectAI. destruct (aiConnection s); [left|by right].
  by rewrite peers_emit.
Qed.

Lemma conns_disconnectAI s h :
  conns (disconnectAI s) !! h
  = if decide (aiConnection s = Some h) then close <$> conns s !! h else conns s !! h.
Proof.
  unfold disconnectAI. destruct (aiConnection s) as [i|] eqn:Hi.
  - rewrite conns_emit. simpl. case_decide as Hd.
    + injection Hd as ->. apply list_lookup_alter_eq.
    + rewrite list_lookup_alter_ne; [done|congruence].
  - by rewrite decide_False.
Qed.

Lemma socket_disconnectAI s : is_Some (socket s) → is_Some (socket (disconnectAI s)).
Proof.
  intros Hs. unfold disconnectAI. destruct (aiConnection s); [|done].
  by apply socket_emit_is_Some.
Qed.

Lemma localStream_disconnectAI s : localStream (disconnectAI s) = localStream s.
Proof.
  unfold disconnectAI. destruct (aiConnection s); [|done].
  by rewrite emit_localStream_frame.
Qed.

Lemma screenStream_disconnectAI s : screenStream (disconnectAI s) = screenStream s.
Proof.
  unfold disconnectAI. destruct (aiConnection s); [|done].
  by rewrite emit_screenStream_frame.
Qed.

Lemma stoppedTracks_disconnectAI s : stoppedTracks (disconnectAI s) = stoppedTracks s.
Proof.
  unfold disconnectAI. destruct (aiConnection s); [|done].
  by rewrite emit_stopped_frame.
Qed.

Lemma isScreenSharing_disconnectAI s :
  isScreenSharing (disconnectAI s) = isScreenSharing s.
Proof.
  unfold disconnectAI. destruct (aiConnection s); [|done].
  by rewrite emit_sharing_frame.
Qed.

Lemma sessionId_emit e s : sessionId (emit e s) = sessionId s.
Proof. unfold emit. by destruct (socket s). Qed.

Lemma sessionId_disconnectAI s : sessionId (disconnectAI s) = sessionId s.
Proof.
  unfold disconnectAI. destruct (aiConnection s); [|done].
  by rewrite sessionId_emit.
Qed.

(** The store [disconnect] hands to [disconnectAI]. *)
Lemma disconnect_unfold s :
  disconnect s
  = let s4 :=
      set_screenStream None
        (stopTracks (screenStream s)
           (set_localStream None
              (stopTracks (localStream s)
                 (set_peers ∅
                    (set_conns
                       (forEachPeer (λ peer _, onConnection close peer)
                          (peers s) (conns s)) s))))) in
    emit (video_leave (sessionId s)) (disconnectAI s4).
Proof.
  unfold disconnect. cbv zeta. by rewrite sessionId_disconnectAI.
Qed.

Lemma peers_disconnect s : peers (disconnect s) = ∅.
Proof.
  rewrite disconnect_unfold. cbv zeta. rewrite peers_emit.
  match goal with |- peers (disconnectAI ?x) = _ =>
    destruct (peers_disconnectAI x) as [-> | ->] end; [apply delete_empty|done].
Qed.

(** X1: [disconnect] empties the registry, closes every connection a
    registry entry held, clears the local and the screen stream after
    stopping all their tracks, and sends [video_leave] last.  The
    screen-sharing flag is not touched. *)
Theorem disconnect_releases_everything (s : VideoStore) :
  let s' := disconnect s in
  peers s' = ∅ ∧
  (∀ h, h ∈ connectedHandles s → conns s' !! h = close <$> conns s !! h) ∧
  localStream s' = None ∧ screenStream s' = None ∧
  (∀ m t, localStream s = Some m ∨ screenStream s = Some m →
     t ∈ getTracks m → t ∈ stoppedTracks s') ∧
  isScreenSharing s' = isScreenSharing s ∧
  (is_Some (socket s) → last (sent s') = Some (video_leave (sessionId s))).
Proof.
  intros s'. subst s'. split; [apply peers_disconnect|].
  rewrite disconnect_unfold. cbv zeta.
  split; [|split; [|split; [|split; [|split]]]].
  - intros h Hh. apply elem_of_connectedHandles in Hh as (k & p & Hk & Hc).
    rewrite conns_emit, conns_disconnectAI.
    change (conns (set_screenStream _ _))
      with (forEachPeer (λ peer _, onConnection close peer) (peers s) (conns s)).
    assert (forEachPeer (λ peer _, onConnection close peer) (peers s) (conns s) !! h
            = close <$> conns s !! h) as ->.
    { eapply (forEachPeer_touched close (λ _ p, connection p));
        [intros; by apply swap_touch|apply close_idem|done..]. }
    case_decide; [|done]. by destruct (conns s !! h).
  - by rewrite emit_localStream_frame, localStream_disconnectAI.
  - by rewrite emit_screenStream_frame, screenStream_disconnectAI.
  - intros m t Hm Ht.
    rewrite emit_stopped_frame, stoppedTracks_disconnectAI.
    unfold stopTracks. simpl.
    destruct Hm as [-> | ->]; simpl; set_solver.
  - by rewrite emit_sharing_frame, isScreenSharing_disconnectAI.
  - intros Hs. apply sent_emit_last. by apply socket_disconnectAI.
Qed.

Lemma disconnect_releases_witness :
  peers (disconnect Scenario.answeringA) = ∅ ∧
  (closed <$> conns (disconnect Scenario.answeringA) !! 0) = Some true ∧
  last (sent (disconnect Scenario.answeringA)) = Some (video_leave "room").
Proof.
  pose proof (disconnect_releases_everything Scenario.answeringA) as (Hp & Hc & _ & _ & _ & _ & Hl).
  split; [exact Hp|]. split.
  - rewrite (Hc 0); [reflexivity|].
    apply elem_of_connectedHandles. eexists "B", _. split; reflexivity.
  - apply Hl. vm_compute. eauto.
Defined.

(** *** Tearing down the AI participant *)

(** X2: [disconnectAI] acts only when the store itself dialled the agent
    ([aiConnection] set).  [setAIAudioStream] never sets it, so after a host
    registered the agent's audio that way, [disconnectAI] changes nothing:
    the agent's entry, the host flag and the audio stream stay, and nothing
    is emitted. *)
Theorem disconnectAI_needs_dialled_connection (m : MediaStream) (s : VideoStore) :
  aiConnection s = None →
  disconnectAI (setAIAudioStream m s) = setAIAudioStream m s ∧
  peers (disconnectAI (setAIAudioStream m s)) !! ai_facilitator = Some (aiPeer m) ∧
  isAIHost (disconnectAI (setAIAudioStream m s)) = true ∧
  aiAudioStream (disconnectAI (setAIAudioStream m s)) = Some m.
Proof.
  intros Hn.
  assert (Hai : aiConnection (setAIAudioStream m s) = None).
  { unfold setAIAudioStream. rewrite aiConnection_broadcastAIAudio.
    unfold emit. simpl. by destruct (socket s). }
  assert (Heq : disconnectAI (setAIAudioStream m s) = setAIAudioStream m s).
  { unfold disconnectAI. by rewrite Hai. }
  rewrite Heq. split; [done|]. unfold setAIAudioStream. split; [|split].
  - rewrite peers_broadcastAIAudio, peers_emit. simpl. by rewrite lookup_insert_eq.
  - unfold broadcastAIAudio, emit; simpl.
    destruct (socket s); simpl; by destruct (head (getAudioTracks m)).
  - unfold broadcastAIAudio, emit; simpl.
    destruct (socket s); simpl; by destruct (head (getAudioTracks m)).
Qed.

Lemma disconnectAI_needs_dialled_witness :
  disconnectAI (setAIAudioStream Scenario.agentVoice Scenario.answeringA)
  = setAIAudioStream Scenario.agentVoice Scenario.answeringA.
Proof.
  apply (proj1 (disconnectAI_needs_dialled_connection Scenario.agentVoice
                  Scenario.answeringA eq_refl)).
Defined.

(** X3: when the store holds a dialled agent connection, [disconnectAI]
    closes it, removes the agent's entry and no other, resets the AI flags
    and the audio stream, and announces [ai_disconnected]; afterwards the
    client accepts remote agent audio again. *)
Theorem disconnectAI_tears_down (s : VideoStore) (h : nat) :
  aiConnection s = Some h →
  let s' := disconnectAI s in
  aiConnection s' = None ∧ aiConnected s' = false ∧ isAIHost s' = false ∧
  aiAudioStream s' = None ∧
  peers s' = delete ai_facilitator (peers s) ∧
  conns s' !! h = close <$> conns s !! h ∧
  (∀ j, j ≠ h → conns s' !! j = conns s !! j) ∧
  (is_Some (socket s) → sent s' = sent s ++ [ai_disconnected (sessionId s)]) ∧
  (∀ m, peers (handleRemoteAIAudio m s') !! ai_facilitator = Some (aiPeer m)).
Proof.
  intros Hh s'.
  assert (Hs' : s' = emit (ai_disconnected (sessionId s))
            (set_peers (delete ai_facilitator (peers s))
               (set_aiAudioStream None
                  (set_isAIHost false
                     (set_aiConnected false
                        (set_aiConnection None
                           (set_conns (alter close h (conns s)) s))))))).
  { subst s'. unfold disconnectAI. by rewrite Hh. }
  assert (Hflags : aiConnection s' = None ∧ aiConnected s' = false ∧
                   isAIHost s' = false ∧ aiAudioStream s' = None).
  { rewrite Hs'. unfold emit. simpl. by destruct (socket s). }
  destruct Hflags as (H1 & H2 & H3 & H4).
  split; [done|]. split; [done|]. split; [done|]. split; [done|].
  split; [by rewrite Hs', peers_emit|]. split; [|split; [|split]].
  - rewrite Hs', conns_emit. simpl. apply list_lookup_alter_eq.
  - intros j Hj. rewrite Hs', conns_emit. simpl. by rewrite list_lookup_alter_ne.
  - intros Hsock. rewrite Hs'. by rewrite sent_emit.
  - intros m. unfold handleRemoteAIAudio. rewrite H3. simpl.
    by rewrite lookup_insert_eq.
Qed.

Lemma disconnectAI_tears_down_witness :
  peers (disconnectAI dialledHost) !! ai_facilitator = None ∧
  (closed <$> conns (disconnectAI dialledHost) !! 1) = Some true ∧
  isAIHost (disconnectAI dialledHost) = false.
Proof.
  pose proof (disconnectAI_tears_down dialledHost 1 eq_refl)
    as (_ & _ & Hhost & _ & Hp & Hc & _).
  split; [|split].
  - rewrite Hp. apply lookup_delete_eq.
  - rewrite Hc. reflexivity.
  - exact Hhost.
Defined.

(** *** Mute status of a remote peer *)

(** X4: a [video_mute_status] message sets the two mute flags of a
    registered peer and nothing else (its connection, stream and name stay,
    other entries and all connections are untouched); for an unknown peer the
    store is unchanged, no entry is created. *)
Theorem mute_status_only_sets_flags (s : VideoStore) (pid : string) (a v : bool) :
  let s' := on_video_mute_status pid a v s in
  (∀ p, peers s !! pid = Some p →
     ∃ p', peers s' !! pid = Some p' ∧
       peer_audioMuted p' = a ∧ peer_videoMuted p' = v ∧
       connection p' = connection p ∧ stream p' = stream p ∧
       peer_name p' = peer_name p ∧ peer_id p' = peer_id p) ∧
  (∀ k, k ≠ pid → peers s' !! k = peers s !! k) ∧
  (peers s !! pid = None → s' = s) ∧
  conns s' = conns s ∧ socket s' = socket s.
Proof.
  intros s'. subst s'. unfold on_video_mute_status. simpl.
  split; [|split; [|split]].
  - intros p Hp. rewrite lookup_alter_eq, Hp. simpl. eexists. split; [done|]. done.
  - intros k Hk. by rewrite lookup_alter_ne.
  - intros Hn.
    match goal with |- set_peers ?m s = s =>
      assert (m = peers s) as -> end.
    { apply map_eq. intros k. destruct (decide (pid = k)) as [<-|Hne].
      - by rewrite lookup_alter_eq, Hn.
      - by rewrite lookup_alter_ne. }
    apply set_peers_id.
  - done.
Qed.

Lemma mute_status_witness :
  (peer_audioMuted <$> peers (on_video_mute_status "B" true false Scenario.answeringA) !! "B")
    = Some true ∧
  on_video_mute_status "Z" true false Scenario.answeringA = Scenario.answeringA.
Proof.
  pose proof (mute_status_only_sets_flags Scenario.answeringA "B" true false)
    as (Hset & _).
  destruct (Hset _ eq_refl) as (p' & Hp' & Ha & _).
  split.
  - rewrite Hp'. simpl. by rewrite Ha.
  - apply (proj1 (proj2 (proj2 (mute_status_only_sets_flags
             Scenario.answeringA "Z" true false)))). reflexivity.
Defined.

(** *** Incoming tracks *)

Lemma pc_peer_addTracks (l : list MediaStreamTrack) (q : RTCPeerConnection) :
  pc_peer (foldl (λ pc t, default pc (addTrack t pc)) q l) = pc_peer q.
Proof.
  revert q. induction l as [|t l IH]; intros q; simpl; [done|].
  rewrite IH. unfold addTrack. by destruct (closed q).
Qed.

Lemma createPeerConnection_pc_peer peerId b s :
  pc_peer (createPeerConnection peerId b s).1.2 = peerId.
Proof.
  unfold createPeerConnection.
  destruct b; simpl; (destruct (localStream s); [by rewrite pc_peer_addTracks|done]).
Qed.

(** X5: the [ontrack] callback of a connection made for [pid] stores the
    incoming stream on [pid]'s entry and keeps that entry's connection; once
    [pid] has left, the callback changes nothing: a late track does not bring
    the entry back. *)
Theorem track_event_after_leave_is_ignored (s : VideoStore) (pid : string)
    (b : bool) (m : MediaStream) :
  let r := createPeerConnection pid b s in
  (∃ p, peers (on_track r.1.1 m r.2) !! pid = Some p ∧
        stream p = Some m ∧ connection p = Some r.1.1) ∧
  conns (on_track r.1.1 m r.2) = conns r.2 ∧
  on_track r.1.1 m (on_video_peer_left pid r.2) = on_video_peer_left pid r.2.
Proof.
  intros r.
  pose proof (createPeerConnection_handle pid b s) as Hh.
  pose proof (createPeerConnection_conns pid b s) as Hc.
  pose proof (createPeerConnection_pc_peer pid b s) as Hpeer.
  destruct (createPeerConnection_peers pid b s) as (e & He & Hec).
  fold r in Hh, Hc, Hpeer, He.
  assert (Hat : conns r.2 !! r.1.1 = Some r.1.2).
  { rewrite Hc, Hh. rewrite lookup_app_r, Nat.sub_diag by done. done. }
  assert (Hreg : peers r.2 !! pid = Some e) by (rewrite He; apply lookup_insert_eq).
  split; [|split].
  - unfold on_track. rewrite Hat. simpl. rewrite Hpeer, Hreg. simpl.
    rewrite lookup_insert_eq. eexists. split; [done|]. simpl. by rewrite Hec, Hh.
  - unfold on_track. rewrite Hat. simpl. by rewrite Hpeer, Hreg.
  - unfold on_track.
    assert (pc_peer <$> conns (on_video_peer_left pid r.2) !! r.1.1 = Some pid) as ->.
    { unfold on_video_peer_left. rewrite Hreg. simpl. rewrite Hec. simpl.
      rewrite <- Hh.
      rewrite list_lookup_alter_eq, Hat. simpl. by rewrite Hpeer. }
    assert (peers (on_video_peer_left pid r.2) !! pid = None) as ->; [|done].
    unfold on_video_peer_left. simpl. apply lookup_delete_eq.
Qed.

Lemma track_event_witness :
  let r := createPeerConnection "B" true Scenario.clientA in
  on_track r.1.1 Scenario.camera (on_video_peer_left "B" r.2)
  = on_video_peer_left "B" r.2.
Proof.
  apply (proj2 (proj2 (track_event_after_leave_is_ignored
                         Scenario.clientA "B" true Scenario.camera))).
Defined.

(** *** A complete offer/answer exchange *)

Lemma createPeerConnection_offer_sent peerId s :
  is_Some (socket s) →
  let r := createPeerConnection peerId true s in
  sent r.2 = sent s ++ [video_offer peerId (Some (createOffer r.1.2))] ∧
  localDescription r.1.2 = Some (createOffer r.1.2) ∧
  remoteDescription r.1.2 = None.
Proof.
  intros Hs r. subst r. unfold createPeerConnection. simpl.
  rewrite sent_emit by done. split; [done|].
  assert (∀ l q, remoteDescription q = None →
     remoteDescription (foldl (λ pc t, default pc (addTrack t pc)) q l) = None) as Hf.
  { intros l. induction l as [|t l IH]; intros q Hq; simpl; [done|].
    apply IH. unfold addTrack. by destruct (closed q). }
  split; [done|]. destruct (localStream s); [by apply Hf|done].
Qed.

(** X6: the handshake completes.  When a newcomer B processes the snapshot
    naming A, A processes the offer B emitted, and B processes the answer A
    emitted, both registries hold an open connection to the other side whose
    local and remote descriptions are that offer and that answer (B: local
    offer, remote answer; A: remote offer, local answer), and B emits nothing
    further. *)
Theorem offer_answer_handshake_completes (a b : VideoStore) (idA idB : string) :
  is_Some (socket a) → is_Some (socket b) →
  let b1 := receive (ev_video_peers [idA]) b in
  ∃ offer answer hA hB pcA pcB,
    last (sent b1) = Some (video_offer idA (Some offer)) ∧
    sdp_type offer = sdp_offer ∧
    let a1 := receive (ev_video_offer idB offer) a in
    last (sent a1) = Some (video_answer idB (Some answer)) ∧
    sdp_type answer = sdp_answer ∧
    let b2 := receive (ev_video_answer idA answer) b1 in
    (connection <$> peers a1 !! idB) = Some (Some hA) ∧
    conns a1 !! hA = Some pcA ∧
    closed pcA = false ∧
    remoteDescription pcA = Some offer ∧ localDescription pcA = Some answer ∧
    (connection <$> peers b2 !! idA) = Some (Some hB) ∧
    conns b2 !! hB = Some pcB ∧
    closed pcB = false ∧
    localDescription pcB = Some offer ∧ remoteDescription pcB = Some answer ∧
    sent b2 = sent b1.
Proof.
  intros Ha Hb b1.
  set (r := createPeerConnection idA true b).
  assert (Hb1 : b1 = r.2) by done.
  destruct (createPeerConnection_offer_sent idA b Hb) as (Hsent & Hlocal & Hremote).
  fold r in Hsent, Hlocal, Hremote.
  pose proof (createPeerConnection_handle idA true b) as Hh.
  pose proof (createPeerConnection_conns idA true b) as Hc.
  destruct (createPeerConnection_peers idA true b) as (e & He & Hec).
  fold r in Hh, Hc, He.
  set (offer := createOffer r.1.2).
  set (ra := createPeerConnection idB false a).
  set (pc1 := setRemoteDescription offer ra.1.2).
  set (answer := createAnswer pc1).
  set (pcA := setLocalDescription answer pc1).
  exists offer, answer, (length (conns a)), (length (conns b)), pcA,
    (setRemoteDescription answer r.1.2).
  split; [by rewrite Hb1, Hsent, last_snoc|]. split; [done|]. cbv zeta.
  assert (Ha1 : receive (ev_video_offer idB offer) a
            = emit (video_answer idB (localDescription pcA))
                (set_conns (<[ra.1.1 := pcA]> (conns ra.2)) ra.2)).
  { simpl. by rewrite handleOffer_unfold. }
  pose proof (createPeerConnection_handle idB false a) as Hha.
  pose proof (createPeerConnection_conns idB false a) as Hca.
  destruct (createPeerConnection_peers idB false a) as (ea & Hea & Heac).
  fold ra in Hha, Hca, Hea.
  split.
  { rewrite Ha1. apply sent_emit_last.
    change (is_Some (socket ra.2)). by apply createPeerConnection_socket. }
  split; [done|].
  split.
  { rewrite Ha1, peers_emit.
    change (peers (set_conns _ ra.2)) with (peers ra.2).
    rewrite Hea, lookup_insert_eq. simpl. by rewrite Heac. }
  split.
  { rewrite Ha1, conns_emit.
    change (conns (set_conns (<[ra.1.1 := pcA]> (conns ra.2)) ra.2))
      with (<[ra.1.1 := pcA]> (conns ra.2)).
    rewrite Hca, Hha, insert_at_length.
    by rewrite lookup_app_r, Nat.sub_diag. }
  split; [exact (createPeerConnection_open idB false a)|].
  split; [done|]. split; [done|].
  assert (Hreg : peers b1 !! idA ≫= connection = Some (length (conns b))).
  { rewrite Hb1, He, lookup_insert_eq. simpl. done. }
  assert (Hb2 : receive (ev_video_answer idA answer) b1
            = set_conns (alter (setRemoteDescription answer) (length (conns b))
                           (conns b1)) b1).
  { simpl. unfold handleAnswer. by rewrite Hreg. }
  rewrite Hb2.
  change (peers (set_conns _ b1)) with (peers b1).
  change (sent (set_conns _ b1)) with (sent b1).
  change (conns (set_conns ?x b1)) with x.
  split.
  { rewrite Hb1, He, lookup_insert_eq. simpl. by rewrite Hec. }
  split.
  { rewrite list_lookup_alter_eq, Hb1, Hc.
    by rewrite lookup_app_r, Nat.sub_diag. }
  split; [exact (createPeerConnection_open idA true b)|].
  split; [done|]. split; done.
Qed.

Lemma offer_answer_handshake_witness :
  ∃ offer answer, 
    last (sent (receive (ev_video_peers ["A"]) Scenario.clientB))
      = Some (video_offer "A" (Some offer)) ∧
    last (sent (receive (ev_video_offer "B" offer) Scenario.clientA))
      = Some (video_answer "B" (Some answer)).
Proof.
  destruct (offer_answer_handshake_completes Scenario.clientA Scenario.clientB "A" "B"
              ltac:(vm_compute; eauto) ltac:(vm_compute; eauto))
    as (offer & answer & hA & hB & pcA & pcB & H1 & _ & H2 & _).
  exists offer, answer. by split.
Defined.

(** *** Muting the local tracks *)

Lemma enabled_setEnabled t b l :
  bool_decide (t ∉ setEnabled t b l) = b.
Proof.
  unfold setEnabled. destruct b.
  - apply bool_decide_eq_true. intros Hin. apply list_elem_of_filter in Hin as [Hne _].
    done.
  - apply bool_decide_eq_false. intros Hn. apply Hn. left.
Qed.

Lemma enabled_setEnabled_other t u b l :
  u ≠ t → bool_decide (u ∉ setEnabled t b l) = bool_decide (u ∉ l).
Proof.
  intros Hne. apply bool_decide_ext. unfold setEnabled. destruct b.
  - rewrite list_elem_of_filter. split.
    + intros H Hin. by apply H.
    + intros H [_ Hin]. done.
  - rewrite not_elem_of_cons, list_elem_of_filter. split.
    + intros [_ H] Hin. by apply H.
    + intros H. split; [done|]. intros [_ Hin]. done.
Qed.

(** X7: [toggleAudio] flips the enabled flag of the first audio track of the
    local stream and of no other track, sets [audioMuted] to the opposite of
    that flag, leaves [videoMuted] alone and (with a socket) announces both
    flags; toggling twice gives the track its flag back.  Without a local
    stream, or without an audio track in it, nothing happens. *)
Theorem toggleAudio_mirrors_track (m : Muting) :
  (∀ ls t, localStream (mstore m) = Some ls → head (getAudioTracks ls) = Some t →
     let m' := toggleAudio m in
     enabled m' t = negb (enabled m t) ∧
     audioMuted (mstore m') = negb (enabled m' t) ∧
     videoMuted (mstore m') = videoMuted (mstore m) ∧
     (∀ u, u ≠ t → enabled m' u = enabled m u) ∧
     (is_Some (socket (mstore m)) →
        muteSent m' = muteSent m ++
          [(sessionId (mstore m), enabled m t, videoMuted (mstore m))]) ∧
     enabled (toggleAudio m') t = enabled m t ∧
     audioMuted (mstore (toggleAudio m')) = negb (enabled m t)) ∧
  (localStream (mstore m) = None ∨
   (∃ ls, localStream (mstore m) = Some ls ∧ getAudioTracks ls = []) →
   toggleAudio m = m).
Proof.
  split.
  - intros ls t Hls Ht m'.
    assert (Hm' : m' = emitMute
              {| mstore := set_audioMuted (negb (negb (enabled m t))) (mstore m);
                 disabledTracks := setEnabled t (negb (enabled m t)) (disabledTracks m);
                 muteSent := muteSent m |}).
    { subst m'. unfold toggleAudio. by rewrite Hls, Ht. }
    assert (Hen : ∀ x, enabled (emitMute x) = enabled x).
    { intros x. unfold emitMute, enabled. by destruct (socket (mstore x)). }
    assert (Hst : ∀ x, mstore (emitMute x) = mstore x).
    { intros x. unfold emitMute. by destruct (socket (mstore x)). }
    assert (H1 : enabled m' t = negb (enabled m t)).
    { rewrite Hm', Hen. unfold enabled at 1. simpl. apply enabled_setEnabled. }
    split; [done|]. split.
    { rewrite H1, Hm', Hst. simpl. done. }
    split; [by rewrite Hm', Hst|]. split.
    { intros u Hu. rewrite Hm', Hen. unfold enabled. simpl.
      by apply enabled_setEnabled_other. }
    split.
    { intros Hs. rewrite Hm'. unfold emitMute. simpl.
      destruct (socket (mstore m)) as [k|] eqn:Hk; [|by destruct Hs]. simpl.
      by rewrite negb_involutive. }
    assert (Hls' : localStream (mstore m') = Some ls) by by rewrite Hm', Hst.
    unfold toggleAudio. rewrite Hls', Ht. rewrite Hen, Hst. unfold enabled at 1.
    simpl. rewrite enabled_setEnabled. fold (enabled m' t). rewrite H1.
    by rewrite !negb_involutive.
  - intros [Hn|(ls & Hls & Hno)]; unfold toggleAudio.
    + by rewrite Hn.
    + by rewrite Hls, Hno.
Qed.

Lemma toggleAudio_mirrors_witness :
  audioMuted (mstore (toggleAudio unmutedA)) = true ∧
  enabled (toggleAudio (toggleAudio unmutedA)) Scenario.micTrack = true ∧
  toggleAudio {| mstore := Scenario.noMediaClient; disabledTracks := [];
                 muteSent := [] |}
  = {| mstore := Scenario.noMediaClient; disabledTracks := []; muteSent := [] |}.
Proof.
  destruct (proj1 (toggleAudio_mirrors_track unmutedA) Scenario.camera
              Scenario.micTrack eq_refl eq_refl)
    as (H1 & H2 & _ & _ & _ & H3 & _).
  split; [|split].
  - rewrite H2, H1. reflexivity.
  - rewrite H3. reflexivity.
  - apply (proj2 (toggleAudio_mirrors_track _)). left. reflexivity.
Defined.

(** X8: [toggleVideo] does the same on the first video track of the local
    stream (the camera), with [videoMuted]; it never touches the senders of
    any connection, so a screen track that is being shared keeps flowing. *)
Theorem toggleVideo_mirrors_track (m : Muting) :
  (∀ ls t, localStream (mstore m) = Some ls → head (getVideoTracks ls) = Some t →
     let m' := toggleVideo m in
     enabled m' t = negb (enabled m t) ∧
     videoMuted (mstore m') = negb (enabled m' t) ∧
     audioMuted (mstore m') = audioMuted (mstore m) ∧
     (∀ u, u ≠ t → enabled m' u = enabled m u) ∧
     conns (mstore m') = conns (mstore m) ∧
     (is_Some (socket (mstore m)) →
        muteSent m' = muteSent m ++
          [(sessionId (mstore m), audioMuted (mstore m), enabled m t)])) ∧
  (localStream (mstore m) = None ∨
   (∃ ls, localStream (mstore m) = Some ls ∧ getVideoTracks ls = []) →
   toggleVideo m = m).
Proof.
  split.
  - intros ls t Hls Ht m'.
    assert (Hm' : m' = emitMute
              {| mstore := set_videoMuted (negb (negb (enabled m t))) (mstore m);
                 disabledTracks := setEnabled t (negb (enabled m t)) (disabledTracks m);
                 muteSent := muteSent m |}).
    { subst m'. unfold toggleVideo. by rewrite Hls, Ht. }
    assert (Hen : ∀ x, enabled (emitMute x) = enabled x).
    { intros x. unfold emitMute, enabled. by destruct (socket (mstore x)). }
    assert (Hst : ∀ x, mstore (emitMute x) = mstore x).
    { intros x. unfold emitMute. by destruct (socket (mstore x)). }
    assert (H1 : enabled m' t = negb (enabled m t)).
    { rewrite Hm', Hen. unfold enabled at 1. simpl. apply enabled_setEnabled. }
    split; [done|]. split.
    { rewrite H1, Hm', Hst. simpl. done. }
    split; [by rewrite Hm', Hst|]. split.
    { intros u Hu. rewrite Hm', Hen. unfold enabled. simpl.
      by apply enabled_setEnabled_other. }
    split; [by rewrite Hm', Hst|].
    intros Hs. rewrite Hm'. unfold emitMute. simpl.
    destruct (socket (mstore m)) as [k|] eqn:Hk; [|by destruct Hs]. simpl.
    by rewrite negb_involutive.
  - intros [Hn|(ls & Hls & Hno)]; unfold toggleVideo.
    + by rewrite Hn.
    + by rewrite Hls, Hno.
Qed.

Lemma toggleVideo_mirrors_witness :
  videoMuted (mstore (toggleVideo unmutedA)) = true ∧
  muteSent (toggleVideo unmutedA) = [("room", false, true)].
Proof.
  destruct (proj1 (toggleVideo_mirrors_track unmutedA) Scenario.camera
              Scenario.camTrack eq_refl eq_refl)
    as (H1 & H2 & _ & _ & _ & H3).
  split.
  - rewrite H2, H1. reflexivity.
  - rewrite H3; [reflexivity|]. vm_compute. eauto.
Defined.

(** *** The store invariant along every run *)

Lemma aiConnection_emit e s : aiConnection (emit e s) = aiConnection s.
Proof. unfold emit. by destruct (socket s). Qed.

Lemma grows_refl s : grows s s.
Proof. split; [by left|]. split; [done|]. intros k p h Hk Hh. left. eauto. Qed.

Lemma grows_trans s1 s2 s3 : grows s1 s2 → grows s2 s3 → grows s1 s3.
Proof.
  intros (A1 & B1 & C1) (A2 & B2 & C2). split; [|split; [lia|]].
  - destruct A2 as [-> | ->]; [done|by right].
  - intros k p h Hk Hh. destruct (C2 k p h Hk Hh) as [(k0 & p0 & Hk0 & Hh0)|Hge].
    + apply (C1 k0 p0 h Hk0 Hh0).
    + right. lia.
Qed.

Lemma grows_frame s s' :
  peers s' = peers s → aiConnection s' = aiConnection s →
  length (conns s') = length (conns s) → grows s s'.
Proof.
  intros Hp Ha Hl. split; [by left|]. split; [lia|].
  intros k p h Hk Hh. left. rewrite Hp in Hk. eauto.
Qed.

Lemma grows_insert_unconnected k p s :
  connection p = None → grows s (set_peers (<[k := p]> (peers s)) s).
Proof.
  intros Hc. split; [by left|]. split; [done|].
  intros k1 p1 h Hk1 Hh. simpl in Hk1. left.
  destruct (decide (k = k1)) as [->|Hne].
  - rewrite lookup_insert_eq in Hk1. congruence.
  - rewrite lookup_insert_ne in Hk1 by done. eauto.
Qed.

Lemma aiDetached_grows s s' : grows s s' → aiDetached s → aiDetached s'.
Proof.
  intros (A & B & C) Hd h Hh.
  assert (aiConnection s = Some h) as Hh0 by (destruct A as [A|A]; congruence).
  destruct (Hd h Hh0) as [Hlt Hnot]. split; [lia|].
  intros k p Hk Hc. destruct (C k p h Hk Hc) as [(k0 & p0 & Hk0 & Hc0)|Hge].
  - by apply (Hnot k0 p0).
  - lia.
Qed.

Lemma aiConnection_createPeerConnection peerId b s :
  aiConnection (createPeerConnection peerId b s).2 = aiConnection s.
Proof.
  unfold createPeerConnection. destruct b; simpl; [|done]. by rewrite aiConnection_emit.
Qed.

Lemma grows_createPeerConnection peerId b s :
  grows s (createPeerConnection peerId b s).2.
Proof.
  destruct (createPeerConnection_peers peerId b s) as (e & He & Hec).
  split; [left; apply aiConnection_createPeerConnection|]. split.
  - rewrite createPeerConnection_conns, length_app. lia.
  - intros k p h Hk Hh. rewrite He in Hk.
    destruct (decide (peerId = k)) as [->|Hne].
    + rewrite lookup_insert_eq in Hk. injection Hk as <-. right.
      rewrite Hec in Hh. injection Hh as <-. done.
    + rewrite lookup_insert_ne in Hk by done. left. eauto.
Qed.

Lemma grows_receive ev s : grows s (receive ev s).
Proof.
  destruct ev as [ids|pid name|pid|from_id sdp|from_id sdp|from_id c|pid a v];
    cbv [receive].
  - unfold on_video_peers. revert s.
    induction ids as [|x ids IH]; intros s; cbn [foldl]; [apply grows_refl|].
    eapply grows_trans; [apply grows_createPeerConnection|apply IH].
  - by apply grows_insert_unconnected.
  - unfold on_video_peer_left. split; [|split].
    + left. by destruct (peers s !! pid ≫= connection).
    + simpl. destruct (peers s !! pid ≫= connection); simpl; [|done].
      by rewrite length_alter.
    + intros k p h Hk Hh. left. simpl in Hk.
      destruct (decide (pid = k)) as [->|Hne].
      { by rewrite lookup_delete_eq in Hk. }
      rewrite lookup_delete_ne in Hk by done. exists k, p. split; [|done].
      by destruct (peers s !! pid ≫= connection).
  - rewrite handleOffer_unfold. cbv zeta.
    eapply grows_trans; [apply (grows_createPeerConnection from_id false)|].
    apply grows_frame.
    + by rewrite peers_emit.
    + by rewrite aiConnection_emit.
    + rewrite conns_emit. apply length_insert.
  - unfold handleAnswer. destruct (peers s !! from_id ≫= connection);
      [|apply grows_refl].
    apply grows_frame; [done..|]. apply length_alter.
  - destruct (handleIceCandidate_frame from_id c s) as (Hp & _ & Hlen & Hai & _).
    by apply grows_frame.
  - unfold on_video_mute_status. split; [by left|]. split; [done|].
    intros k p h Hk Hh. left. simpl in Hk.
    destruct (decide (pid = k)) as [->|Hne].
    + rewrite lookup_alter_eq in Hk. destruct (peers s !! k) as [p0|] eqn:Hp0; [|done].
      injection Hk as <-. exists k, p0. done.
    + rewrite lookup_alter_ne in Hk by done. eauto.
Qed.

Lemma grows_stopScreenShare s : grows s (stopScreenShare s).
Proof.
  unfold stopScreenShare. destruct (screenStream s) as [scr|]; [|apply grows_refl].
  apply grows_frame.
  - rewrite peers_emit. simpl. by destruct (localStream s).
  - rewrite aiConnection_emit. simpl. by destruct (localStream s).
  - rewrite conns_emit. simpl. destruct (localStream s) as [cam|]; [|done]. simpl.
    apply (forEachPeer_length
             (restoreVideoSender (head (getVideoTracks cam))) (λ _ p, connection p)).
    done.
Qed.

Lemma grows_broadcastAIAudio s : grows s (broadcastAIAudio s).
Proof.
  apply grows_frame.
  - apply peers_broadcastAIAudio.
  - apply aiConnection_broadcastAIAudio.
  - apply length_conns_broadcastAIAudio.
Qed.

Lemma grows_disconnectAI s : grows s (disconnectAI s).
Proof.
  unfold disconnectAI. destruct (aiConnection s) as [h|] eqn:Hh; [|apply grows_refl].
  split; [right; by rewrite aiConnection_emit|]. split.
  - rewrite conns_emit. simpl. by rewrite length_alter.
  - intros k p i Hk Hi. rewrite peers_emit in Hk. simpl in Hk. left.
    destruct (decide (ai_facilitator = k)) as [<-|Hne].
    + by rewrite lookup_delete_eq in Hk.
    + rewrite lookup_delete_ne in Hk by done. eauto.
Qed.

Lemma grows_disconnect s : grows s (disconnect s).
Proof.
  split; [|split].
  - unfold disconnect. cbv zeta. rewrite aiConnection_emit. unfold disconnectAI.
    match goal with |- context [match aiConnection ?x with _ => _ end] =>
      destruct (aiConnection x) eqn:Hx end.
    + right. by rewrite aiConnection_emit.
    + left. done.
  - unfold disconnect. cbv zeta. rewrite conns_emit.
    match goal with |- _ ≤ length (conns (disconnectAI ?x)) =>
      destruct (grows_disconnectAI x) as (_ & Hl & _); etrans; [|exact Hl] end.
    simpl.
    rewrite (forEachPeer_length close (λ _ p, connection p)); done.
  - intros k p h Hk. by rewrite peers_disconnect, lookup_empty in Hk.
Qed.

(** Every operation only makes the store grow. *)
Lemma grows_perform o s : grows s (perform o s).
Proof.
  destruct o; cbv [perform].
  - unfold connectVideo. apply grows_frame;
      [by rewrite peers_emit|by rewrite aiConnection_emit|by rewrite conns_emit].
  - apply grows_receive.
  - unfold initLocalMedia. destruct (getUserMedia _ _ _); [|apply grows_refl].
    by apply grows_frame.
  - unfold startScreenShare. destruct (getDisplayMedia dev) as [scr|]; [|apply grows_refl].
    assert (∀ t, length (forEachPeer
               (λ peer _, onConnection (replaceVideoSender t) peer) (peers s) (conns s))
             = length (conns s)) as Hlen.
    { intros t0. by apply (forEachPeer_length (replaceVideoSender t0)
                            (λ _ p, connection p)). }
    destruct (head (getVideoTracks scr)); simpl.
    + apply grows_frame;
        [by rewrite peers_emit|by rewrite aiConnection_emit|].
      rewrite conns_emit. apply Hlen.
    + apply grows_frame; [done..|]. apply Hlen.
  - apply grows_stopScreenShare.
  - unfold on_track_ended. case_decide; [apply grows_stopScreenShare|apply grows_refl].
  - unfold on_track. destruct (pc_peer <$> conns s !! h) as [peerId|];
      [|apply grows_refl].
    destruct (peers s !! peerId) as [peer|] eqn:Hpeer; [|apply grows_refl].
    split; [by left|]. split; [done|]. intros k p i Hk Hi. left. simpl in Hk.
    destruct (decide (peerId = k)) as [->|Hne].
    + rewrite lookup_insert_eq in Hk. injection Hk as <-. simpl in Hi. eauto.
    + rewrite lookup_insert_ne in Hk by done. eauto.
  - unfold on_icecandidate.
    destruct (pc_peer <$> conns s !! h) as [peerId|]; [|apply grows_refl].
    destruct candidate; [|apply grows_refl].
    apply grows_frame;
      [by rewrite peers_emit|by rewrite aiConnection_emit|by rewrite conns_emit].
  - unfold setAIAudioStream.
    eapply grows_trans; [|apply grows_broadcastAIAudio].
    eapply grows_trans;
      [|apply grows_frame;
          [apply peers_emit|apply aiConnection_emit|by rewrite conns_emit]].
    eapply grows_trans;
      [|apply (grows_insert_unconnected ai_facilitator (aiPeer m)); done].
    by apply grows_frame.
  - apply grows_broadcastAIAudio.
  - unfold handleRemoteAIAudio. destruct (isAIHost s); [apply grows_refl|].
    eapply grows_trans;
      [|apply (grows_insert_unconnected ai_facilitator (aiPeer m)); done].
    by apply grows_frame.
  - apply grows_disconnectAI.
  - apply grows_disconnect.
Qed.

Lemma registryLive_on_track h m s : registryLive s → registryLive (on_track h m s).
Proof.
  intros Hl. unfold on_track.
  destruct (pc_peer <$> conns s !! h) as [peerId|]; [|done].
  destruct (peers s !! peerId) as [peer|] eqn:Hpeer; [|done].
  assert (Hconn : ∀ k p, 
            <[peerId := {| peer_id := peer_id peer; peer_name := peer_name peer;
                           connection := connection peer; stream := Some m;
                           peer_audioMuted := peer_audioMuted peer;
                           peer_videoMuted := peer_videoMuted peer |}]> (peers s)
              !! k = Some p →
            ∃ p0, peers s !! k = Some p0 ∧ connection p0 = connection p).
  { intros k p Hk. destruct (decide (peerId = k)) as [->|Hne].
    - rewrite lookup_insert_eq in Hk. injection Hk as <-. eauto.
    - rewrite lookup_insert_ne in Hk by done. eauto. }
  intros k p i Hk Hi. simpl in Hk.
  destruct (Hconn k p Hk) as (p0 & Hk0 & Hc0).
  destruct (Hl k p0 i Hk0) as [Hopen Huniq]; [congruence|]. split; [done|].
  intros k' p' Hk' Hi'. simpl in Hk'.
  destruct (Hconn k' p' Hk') as (p1 & Hk1 & Hc1).
  apply (Huniq k' p1); congruence.
Qed.

Lemma registryLive_disconnectAI s :
  storeInvariant s → registryLive (disconnectAI s).
Proof.
  intros [Hl Hd]. unfold disconnectAI.
  destruct (aiConnection s) as [h|] eqn:Hh; [|done].
  destruct (Hd h Hh) as [_ Hnot].
  intros k p i Hk Hi. rewrite peers_emit in Hk. simpl in Hk.
  destruct (decide (ai_facilitator = k)) as [<-|Hne].
  { by rewrite lookup_delete_eq in Hk. }
  rewrite lookup_delete_ne in Hk by done.
  destruct (Hl k p i Hk Hi) as [Hopen Huniq]. split.
  - rewrite conns_emit. simpl.
    rewrite list_lookup_fmap, list_lookup_alter_ne, <- list_lookup_fmap; [done|].
    intros ->. by apply (Hnot k p).
  - intros k' p' Hk' Hi'. rewrite peers_emit in Hk'. simpl in Hk'.
    destruct (decide (ai_facilitator = k')) as [<-|Hne'].
    { by rewrite lookup_delete_eq in Hk'. }
    rewrite lookup_delete_ne in Hk' by done. eauto.
Qed.

Lemma registryLive_perform o s : storeInvariant s → registryLive (perform o s).
Proof.
  intros [Hl Hd]. destruct o; cbv [perform].
  - by apply registryLive_connectVideo.
  - by apply registryLive_receive.
  - unfold initLocalMedia. destruct (getUserMedia _ _ _); [|done].
    by apply (registryLive_frame s).
  - by apply registryLive_startScreenShare.
  - by apply registryLive_stopScreenShare.
  - unfold on_track_ended. case_decide; [by apply registryLive_stopScreenShare|done].
  - by apply registryLive_on_track.
  - unfold on_icecandidate.
    destruct (pc_peer <$> conns s !! h) as [peerId|]; [|done].
    destruct candidate; [|done].
    apply (registryLive_frame s); [apply peers_emit|by rewrite conns_emit|done].
  - by apply registryLive_setAIAudioStream.
  - by apply registryLive_broadcastAIAudio.
  - by apply registryLive_handleRemoteAIAudio.
  - by apply registryLive_disconnectAI.
  - apply registryLive_empty, peers_disconnect.
Qed.

(** X9: the store invariant holds along every run.  Whatever sequence of
    actions, socket messages and connection or track callbacks the store goes
    through, every handle held by a registry entry names a connection that
    exists and has not been closed, no two entries hold the same connection,
    and a connection dialled for the agent is never held by an entry. *)
Theorem store_invariant_along_every_run (l : list Op) (s : VideoStore) :
  storeInvariant s → storeInvariant (performAll l s).
Proof.
  revert s. induction l as [|o l IH]; intros s Hs; [done|].
  apply IH. split.
  - by apply registryLive_perform.
  - destruct Hs as [_ Hd]. eapply aiDetached_grows; [apply grows_perform|done].
Qed.

Lemma store_invariant_witness :
  storeInvariant
    (performAll
       [op_initLocalMedia Scenario.grantedDevices true true;
        op_connectVideo "room" "Alice" None {| socket_id := "A"; outbox := [] |};
        op_receive (ev_video_peer_joined "B" "Bob");
        op_receive (ev_video_offer "B" Scenario.offerOfB);
        op_setAIAudioStream Scenario.agentVoice;
        op_receive (ev_video_peer_left "B");
        op_disconnect]
       initialStore).
Proof.
  apply store_invariant_along_every_run. split.
  - by apply registryLive_empty.
  - intros h Hh. discriminate Hh.
Defined.
End VideoExtra.

(** * Properties of the canvas store *)
Module BoardProps.
Import Board.

Open Scope Z_scope.

Lemma set_stickers_id s : set_stickers (stickers s) s = s.
Proof. by destruct s. Qed.

Lemma names_reconnected sid name s :
  participant_name <$> participants (on_participant_reconnected sid name s)
  = participant_name <$> participants s.
Proof.
  unfold on_participant_reconnected.
  destruct (list_find _ (participants s)) as [[idx p]|] eqn:Hf; [|done]. simpl.
  apply list_find_Some in Hf as (Hidx & _).
  rewrite list_fmap_insert. simpl. apply list_insert_id.
  by rewrite list_lookup_fmap, Hidx.
Qed.

(** X10: participant names stay distinct.  If no two participants share a
    name, that is still so after any participant message; in particular a
    [participant_joined] for a name already listed changes nothing, whatever
    socket id it carries. *)
Theorem participant_names_stay_distinct (ev : ParticipantEvent) (s : BoardStore) :
  NoDup (participant_name <$> participants s) →
  NoDup (participant_name <$> participants (on_participant ev s)) ∧
  (∀ sid name, ev = participant_joined sid name →
     name ∈ participant_name <$> participants s → on_participant ev s = s) ∧
  (∀ sid name, ev = participant_joined sid name →
     name ∉ participant_name <$> participants s →
     participants (on_participant ev s)
     = participants s ++ [{| participant_id := sid; participant_name := name |}]).
Proof.
  intros Hnd. split; [|split].
  - destruct ev as [sid name|sid name|sid|sid]; simpl.
    + unfold on_participant_joined. case_decide as He; [done|]. simpl.
      rewrite fmap_app. apply NoDup_app. split; [done|]. split.
      * intros x Hx Hin. apply list_elem_of_singleton in Hin as ->.
        apply He. apply list_elem_of_fmap in Hx as (p & Hp & Hin).
        apply Exists_exists. eauto.
      * apply NoDup_singleton.
    + by rewrite names_reconnected.
    + done.
    + unfold on_participant_left. simpl.
      eapply sublist_NoDup; [exact Hnd|]. apply fmap_sublist, sublist_filter.
  - intros sid name -> Hin. simpl. unfold on_participant_joined.
    rewrite decide_True; [done|].
    apply list_elem_of_fmap in Hin as (p & Hp & Hin). apply Exists_exists. eauto.
  - intros sid name -> Hin. simpl. unfold on_participant_joined.
    rewrite decide_False; [done|]. intros He. apply Hin.
    apply Exists_exists in He as (p & Hp & Hname). apply list_elem_of_fmap. eauto.
Qed.

Lemma participant_names_witness :
  NoDup (participant_name <$>
           participants (on_participant (participant_joined "sidC" "Carol") sampleBoard)) ∧
  on_participant (participant_joined "sidX" "Bob") sampleBoard = sampleBoard.
Proof.
  assert (NoDup (participant_name <$> participants sampleBoard)) as Hnd.
  { simpl. apply NoDup_cons. split; [|apply NoDup_singleton].
    intros H. apply list_elem_of_singleton in H. discriminate H. }
  split.
  - apply (proj1 (participant_names_stay_distinct _ sampleBoard Hnd)).
  - apply (proj1 (proj2 (participant_names_stay_distinct
                            (participant_joined "sidX" "Bob") sampleBoard Hnd))
             "sidX" "Bob" eq_refl).
    simpl. right. left.
Defined.

(** X11: reconnection rebinds the socket id.  Going offline does not remove
    a participant; [participant_reconnected] gives the participant of that
    name the new socket id; a [participant_left] for the old socket id then
    leaves that participant in the list, and one for the new id removes
    it. *)
Theorem reconnect_rebinds_socket_id (s : BoardStore) (old new name : string) :
  name ∈ participant_name <$> participants s → new ≠ old →
  let s1 := on_participant_reconnected new name (on_participant_offline old s) in
  participants (on_participant_offline old s) = participants s ∧
  (∃ p, p ∈ participants s1 ∧ participant_name p = name ∧ participant_id p = new) ∧
  (∃ p, p ∈ participants (on_participant_left old s1) ∧
        participant_name p = name ∧ participant_id p = new) ∧
  (∀ p, p ∈ participants (on_participant_left new s1) → participant_id p ≠ new).
Proof.
  intros Hin Hne s1. split; [done|].
  assert (H1 : ∃ p, p ∈ participants s1 ∧ participant_name p = name ∧
                    participant_id p = new).
  { subst s1. unfold on_participant_reconnected. simpl.
    destruct (list_find (λ p, participant_name p = name) (participants s))
      as [[idx p]|] eqn:Hf.
    - apply list_find_Some in Hf as (Hidx & Hname & _). simpl.
      exists (set_participant_id new p). split; [|done].
      apply list_elem_of_lookup. exists idx.
      apply list_lookup_insert_eq. by eapply lookup_lt_Some.
    - apply list_find_None in Hf. rewrite Forall_forall in Hf.
      apply list_elem_of_fmap in Hin as (p & Hp & Hpin). by destruct (Hf p Hpin). }
  split; [done|]. split.
  - destruct H1 as (p & Hp & Hn & Hi). exists p. split; [|done].
    unfold on_participant_left. simpl. apply list_elem_of_filter. split; [|done].
    congruence.
  - intros p Hp. unfold on_participant_left in Hp. simpl in Hp.
    by apply list_elem_of_filter in Hp as [? _].
Qed.

Lemma reconnect_rebinds_witness :
  ∃ p, p ∈ participants
             (on_participant_left "sidB"
                (on_participant_reconnected "sidB2" "Bob"
                   (on_participant_offline "sidB" sampleBoard))) ∧
       participant_name p = "Bob" ∧ participant_id p = "sidB2".
Proof.
  apply (proj1 (proj2 (proj2 (reconnect_rebinds_socket_id sampleBoard
                                "sidB" "sidB2" "Bob"
                                ltac:(simpl; right; left) ltac:(discriminate))))).
Defined.

(** *** Stickers *)

Lemma ids_insert_same (l : list Sticker) idx x y :
  l !! idx = Some x → sticker_id y = sticker_id x →
  sticker_id <$> <[idx := y]> l = sticker_id <$> l.
Proof.
  intros Hidx Hid. rewrite list_fmap_insert. apply list_insert_id.
  by rewrite list_lookup_fmap, Hidx, Hid.
Qed.

Lemma findSticker_insert (l : list Sticker) id idx x y :
  findSticker id l = Some (idx, x) → sticker_id y = id →
  findSticker id (<[idx := y]> l) = Some (idx, y).
Proof.
  unfold findSticker. intros Hf Hy.
  apply list_find_Some in Hf as (Hidx & Hx & Hlt).
  apply list_find_Some. split; [|split; [done|]].
  - apply list_lookup_insert_eq. by eapply lookup_lt_Some.
  - intros j z Hj Hji. rewrite list_lookup_insert_ne in Hj by lia. eauto.
Qed.

(** X12: [sticker_updated] and [sticker_moved] act on the first sticker with
    the given id and keep the board's shape: the sequence of sticker ids is
    unchanged, after an update that sticker is the one received, after a move
    it has the new position and is otherwise as before; for an id that is not
    on the board both leave the store unchanged. *)
Theorem sticker_update_and_move_keep_ids (s : BoardStore) :
  (∀ x, sticker_id <$> stickers (on_sticker_updated x s) = sticker_id <$> stickers s) ∧
  (∀ id p, sticker_id <$> stickers (on_sticker_moved id p s) = sticker_id <$> stickers s) ∧
  (∀ x idx y, findSticker (sticker_id x) (stickers s) = Some (idx, y) →
     findSticker (sticker_id x) (stickers (on_sticker_updated x s)) = Some (idx, x)) ∧
  (∀ id p idx y, findSticker id (stickers s) = Some (idx, y) →
     findSticker id (stickers (on_sticker_moved id p s))
     = Some (idx, set_position p y)) ∧
  (∀ x, findSticker (sticker_id x) (stickers s) = None → on_sticker_updated x s = s) ∧
  (∀ id p, findSticker id (stickers s) = None → on_sticker_moved id p s = s).
Proof.
  split; [|split; [|split; [|split; [|split]]]].
  - intros x. unfold on_sticker_updated.
    destruct (findSticker (sticker_id x) (stickers s)) as [[idx y]|] eqn:Hf; [|done].
    simpl. apply list_find_Some in Hf as (Hidx & Hy & _).
    by apply (ids_insert_same _ _ y).
  - intros id p. unfold on_sticker_moved.
    destruct (findSticker id (stickers s)) as [[idx y]|] eqn:Hf; [|done].
    simpl. apply list_find_Some in Hf as (Hidx & Hy & _).
    by apply (ids_insert_same _ _ y).
  - intros x idx y Hf. unfold on_sticker_updated. rewrite Hf. simpl.
    by apply (findSticker_insert _ _ _ y).
  - intros id p idx y Hf. unfold on_sticker_moved. rewrite Hf. simpl.
    apply (findSticker_insert _ _ _ y); [done|].
    unfold findSticker in Hf. by apply list_find_Some in Hf as (_ & Hy & _).
  - intros x Hf. unfold on_sticker_updated. by rewrite Hf.
  - intros id p Hf. unfold on_sticker_moved. by rewrite Hf.
Qed.

Lemma sticker_update_witness :
  findSticker "s2" (stickers (on_sticker_moved "s2" {| pos_x := 7; pos_y := 9 |} sampleBoard))
    = Some (1%nat, set_position {| pos_x := 7; pos_y := 9 |} (sampleSticker "s2" st_command)) ∧
  on_sticker_moved "nope" {| pos_x := 7; pos_y := 9 |} sampleBoard = sampleBoard.
Proof.
  pose proof (sticker_update_and_move_keep_ids sampleBoard) as (_ & _ & _ & Hm & _ & Hn).
  split.
  - apply Hm. reflexivity.
  - apply Hn. reflexivity.
Defined.

(** X13: [sticker_deleted] removes every sticker with the given id and keeps
    the others in order; deleting again changes nothing; and deleting a
    sticker that was just added under an id not yet on the board restores the
    board. *)
Theorem sticker_delete_removes_and_undoes_add (s : BoardStore) (id : string) :
  (∀ x, x ∈ stickers (on_sticker_deleted id s) ↔ x ∈ stickers s ∧ sticker_id x ≠ id) ∧
  stickers (on_sticker_deleted id s) `sublist_of` stickers s ∧
  on_sticker_deleted id (on_sticker_deleted id s) = on_sticker_deleted id s ∧
  (∀ x, sticker_id x = id → id ∉ sticker_id <$> stickers s →
     on_sticker_deleted id (on_sticker_added x None s) = s).
Proof.
  split; [|split; [|split]].
  - intros x. unfold on_sticker_deleted. simpl. rewrite list_elem_of_filter. tauto.
  - apply sublist_filter.
  - unfold on_sticker_deleted, set_stickers. simpl. f_equal.
    rewrite list_filter_filter. apply list_filter_iff. intros y. split.
    + by intros [? _].
    + by intros ?.
  - intros x Hx Hfresh. unfold on_sticker_deleted, on_sticker_added. simpl.
    rewrite filter_app, filter_cons_False, filter_nil, app_nil_r by (intros H; by apply H).
    assert (filter (λ y, sticker_id y ≠ id) (stickers s) = stickers s) as Hall.
    { clear x Hx. induction (stickers s) as [|y l IH]; [done|].
      rewrite fmap_cons, not_elem_of_cons in Hfresh. destruct Hfresh as [Hy Hl].
      rewrite filter_cons_True by done. f_equal. by apply IH. }
    rewrite Hall. by destruct s.
Qed.

Lemma sticker_delete_witness :
  on_sticker_deleted "s3" (on_sticker_added (sampleSticker "s3" st_policy) None sampleBoard)
  = sampleBoard.
Proof.
  apply (proj2 (proj2 (proj2 (sticker_delete_removes_and_undoes_add sampleBoard "s3")))).
  - reflexivity.
  - simpl. intros H.
    repeat (apply elem_of_cons in H as [H|H]; [discriminate H|]).
    by apply elem_of_nil in H.
Defined.

(** *** Canvas actions *)

Lemma on_sticker_moved_idem id p s :
  on_sticker_moved id p (on_sticker_moved id p s) = on_sticker_moved id p s.
Proof.
  unfold on_sticker_moved at 2 3.
  destruct (findSticker id (stickers s)) as [[idx y]|] eqn:Hf.
  - unfold on_sticker_moved. simpl.
    rewrite (findSticker_insert _ id idx y (set_position p y) Hf).
    + simpl. unfold set_stickers. simpl. f_equal. by rewrite list_insert_insert_eq.
    + unfold findSticker in Hf. by apply list_find_Some in Hf as (_ & Hy & _).
  - unfold on_sticker_moved. by rewrite Hf.
Qed.

(** X14: [moveSticker] is optimistic and its echo is harmless.  Without a
    socket or without a session it does nothing at all; otherwise it moves
    the local sticker at once, exactly as the [sticker_moved] message would,
    and emits one [move_sticker]; processing the server's [sticker_moved] echo
    afterwards changes nothing. *)
Theorem moveSticker_is_optimistic (s : BoardStore) (id : string) (p : Position) :
  (socket s = None ∨ session s = None → moveSticker id p s = s) ∧
  (∀ out x, socket s = Some out → session s = Some x →
     stickers (moveSticker id p s) = stickers (on_sticker_moved id p s) ∧
     socket (moveSticker id p s)
       = Some (out ++ [move_sticker (Timer.session_id x) id p]) ∧
     on_sticker_moved id p (moveSticker id p s) = moveSticker id p s).
Proof.
  split.
  - intros [Hn|Hn]; unfold moveSticker; rewrite Hn; [done|].
    by destruct (socket s).
  - intros out x Hs Hx.
    assert (Hsock : ∀ y, socket (on_sticker_moved id p y) = socket y).
    { intros y. unfold on_sticker_moved. by destruct (findSticker id (stickers y)) as [[??]|]. }
    assert (Hsess : ∀ y, session (on_sticker_moved id p y) = session y).
    { intros y. unfold on_sticker_moved. by destruct (findSticker id (stickers y)) as [[??]|]. }
    assert (Hmv : moveSticker id p s
              = Build_BoardStore (Some (out ++ [move_sticker (Timer.session_id x) id p]))
                  (session s) (stickers (on_sticker_moved id p s))
                  (connections (on_sticker_moved id p s))
                  (participants (on_sticker_moved id p s))
                  (currentUser (on_sticker_moved id p s))
                  (aiFeedback (on_sticker_moved id p s))
                  (cursors (on_sticker_moved id p s))).
    { unfold moveSticker, emitBoard. rewrite Hs, Hx, Hsock, Hsess, Hs, Hx. done. }
    rewrite Hmv. split; [done|]. split; [done|].
    pose proof (on_sticker_moved_idem id p s) as Hidem.
    unfold on_sticker_moved at 1. simpl.
    unfold on_sticker_moved at 1 in Hidem.
    destruct (findSticker id (stickers (on_sticker_moved id p s))) as [[idx y]|];
      [|done].
    unfold set_stickers. simpl. f_equal.
    apply (f_equal stickers) in Hidem. exact Hidem.
Qed.

Lemma moveSticker_witness :
  on_sticker_moved "s1" {| pos_x := 1; pos_y := 2 |}
    (moveSticker "s1" {| pos_x := 1; pos_y := 2 |} sampleBoard)
  = moveSticker "s1" {| pos_x := 1; pos_y := 2 |} sampleBoard ∧
  moveSticker "s1" {| pos_x := 1; pos_y := 2 |}
    (Build_BoardStore None (session sampleBoard) (stickers sampleBoard) [] [] "" None ∅)
  = Build_BoardStore None (session sampleBoard) (stickers sampleBoard) [] [] "" None ∅.
Proof.
  split.
  - apply (proj2 (moveSticker_is_optimistic sampleBoard "s1" {| pos_x := 1; pos_y := 2 |})
             [] TimerScenario.hourSession eq_refl eq_refl).
  - apply (proj1 (moveSticker_is_optimistic _ "s1" {| pos_x := 1; pos_y := 2 |})).
    left. reflexivity.
Defined.

(** X15: the other canvas actions only ask the server.  Adding, updating or
    deleting a sticker, adding or deleting a connection, moving the cursor and
    changing the phase never touch the local stickers, connections,
    participants or cursors; with a socket and a session they emit exactly
    one message carrying the session id, and without either they do
    nothing. *)
Theorem requests_only_ask_the_server (r : Request) (s : BoardStore) :
  stickers (request r s) = stickers s ∧
  connections (request r s) = connections s ∧
  participants (request r s) = participants s ∧
  cursors (request r s) = cursors s ∧
  session (request r s) = session s ∧
  (socket s = None ∨ session s = None → request r s = s) ∧
  (∀ out x, socket s = Some out → session s = Some x →
     ∃ msg, socket (request r s) = Some (out ++ [msg]) ∧
       msg = match r with
             | req_addSticker type txt p =>
                 add_sticker (Timer.session_id x) type txt p (currentUser s)
             | req_updateSticker id txt p =>
                 update_sticker (Timer.session_id x) id txt p
             | req_deleteSticker id => delete_sticker (Timer.session_id x) id
             | req_addConnection a b l => add_connection (Timer.session_id x) a b l
             | req_deleteConnection id => delete_connection (Timer.session_id x) id
             | req_updateCursor cx cy =>
                 cursor_move (Timer.session_id x) cx cy (currentUser s)
             | req_updatePhase p => update_phase (Timer.session_id x) p
             end).
Proof.
  assert (Hframe : ∀ mk,
    stickers (emitBoard mk s) = stickers s ∧
    connections (emitBoard mk s) = connections s ∧
    participants (emitBoard mk s) = participants s ∧
    cursors (emitBoard mk s) = cursors s ∧
    session (emitBoard mk s) = session s ∧
    (socket s = None ∨ session s = None → emitBoard mk s = s) ∧
    (∀ out x, socket s = Some out → session s = Some x →
       socket (emitBoard mk s) = Some (out ++ [mk (Timer.session_id x)]))).
  { intros mk. unfold emitBoard.
    destruct (socket s) as [out|] eqn:Hs, (session s) as [x|] eqn:Hx; simpl;
      repeat split; try done.
    - intros [?|?]; done.
    - intros out' x' [= <-] [= <-]. done. }
  destruct r;
    cbv [request addSticker updateSticker deleteSticker addConnection
         deleteConnection updateCursor updatePhase];
    match goal with |- context [emitBoard ?mk s] =>
      destruct (Hframe mk) as (H1 & H2 & H3 & H4 & H5 & H6 & H7) end;
    (split; [exact H1|]); (split; [exact H2|]); (split; [exact H3|]);
    (split; [exact H4|]); (split; [exact H5|]); (split; [exact H6|]);
    intros out0 x0 Hs Hx; eexists; (split; [by apply H7|done]).
Qed.

Lemma requests_witness :
  socket (request (req_addSticker st_event "paid" {| pos_x := 0; pos_y := 0 |}) sampleBoard)
    = Some [add_sticker "room" st_event "paid" {| pos_x := 0; pos_y := 0 |} "Alice"] ∧
  stickers (request (req_addSticker st_event "paid" {| pos_x := 0; pos_y := 0 |}) sampleBoard)
    = stickers sampleBoard.
Proof.
  pose proof (requests_only_ask_the_server
                (req_addSticker st_event "paid" {| pos_x := 0; pos_y := 0 |}) sampleBoard)
    as (H1 & _ & _ & _ & _ & _ & H7).
  split; [|exact H1].
  destruct (H7 [] TimerScenario.hourSession eq_refl eq_refl) as (msg & Hm & ->).
  exact Hm.
Defined.

(** *** Advancing the phase *)

(** X16: [getNextPhase] walks the fixed order of phases: a listed phase is
    followed by the next one in the list, the last one by nothing; a string
    that is not a phase name is followed by the first phase, because
    [indexOf] answers [-1]. *)
Theorem getNextPhase_walks_the_order :
  (∀ i x, phaseNames !! i = Some x → getNextPhase x = phaseNames !! S i) ∧
  getNextPhase "summary" = None ∧
  (∀ x, x ∉ phaseNames → getNextPhase x = Some "orientation").
Proof.
  split; [|split].
  - intros i x Hi.
    do 6 (destruct i as [|i]; [injection Hi as <-; reflexivity|]).
    discriminate Hi.
  - reflexivity.
  - intros x Hx. unfold getNextPhase, indexOf.
    assert (list_find (λ y, y = x) phaseNames = None) as ->; [|reflexivity].
    apply list_find_None, Forall_forall. intros y Hy ->. done.
Qed.

Lemma getNextPhase_witness :
  getNextPhase "event_refinement" = Some "command_policy" ∧
  getNextPhase "wrap-up" = Some "orientation".
Proof.
  split.
  - apply (proj1 getNextPhase_walks_the_order 2%nat). reflexivity.
  - apply (proj2 (proj2 getNextPhase_walks_the_order)).
    intros H. repeat (apply elem_of_cons in H as [H|H]; [discriminate H|]).
    by apply elem_of_nil in H.
Defined.

(** X17: deleting a sticker leaves its connections behind.  [sticker_deleted]
    filters the stickers only: a connection that starts or ends at the
    deleted sticker stays in [connections], now pointing at an id no sticker
    has, until a [connection_deleted] with the connection's own id arrives,
    which removes it and nothing with another id. *)
Theorem deleted_sticker_leaves_its_connections (s : BoardStore) (id : string)
    (c : Connection) :
  c ∈ connections s → source_id c = id ∨ target_id c = id →
  let s' := on_sticker_deleted id s in
  c ∈ connections s' ∧
  (∀ x, x ∈ stickers s' → sticker_id x ≠ id) ∧
  (c ∉ connections (on_connection_deleted (connection_id c) s')) ∧
  (∀ d, d ∈ connections s' → connection_id d ≠ connection_id c →
        d ∈ connections (on_connection_deleted (connection_id c) s')) ∧
  stickers (on_connection_deleted (connection_id c) s') = stickers s'.
Proof.
  intros Hc Hend s'.
  assert (Hgone : ∀ x, x ∈ stickers s' → sticker_id x ≠ id).
  { intros x Hx. subst s'. unfold on_sticker_deleted in Hx. simpl in Hx.
    by apply list_elem_of_filter in Hx as [? _]. }
  split; [done|]. split; [done|]. split.
  { unfold on_connection_deleted. simpl. intros Hin.
    by apply list_elem_of_filter in Hin as [? _]. }
  split; [|done].
  intros d Hd Hne. unfold on_connection_deleted. simpl.
  by apply list_elem_of_filter.
Qed.

Lemma deleted_sticker_witness :
  let c := {| connection_id := "c1"; source_id := "s1"; target_id := "s2";
              label := None |} in
  c ∈ connections (on_sticker_deleted "s1" (on_connection_added c sampleBoard)).
Proof.
  intros c.
  apply (proj1 (deleted_sticker_leaves_its_connections
                  (on_connection_added c sampleBoard) "s1" c
                  ltac:(apply list_elem_of_singleton; reflexivity)
                  (or_introl eq_refl))).
Defined.

(** X18: offline is not left.  [participant_offline] drops the cursor of the
    socket id and keeps the participant list as it is; [participant_left]
    drops the cursor and every participant with that socket id.  Neither
    touches the cursor of another socket id, and a [cursor_update] that
    arrives afterwards shows the cursor again whether or not a participant
    with that id is listed. *)
Theorem offline_keeps_the_participant_left_removes (s : BoardStore) (sid : string) :
  let off := on_participant_offline sid s in
  let gone := on_participant_left sid s in
  participants off = participants s ∧
  (cursors off !! sid = None) ∧ (cursors gone !! sid = None) ∧
  (∀ p, p ∈ participants gone ↔ p ∈ participants s ∧ participant_id p ≠ sid) ∧
  (∀ other, other ≠ sid →
     cursors off !! other = cursors s !! other ∧
     cursors gone !! other = cursors s !! other) ∧
  (∀ x y name,
     cursors (on_cursor_update sid x y name gone) !! sid
       = Some {| cursor_x := x; cursor_y := y; cursor_name := name |} ∧
     participants (on_cursor_update sid x y name gone) = participants gone).
Proof.
  intros off gone. subst off gone.
  unfold on_participant_offline, on_participant_left, on_cursor_update. simpl.
  split; [done|]. split; [apply lookup_delete_eq|]. split; [apply lookup_delete_eq|].
  split; [intros p; rewrite list_elem_of_filter; tauto|]. split.
  - intros other Hne. by rewrite lookup_delete_ne.
  - intros x y name. split; [apply lookup_insert_eq|done].
Qed.

Lemma offline_keeps_witness :
  participants (on_participant_offline "sidA" sampleBoard) = participants sampleBoard.
Proof.
  apply (proj1 (offline_keeps_the_participant_left_removes sampleBoard "sidA")).
Defined.

End BoardProps.

(** * Further properties of the header timer *)
Module TimerExtra.
Import Timer TimerMore.

Open Scope Z_scope.

Lemma set_timer_id v : set_timer (timer v) v = v.
Proof. by destruct v. Qed.

Lemma emittedSince_app t t' new :
  emitted t' = emitted t ++ new → emittedSince t t' = new.
Proof. intros H. unfold emittedSince. by rewrite H, drop_app_length. Qed.

(** What one guarded notification does. *)
Lemma threshold_hit remaining at_ key ev t :
  remaining = at_ → key ∉ warningsSent t →
  threshold remaining at_ key ev t = notify key ev t.
Proof. intros. unfold threshold. by rewrite decide_True. Qed.

Lemma threshold_miss remaining at_ key ev t :
  remaining ≠ at_ ∨ key ∈ warningsSent t →
  threshold remaining at_ key ev t = t.
Proof.
  intros H. unfold threshold. rewrite decide_False; [done|].
  intros [? ?]. by destruct H.
Qed.

Lemma threshold_emitted remaining at_ key ev t :
  ∃ new, emitted (threshold remaining at_ key ev t) = emitted t ++ new.
Proof.
  unfold threshold. case_decide; [by exists [ev]|]. exists []. by rewrite app_nil_r.
Qed.

Lemma threshold_keys remaining at_ key ev t k :
  k ∈ warningsSent (threshold remaining at_ key ev t) → k = key ∨ k ∈ warningsSent t.
Proof.
  unfold threshold. case_decide; [|by right]. simpl. set_solver.
Qed.

(** Membership in a chain of appended segments. *)
Ltac in_chain :=
  repeat first
    [ by apply list_elem_of_singleton
    | by (apply elem_of_app; left; apply list_elem_of_singleton)
    | apply elem_of_app; right ].

Section Thresholds.

Variable floorShare : Z → Z → Z.

(** X19: a threshold that is hit is notified.  When [checkTimeEvents] runs
    with the remaining time of the phase at exactly 300, 60 or 0 seconds, or
    the remaining total at exactly 600, 300 or 0, and the key of that
    threshold is not yet recorded, the corresponding event is emitted by this
    very call; at the end of the workshop the local clock is stopped as
    well. *)
Theorem hit_threshold_is_notified (v : View) :
  let p := currentPhase v in
  let phaseRemaining := phaseRemainingSeconds floorShare v in
  let totalRemaining := remainingSeconds v in
  let sent := warningsSent (timer v) in
  let v' := checkTimeEvents floorShare v in
  let new := emittedSince (timer v) (timer v') in
  (phaseRemaining = 300 → phaseName p +:+ "-5min" ∉ sent →
     timeWarning "phase-5min" 5 p ∈ new) ∧
  (phaseRemaining = 60 → phaseName p +:+ "-1min" ∉ sent →
     timeWarning "phase-1min" 1 p ∈ new) ∧
  (phaseRemaining = 0 → phaseName p +:+ "-end" ∉ sent → phaseTimeUp p ∈ new) ∧
  (totalRemaining = 600 → "total-10min" ∉ sent →
     timeWarning "total-10min" 10 p ∈ new) ∧
  (totalRemaining = 300 → "total-5min" ∉ sent →
     timeWarning "total-5min" 5 p ∈ new) ∧
  (totalRemaining = 0 → "workshop-end" ∉ sent →
     workshopEnd ∈ new ∧ timerInterval (timer v') = None ∧
     isRunning (timer v') = false).
Proof.
  intros p pr tr ws v' new. subst v' new. unfold checkTimeEvents. cbv zeta.
  change (timer (set_timer ?t v)) with t.
  fold p pr tr.
  set (t1 := threshold pr 300 (phaseName p +:+ "-5min") (timeWarning "phase-5min" 5 p) (timer v)).
  set (t2 := threshold pr 60 (phaseName p +:+ "-1min") (timeWarning "phase-1min" 1 p) t1).
  set (t3 := threshold pr 0 (phaseName p +:+ "-end") (phaseTimeUp p) t2).
  set (t4 := threshold tr 600 "total-10min" (timeWarning "total-10min" 10 p) t3).
  set (t5 := threshold tr 300 "total-5min" (timeWarning "total-5min" 5 p) t4).
  set (t6 := if decide (tr = 0 ∧ "workshop-end" ∉ warningsSent t5)
             then pauseTimerLocal (notify "workshop-end" workshopEnd t5) else t5).
  destruct (threshold_emitted pr 300 (phaseName p +:+ "-5min")
              (timeWarning "phase-5min" 5 p) (timer v)) as [n1 E1].
  destruct (threshold_emitted pr 60 (phaseName p +:+ "-1min")
              (timeWarning "phase-1min" 1 p) t1) as [n2 E2].
  destruct (threshold_emitted pr 0 (phaseName p +:+ "-end") (phaseTimeUp p) t2)
    as [n3 E3].
  destruct (threshold_emitted tr 600 "total-10min"
              (timeWarning "total-10min" 10 p) t3) as [n4 E4].
  destruct (threshold_emitted tr 300 "total-5min"
              (timeWarning "total-5min" 5 p) t4) as [n5 E5].
  fold t1 in E1, E2. fold t2 in E2, E3. fold t3 in E3, E4. fold t4 in E4, E5.
  fold t5 in E5.
  assert (∃ n6, emitted t6 = emitted t5 ++ n6) as [n6 E6].
  { subst t6. case_decide; [by exists [workshopEnd]|]. exists []. by rewrite app_nil_r. }
  assert (Hall : emitted t6 = emitted (timer v) ++ n1 ++ n2 ++ n3 ++ n4 ++ n5 ++ n6).
  { rewrite E6, E5, E4, E3, E2, E1. by rewrite <- !app_assoc. }
  rewrite (emittedSince_app _ _ _ Hall).
  assert (K1 : ∀ k, k ∈ warningsSent t1 → k = phaseName p +:+ "-5min" ∨ k ∈ ws)
    by (intros k; apply threshold_keys).
  assert (K2 : ∀ k, k ∈ warningsSent t2 →
            k = phaseName p +:+ "-1min" ∨ k = phaseName p +:+ "-5min" ∨ k ∈ ws).
  { intros k Hk. apply threshold_keys in Hk as [?|Hk]; [by left|]. right. by apply K1. }
  assert (K3 : ∀ k, k ∈ warningsSent t3 →
            k = phaseName p +:+ "-end" ∨ k = phaseName p +:+ "-1min" ∨
            k = phaseName p +:+ "-5min" ∨ k ∈ ws).
  { intros k Hk. apply threshold_keys in Hk as [?|Hk]; [by left|]. right. by apply K2. }
  assert (K4 : ∀ k, k ∈ warningsSent t4 →
            k = "total-10min" ∨ k = phaseName p +:+ "-end" ∨
            k = phaseName p +:+ "-1min" ∨ k = phaseName p +:+ "-5min" ∨ k ∈ ws).
  { intros k Hk. apply threshold_keys in Hk as [?|Hk]; [by left|]. right. by apply K3. }
  assert (K5 : ∀ k, k ∈ warningsSent t5 →
            k = "total-5min" ∨ k = "total-10min" ∨ k = phaseName p +:+ "-end" ∨
            k = phaseName p +:+ "-1min" ∨ k = phaseName p +:+ "-5min" ∨ k ∈ ws).
  { intros k Hk. apply threshold_keys in Hk as [?|Hk]; [by left|]. right. by apply K4. }
  split; [|split; [|split; [|split; [|split]]]].
  - intros Hr Hk. subst t1. rewrite threshold_hit in E1 by done. simpl in E1.
    apply app_inv_head in E1 as <-. in_chain.
  - intros Hr Hk.
    assert (phaseName p +:+ "-1min" ∉ warningsSent t1) as Hk1.
    { intros Hin. apply K1 in Hin as [Hin|Hin]; [|done]. by destruct p. }
    subst t2. rewrite threshold_hit in E2 by done. simpl in E2.
    apply app_inv_head in E2 as <-. in_chain.
  - intros Hr Hk.
    assert (phaseName p +:+ "-end" ∉ warningsSent t2) as Hk2.
    { intros Hin. apply K2 in Hin as [Hin|[Hin|Hin]]; [| |done]; by destruct p. }
    subst t3. rewrite threshold_hit in E3 by done. simpl in E3.
    apply app_inv_head in E3 as <-. in_chain.
  - intros Hr Hk.
    assert ("total-10min" ∉ warningsSent t3) as Hk3.
    { intros Hin. apply K3 in Hin as [Hin|[Hin|[Hin|Hin]]]; [| | |done];
        by destruct p. }
    subst t4. rewrite threshold_hit in E4 by done. simpl in E4.
    apply app_inv_head in E4 as <-. in_chain.
  - intros Hr Hk.
    assert ("total-5min" ∉ warningsSent t4) as Hk4.
    { intros Hin. apply K4 in Hin as [Hin|[Hin|[Hin|[Hin|Hin]]]]; [| | | |done];
        [discriminate Hin|by destruct p..]. }
    subst t5. rewrite threshold_hit in E5 by done. simpl in E5.
    apply app_inv_head in E5 as <-. in_chain.
  - intros Hr Hk.
    assert ("workshop-end" ∉ warningsSent t5) as Hk5.
    { intros Hin. apply K5 in Hin as [Hin|[Hin|[Hin|[Hin|[Hin|Hin]]]]];
        [| | | | |done]; [discriminate Hin..|by destruct p|by destruct p|by destruct p]. }
    subst t6. rewrite decide_True in E6 |- * by done. simpl in E6.
    apply app_inv_head in E6 as <-. split; [in_chain|done].
Qed.

(** X20: off the marks nothing is notified.  When neither remaining time is
    exactly on one of its marks, [checkTimeEvents] changes nothing; so a
    clock that is set past a mark by a re-sync never raises the event of the
    mark it skipped. *)
Theorem no_notification_off_the_marks (v : View) :
  phaseRemainingSeconds floorShare v ∉ [300; 60; 0] →
  remainingSeconds v ∉ [600; 300; 0] →
  checkTimeEvents floorShare v = v.
Proof.
  intros Hp Ht. unfold checkTimeEvents. cbv zeta.
  rewrite !not_elem_of_cons in Hp, Ht.
  destruct Hp as (P1 & P2 & P3 & _). destruct Ht as (T1 & T2 & T3 & _).
  rewrite (threshold_miss _ 300) by by left.
  rewrite (threshold_miss _ 60) by by left.
  rewrite (threshold_miss _ 0) by by left.
  rewrite (threshold_miss _ 600) by by left.
  rewrite (threshold_miss _ 300) by by left.
  rewrite decide_False by (by intros [? _]).
  apply set_timer_id.
Qed.

End Thresholds.

Lemma hit_threshold_witness :
  timeWarning "phase-5min" 5 orientation
    ∈ emittedSince (timer (TimerScenario.runningView 60))
        (timer (checkTimeEvents TimerScenario.exactShare (TimerScenario.runningView 60))).
Proof.
  apply (proj1 (hit_threshold_is_notified TimerScenario.exactShare
                  (TimerScenario.runningView 60))).
  - reflexivity.
  - simpl. apply not_elem_of_empty.
Defined.

Lemma no_notification_witness :
  checkTimeEvents TimerScenario.exactShare (TimerScenario.runningView 61)
  = TimerScenario.runningView 61.
Proof.
  apply no_notification_off_the_marks.
  - vm_compute. intros H.
    repeat (apply elem_of_cons in H as [H|H]; [discriminate H|]).
    by apply elem_of_nil in H.
  - vm_compute. intros H.
    repeat (apply elem_of_cons in H as [H|H]; [discriminate H|]).
    by apply elem_of_nil in H.
Defined.

(** *** Counting up to the end *)

Lemma quiet_refl t : quiet t t.
Proof.
  repeat split; try done. exists []. rewrite app_nil_r. split; [done|].
  apply not_elem_of_nil.
Qed.

Lemma quiet_trans t1 t2 t3 : quiet t1 t2 → quiet t2 t3 → quiet t1 t3.
Proof.
  intros (A1 & B1 & C1 & D1 & E1 & (n1 & F1 & G1) & H1)
         (A2 & B2 & C2 & D2 & E2 & (n2 & F2 & G2) & H2).
  repeat split; try congruence; [|auto].
  exists (n1 ++ n2). split; [by rewrite F2, F1, app_assoc|].
  rewrite elem_of_app. tauto.
Qed.

Lemma quiet_threshold remaining at_ key ev t :
  key ≠ "workshop-end" → ev ≠ workshopEnd →
  quiet t (threshold remaining at_ key ev t).
Proof.
  intros Hk He. unfold threshold. case_decide; [|apply quiet_refl].
  repeat split; try done.
  - exists [ev]. split; [done|]. intros Hin. apply list_elem_of_singleton in Hin. done.
  - simpl. rewrite elem_of_union, elem_of_singleton. intros [?|?]; [congruence|done].
Qed.

Section Counting.

Variable floorShare : Z → Z → Z.

(** The five guarded notifications that precede the end-of-workshop check. *)
Lemma checkTimeEvents_shape v :
  ∃ t5, quiet (timer v) t5 ∧
    checkTimeEvents floorShare v
    = set_timer
        (if decide (remainingSeconds v = 0 ∧ "workshop-end" ∉ warningsSent t5)
         then pauseTimerLocal (notify "workshop-end" workshopEnd t5) else t5) v.
Proof.
  unfold checkTimeEvents. cbv zeta.
  set (p := currentPhase v).
  set (pr := phaseRemainingSeconds floorShare v).
  set (tr := remainingSeconds v).
  set (t1 := threshold pr 300 _ _ (timer v)).
  set (t2 := threshold pr 60 _ _ t1).
  set (t3 := threshold pr 0 _ _ t2).
  set (t4 := threshold tr 600 _ _ t3).
  set (t5 := threshold tr 300 _ _ t4).
  exists t5. split; [|done].
  assert (quiet (timer v) t1) as H1 by (apply quiet_threshold; [by destruct p|done]).
  assert (quiet t1 t2) as H2 by (apply quiet_threshold; [by destruct p|done]).
  assert (quiet t2 t3) as H3 by (apply quiet_threshold; [by destruct p|done]).
  assert (quiet t3 t4) as H4 by (apply quiet_threshold; done).
  assert (quiet t4 t5) as H5 by (apply quiet_threshold; done).
  eauto using quiet_trans.
Qed.

Lemma ticks_S n v : ticks floorShare (S n) v = ticks floorShare n (tick floorShare v).
Proof. done. Qed.

Lemma tick_stopped v : timerInterval (timer v) = None → tick floorShare v = v.
Proof. intros H. unfold tick. by rewrite H. Qed.

Lemma ticks_stopped n v :
  timerInterval (timer v) = None → ticks floorShare n v = v.
Proof.
  intros H. induction n as [|n IH]; [done|]. by rewrite ticks_S, tick_stopped.
Qed.

(** One tick of a running, unpaused timer that has not reached the end. *)
Lemma tick_counts v :
  is_Some (timerInterval (timer v)) → isPaused (store v) = false →
  elapsedSeconds (timer v) < totalSeconds v →
  "workshop-end" ∉ warningsSent (timer v) →
  let v' := tick floorShare v in
  store v' = store v ∧ totalMinutes (timer v') = totalMinutes (timer v) ∧
  elapsedSeconds (timer v') = elapsedSeconds (timer v) + 1 ∧
  (elapsedSeconds (timer v) + 1 < totalSeconds v →
     timerInterval (timer v') = timerInterval (timer v) ∧
     ("workshop-end" ∉ warningsSent (timer v')) ∧
     ∃ new, emitted (timer v') = emitted (timer v) ++ new ∧ workshopEnd ∉ new) ∧
  (elapsedSeconds (timer v) + 1 = totalSeconds v →
     timerInterval (timer v') = None ∧ isRunning (timer v') = false ∧
     ∃ new, emitted (timer v') = emitted (timer v) ++ new ++ [workshopEnd] ∧
            workshopEnd ∉ new).
Proof.
  intros [i Hi] Hp Hlt Hk v'. subst v'. unfold tick. rewrite Hi, Hp.
  set (v1 := set_timer (set_elapsedSeconds (elapsedSeconds (timer v) + 1) (timer v)) v).
  destruct (checkTimeEvents_shape v1)
    as (t5 & (A & B & C & D & E & (new & F & G) & H) & ->).
  assert (Htot : totalSeconds v1 = totalSeconds v) by done.
  assert (Hrem : remainingSeconds v1
            = Z.max 0 (totalSeconds v - (elapsedSeconds (timer v) + 1))).
  { unfold remainingSeconds. by rewrite Htot. }
  assert (Hk5 : "workshop-end" ∉ warningsSent t5) by (intros Hin; by apply Hk, H).
  split; [by case_decide|]. split; [by case_decide|]. split; [by case_decide|].
  split.
  - intros Hlt'. rewrite decide_False by (intros [Hz _]; lia). simpl.
    split; [by rewrite D|]. split; [done|]. exists new. by rewrite F.
  - intros Heq. rewrite decide_True by (split; [lia|done]). simpl.
    split; [done|]. split; [done|]. exists new. split; [|done].
    by rewrite F, app_assoc.
Qed.

(** X21: a running timer counts up to the total and stops there.  From a
    timer whose interval is installed, that is not paused, is below the total
    and has not yet announced the end, [n] firings of the interval bring the
    elapsed time to [min (elapsed + n) total]: before the total the interval
    stays installed and no [workshopEnd] is emitted; from the total on the
    interval is cleared, the timer is not running, and [workshopEnd] has been
    emitted exactly once. *)
Theorem timer_counts_to_the_end_and_stops (n : nat) (v : View) :
  is_Some (timerInterval (timer v)) → isPaused (store v) = false →
  elapsedSeconds (timer v) < totalSeconds v →
  "workshop-end" ∉ warningsSent (timer v) →
  let v' := ticks floorShare n v in
  let new := emittedSince (timer v) (timer v') in
  elapsedSeconds (timer v')
    = Z.min (elapsedSeconds (timer v) + Z.of_nat n) (totalSeconds v) ∧
  (elapsedSeconds (timer v) + Z.of_nat n < totalSeconds v →
     is_Some (timerInterval (timer v')) ∧ workshopEnd ∉ new) ∧
  (totalSeconds v ≤ elapsedSeconds (timer v) + Z.of_nat n →
     timerInterval (timer v') = None ∧ isRunning (timer v') = false ∧
     filter (λ ev, ev = workshopEnd) new = [workshopEnd]).
Proof.
  assert (Hgen : ∀ n v, is_Some (timerInterval (timer v)) → isPaused (store v) = false →
    elapsedSeconds (timer v) < totalSeconds v →
    "workshop-end" ∉ warningsSent (timer v) →
    ∃ new, emitted (timer (ticks floorShare n v)) = emitted (timer v) ++ new ∧
      elapsedSeconds (timer (ticks floorShare n v))
        = Z.min (elapsedSeconds (timer v) + Z.of_nat n) (totalSeconds v) ∧
      (elapsedSeconds (timer v) + Z.of_nat n < totalSeconds v →
         is_Some (timerInterval (timer (ticks floorShare n v))) ∧ workshopEnd ∉ new) ∧
      (totalSeconds v ≤ elapsedSeconds (timer v) + Z.of_nat n →
         timerInterval (timer (ticks floorShare n v)) = None ∧
         isRunning (timer (ticks floorShare n v)) = false ∧
         filter (λ ev, ev = workshopEnd) new = [workshopEnd])).
  { clear n v. intros n. induction n as [|n IH]; intros v Hi Hp Hlt Hk.
    - exists []. rewrite app_nil_r. change (ticks floorShare 0 v) with v.
      split; [done|]. split; [lia|].
      split; [|lia]. intros _. split; [done|]. apply not_elem_of_nil.
    - rewrite ticks_S.
      destruct (tick_counts v Hi Hp Hlt Hk) as (Hst & Htm & He & Hbelow & Hat).
      assert (Htot : totalSeconds (tick floorShare v) = totalSeconds v).
      { unfold totalSeconds. by rewrite Hst, Htm. }
      destruct (decide (elapsedSeconds (timer v) + 1 < totalSeconds v)) as [Hlt'|Hge].
      + destruct (Hbelow Hlt') as (Hint & Hk' & new1 & Hem & Hno).
        destruct (IH (tick floorShare v)) as (new2 & Hem2 & Hel2 & Hb2 & Ha2).
        { by rewrite Hint. } { by rewrite Hst. } { rewrite Htot, He. lia. } { done. }
        exists (new1 ++ new2). split; [by rewrite Hem2, Hem, app_assoc|].
        rewrite Htot, He in Hel2, Hb2, Ha2. split; [rewrite Hel2; lia|]. split.
        * intros Hlt2. destruct Hb2 as [Hi2 Hn2]; [lia|]. split; [done|].
          rewrite elem_of_app. tauto.
        * intros Hge2. destruct Ha2 as (Hi2 & Hr2 & Hf2); [lia|].
          split; [done|]. split; [done|].
          rewrite filter_app, Hf2.
          assert (filter (λ ev, ev = workshopEnd) new1 = []) as ->; [|done].
          clear -Hno. induction new1 as [|x l IHl]; [done|].
          rewrite not_elem_of_cons in Hno. destruct Hno as [Hx Hl].
          rewrite filter_cons_False by congruence. by apply IHl.
      + destruct Hat as (Hint & Hrun & new1 & Hem & Hno); [lia|].
        rewrite (ticks_stopped n _ Hint).
        exists (new1 ++ [workshopEnd]). split; [done|]. split; [rewrite He; lia|].
        split; [intros; lia|]. intros _. split; [done|]. split; [done|].
        rewrite filter_app.
        assert (filter (λ ev, ev = workshopEnd) new1 = []) as ->; [|done].
        clear -Hno. induction new1 as [|x l IHl]; [done|].
        rewrite not_elem_of_cons in Hno. destruct Hno as [Hx Hl].
        rewrite filter_cons_False by congruence. by apply IHl. }
  intros Hi Hp Hlt Hk v' new. subst v' new.
  destruct (Hgen n v Hi Hp Hlt Hk) as (new & Hem & Hel & Hb & Ha).
  rewrite (emittedSince_app _ _ _ Hem). done.
Qed.

End Counting.

Lemma timer_counts_witness :
  elapsedSeconds
    (timer (ticks TimerScenario.exactShare 10 (TimerScenario.runningView 3595))) = 3600 ∧
  timerInterval
    (timer (ticks TimerScenario.exactShare 10 (TimerScenario.runningView 3595))) = None.
Proof.
  destruct (timer_counts_to_the_end_and_stops TimerScenario.exactShare 10
              (TimerScenario.runningView 3595))
    as (He & _ & Hend).
  - simpl. eauto.
  - reflexivity.
  - vm_compute. reflexivity.
  - simpl. apply not_elem_of_empty.
  - split; [exact He|]. apply Hend. vm_compute. discriminate.
Defined.

(** *** The interval and the running flag *)

Lemma intervalConsistent_same t t' :
  isRunning t' = isRunning t → timerInterval t' = timerInterval t →
  intervalConsistent t → intervalConsistent t'.
Proof. unfold intervalConsistent. by intros -> ->. Qed.

Lemma intervalConsistent_pause t : intervalConsistent (pauseTimerLocal t).
Proof. unfold intervalConsistent. simpl. split; [done|]. by intros [? ?]. Qed.

Lemma intervalConsistent_start t :
  intervalConsistent t → intervalConsistent (startTimerLocal t).
Proof.
  intros Hc. unfold startTimerLocal. destruct (isRunning t) eqn:Hr; [done|].
  unfold intervalConsistent. simpl. split; eauto.
Qed.

Lemma startTimerLocal_keeps_interval t i :
  intervalConsistent t → timerInterval t = Some i →
  timerInterval (startTimerLocal t) = Some i.
Proof.
  intros Hc Hi. unfold startTimerLocal.
  destruct (isRunning t) eqn:Hr; [done|].
  assert (isRunning t = true) by (apply Hc; eauto). congruence.
Qed.

Section Interval.

Variable floorShare : Z → Z → Z.

Lemma checkTimeEvents_interval v :
  intervalConsistent (timer v) →
  intervalConsistent (timer (checkTimeEvents floorShare v)) ∧
  ∀ i, timerInterval (timer v) = Some i →
    timerInterval (timer (checkTimeEvents floorShare v)) = Some i ∨
    timerInterval (timer (checkTimeEvents floorShare v)) = None.
Proof.
  intros Hc. destruct (checkTimeEvents_shape floorShare v)
    as (t5 & (A & B & C & D & E & _) & ->).
  simpl. case_decide.
  - split; [apply intervalConsistent_pause|]. intros i _. by right.
  - split; [by apply (intervalConsistent_same (timer v))|].
    intros i Hi. left. congruence.
Qed.

(** X22: at most one interval.  If the interval is installed exactly when
    the timer counts as running, that remains so after every tick, socket
    message, play/pause click, reset and mount; and none of them replaces an
    installed interval by another one, so the clock never runs at double
    speed. *)
Theorem interval_is_never_doubled (a : Action) (now : Z) (v : View) :
  intervalConsistent (timer v) →
  intervalConsistent (timer (step floorShare a v)) ∧
  intervalConsistent (timer (mounted now v)) ∧
  ∀ i, timerInterval (timer v) = Some i →
    (timerInterval (timer (step floorShare a v)) = Some i ∨
     timerInterval (timer (step floorShare a v)) = None) ∧
    timerInterval (timer (mounted now v)) = Some i.
Proof.
  intros Hc.
  assert (Hdeliver : ∀ now m,
    intervalConsistent (timer (deliver now m v)) ∧
    ∀ i, timerInterval (timer v) = Some i →
      timerInterval (timer (deliver now m v)) = Some i ∨
      timerInterval (timer (deliver now m v)) = None).
  { clear now. intros now m. unfold deliver.
    set (st := handle m (store v)).
    set (v2 := if assignsStartedAt m
               then watch_workshopStartedAt now (workshopStartedAt st) (set_store st v)
               else set_store st v).
    assert (H2 : intervalConsistent (timer v2) ∧
                 ∀ i, timerInterval (timer v) = Some i →
                      timerInterval (timer v2) = Some i).
    { subst v2. destruct (assignsStartedAt m); [|by split].
      unfold watch_workshopStartedAt. destruct (workshopStartedAt st); [|by split].
      simpl. set (t := set_elapsedSeconds _ (timer v)).
      assert (intervalConsistent t) as Ht by by apply (intervalConsistent_same (timer v)).
      destruct (isRunning (timer v)) eqn:Hr; [split; [exact Ht|intros i Hi; exact Hi]|].
      split.
      - by apply intervalConsistent_start.
      - intros i Hi. by apply startTimerLocal_keeps_interval. }
    destruct H2 as [H2c H2i]. case_decide; [split; [done|]; intros i Hi; left; auto|].
    unfold watch_isPaused. destruct (isPaused st).
    - simpl. split; [apply intervalConsistent_pause|]. intros i _. by right.
    - destruct (isWorkshopRunning (store v2) && negb (isRunning (timer v2))); simpl.
      + split; [by apply intervalConsistent_start|]. intros i Hi. left.
        apply startTimerLocal_keeps_interval; auto.
      + split; [done|]. intros i Hi. left. auto. }
  assert (Hstep : intervalConsistent (timer (step floorShare a v)) ∧
    ∀ i, timerInterval (timer v) = Some i →
      timerInterval (timer (step floorShare a v)) = Some i ∨
      timerInterval (timer (step floorShare a v)) = None).
  { destruct a as [|now' m| |]; simpl.
    - unfold tick. destruct (timerInterval (timer v)) as [j|] eqn:Hj;
        [|split; [done|]; intros i Hi; discriminate Hi].
      destruct (isPaused (store v)); [split; [done|]; intros i Hi; left; congruence|].
      set (v1 := set_timer _ v).
      assert (intervalConsistent (timer v1)) as H1
        by by apply (intervalConsistent_same (timer v)).
      destruct (checkTimeEvents_interval v1 H1) as [Hc1 Hi1]. split; [done|].
      intros i Hi. apply Hi1. simpl. congruence.
    - apply Hdeliver.
    - unfold toggleTimer. destruct (isRunning (timer v)) eqn:Hr; simpl.
      + split; [apply intervalConsistent_pause|]. intros i _. by right.
      + split; [by apply intervalConsistent_start|]. intros i Hi. left.
        by apply startTimerLocal_keeps_interval.
    - split; [by apply (intervalConsistent_same (timer v))|]. intros i Hi. by left. }
  assert (Hmount : intervalConsistent (timer (mounted now v)) ∧
    ∀ i, timerInterval (timer v) = Some i →
         timerInterval (timer (mounted now v)) = Some i).
  { unfold mounted. simpl.
    assert (∀ t0, intervalConsistent
              (startTimerLocal (set_elapsedSeconds (secondsSince now t0) (timer v))) ∧
            ∀ i, timerInterval (timer v) = Some i →
              timerInterval
                (startTimerLocal (set_elapsedSeconds (secondsSince now t0) (timer v)))
              = Some i) as Hs.
    { intros t0.
      assert (intervalConsistent (set_elapsedSeconds (secondsSince now t0) (timer v)))
        as Ht by by apply (intervalConsistent_same (timer v)).
      split; [by apply intervalConsistent_start|].
      intros i Hi. by apply startTimerLocal_keeps_interval. }
    destruct (session (store v) ≫= started_at) as [t0|]; [apply Hs|].
    destruct (workshopStartedAt (store v)) as [t0|]; [apply Hs|]. by split. }
  destruct Hstep as [Hs1 Hs2]. destruct Hmount as [Hm1 Hm2].
  split; [done|]. split; [done|]. intros i Hi. split; auto.
Qed.

End Interval.

Lemma interval_witness :
  intervalConsistent
    (timer (step TimerScenario.exactShare ToggleTimer (TimerScenario.runningView 10))) ∧
  timerInterval
    (timer (step TimerScenario.exactShare
              (Deliver 5000 (workshop_started 0 orientation))
              (TimerScenario.runningView 10))) = Some 0%nat.
Proof.
  assert (intervalConsistent (timer (TimerScenario.runningView 10))) as Hc.
  { unfold intervalConsistent. simpl. split; eauto. }
  split.
  - apply (proj1 (interval_is_never_doubled TimerScenario.exactShare ToggleTimer 0
                    (TimerScenario.runningView 10) Hc)).
  - destruct (proj1 (proj2 (proj2 (interval_is_never_doubled TimerScenario.exactShare
                (Deliver 5000 (workshop_started 0 orientation)) 0
                (TimerScenario.runningView 10) Hc)) 0%nat eq_refl)) as [H|H].
    + exact H.
    + discriminate H.
Defined.

(** *** The play/pause button *)

Lemma socket_emitMsg mk st out x :
  socket st = Some out → session st = Some x →
  socket (emitMsg mk st) = Some (out ++ [mk (session_id x)]) ∧
  session (emitMsg mk st) = Some x ∧
  currentUser (emitMsg mk st) = currentUser st ∧
  workshopStartedAt (emitMsg mk st) = workshopStartedAt st ∧
  isWorkshopRunning (emitMsg mk st) = isWorkshopRunning st ∧
  isPaused (emitMsg mk st) = isPaused st ∧
  syncedElapsedSeconds (emitMsg mk st) = syncedElapsedSeconds st.
Proof. intros Hs Hx. unfold emitMsg. by rewrite Hs, Hx. Qed.

Section Button.

Variable floorShare : Z → Z → Z.

(** X23: pausing and resuming with the button.  On a running timer in a
    started workshop, a click clears the interval, so the firings that were
    still pending change nothing; the next click installs a fresh interval
    and counting continues from the same second.  The two clicks send
    [pause_timer] with [paused = true] and then with [paused = false], both
    carrying that second, and the store's own [isPaused] is written by
    neither. *)
Theorem button_pause_then_resume (n : nat) (v : View)
    (out : list ClientMsg) (x : Session) :
  isRunning (timer v) = true → isWorkshopRunning (store v) = true →
  socket (store v) = Some out → session (store v) = Some x →
  let v1 := toggleTimer v in
  let v2 := toggleTimer (ticks floorShare n v1) in
  ticks floorShare n v1 = v1 ∧
  elapsedSeconds (timer v2) = elapsedSeconds (timer v) ∧
  isRunning (timer v2) = true ∧
  timerInterval (timer v2) = Some (nextInterval (timer v)) ∧
  emitted (timer v2) = emitted (timer v) ∧
  isPaused (store v2) = isPaused (store v) ∧
  socket (store v2)
    = Some (out ++ [pause_timer (session_id x) true (elapsedSeconds (timer v));
                    pause_timer (session_id x) false (elapsedSeconds (timer v))]).
Proof.
  intros Hr Hw Hs Hx v1 v2.
  assert (Hv1 : v1 = {| store := pauseTimer true (elapsedSeconds (timer v)) (store v);
                        timer := pauseTimerLocal (timer v) |}).
  { subst v1. unfold toggleTimer. by rewrite Hr. }
  assert (Ht : ticks floorShare n v1 = v1).
  { apply ticks_stopped. by rewrite Hv1. }
  split; [done|]. subst v2. rewrite Ht, Hv1. unfold toggleTimer. simpl.
  destruct (socket_emitMsg
              (λ sid, pause_timer sid true (elapsedSeconds (timer v))) (store v) out x Hs Hx)
    as (Hs1 & Hx1 & _ & _ & Hw1 & Hp1 & _).
  fold (pauseTimer true (elapsedSeconds (timer v)) (store v)) in Hs1, Hx1, Hw1, Hp1.
  rewrite Hw1, Hw.
  destruct (socket_emitMsg
              (λ sid, pause_timer sid false (elapsedSeconds (timer v)))
              (pauseTimer true (elapsedSeconds (timer v)) (store v)) _ x Hs1 Hx1)
    as (Hs2 & _ & _ & _ & _ & Hp2 & _).
  fold (pauseTimer false (elapsedSeconds (timer v))
          (pauseTimer true (elapsedSeconds (timer v)) (store v))) in Hs2, Hp2.
  simpl. repeat split; try done.
  - by rewrite Hp2, Hp1.
  - by rewrite Hs2, <- app_assoc.
Qed.

(** X24: the first start is not recorded locally.  A click on a stopped
    timer whose store does not yet say that the workshop runs sends
    [start_workshop] with the user's name and starts counting, but leaves
    [isWorkshopRunning] false: only the server's [workshop_started] sets it.
    So a pause and a resume clicked before that message arrives send
    [start_workshop] a second time, not [pause_timer] with
    [paused = false]. *)
Theorem start_is_confirmed_by_the_server_only (v : View)
    (out : list ClientMsg) (x : Session) :
  isRunning (timer v) = false → isWorkshopRunning (store v) = false →
  socket (store v) = Some out → session (store v) = Some x →
  let v1 := toggleTimer v in
  let v3 := toggleTimer (toggleTimer v1) in
  socket (store v1)
    = Some (out ++ [start_workshop (session_id x) (currentUser (store v))]) ∧
  isRunning (timer v1) = true ∧
  isWorkshopRunning (store v1) = false ∧
  workshopStartedAt (store v1) = workshopStartedAt (store v) ∧
  socket (store v3)
    = Some (out ++ [start_workshop (session_id x) (currentUser (store v));
                    pause_timer (session_id x) true (elapsedSeconds (timer v));
                    start_workshop (session_id x) (currentUser (store v))]).
Proof.
  intros Hr Hw Hs Hx v1 v3.
  destruct (socket_emitMsg
              (λ sid, start_workshop sid (currentUser (store v))) (store v) out x Hs Hx)
    as (Hs1 & Hx1 & Hu1 & Hd1 & Hw1 & _).
  fold (startWorkshop (store v)) in Hs1, Hx1, Hu1, Hd1, Hw1.
  assert (Hv1 : v1 = {| store := startWorkshop (store v);
                        timer := startTimerLocal (timer v) |}).
  { subst v1. unfold toggleTimer. by rewrite Hr, Hw. }
  assert (Hr1 : isRunning (startTimerLocal (timer v)) = true).
  { unfold startTimerLocal. by rewrite Hr. }
  assert (He1 : elapsedSeconds (startTimerLocal (timer v)) = elapsedSeconds (timer v)).
  { unfold startTimerLocal. by rewrite Hr. }
  rewrite Hv1. simpl. rewrite Hw1, Hw. repeat split; try done.
  subst v3. rewrite Hv1. unfold toggleTimer at 2. simpl. rewrite Hr1.
  unfold toggleTimer. simpl. rewrite He1.
  destruct (socket_emitMsg
              (λ sid, pause_timer sid true (elapsedSeconds (timer v)))
              (startWorkshop (store v)) _ x Hs1 Hx1)
    as (Hs2 & Hx2 & Hu2 & _ & Hw2 & _).
  fold (pauseTimer true (elapsedSeconds (timer v)) (startWorkshop (store v)))
    in Hs2, Hx2, Hu2, Hw2.
  rewrite Hw2, Hw1, Hw.
  destruct (socket_emitMsg
              (λ sid, start_workshop sid
                 (currentUser (pauseTimer true (elapsedSeconds (timer v))
                                 (startWorkshop (store v)))))
              (pauseTimer true (elapsedSeconds (timer v)) (startWorkshop (store v)))
              _ x Hs2 Hx2)
    as (Hs3 & _).
  fold (startWorkshop (pauseTimer true (elapsedSeconds (timer v))
                         (startWorkshop (store v)))) in Hs3.
  simpl. rewrite Hs3, Hu2, Hu1, <- !app_assoc. done.
Qed.

End Button.

Lemma button_pause_witness :
  elapsedSeconds
    (timer (toggleTimer
              (ticks TimerScenario.exactShare 3
                 (toggleTimer (TimerScenario.runningView 42))))) = 42.
Proof.
  apply (proj1 (proj2 (button_pause_then_resume TimerScenario.exactShare 3
                         (TimerScenario.runningView 42) [] TimerScenario.hourSession
                         eq_refl eq_refl eq_refl eq_refl))).
Defined.

Lemma start_is_confirmed_witness :
  isWorkshopRunning (store (toggleTimer freshView)) = false.
Proof.
  apply (proj1 (proj2 (proj2 (start_is_confirmed_by_the_server_only freshView [] _
                                eq_refl eq_refl eq_refl eq_refl)))).
Defined.

(** *** Phase timings *)

Section Timings.

Variable floorShare : Z → Z → Z.

Lemma timingsFrom_phases total acc l :
  timing_phase <$> timingsFrom floorShare total acc l = l.
Proof.
  revert acc. induction l as [|p l IH]; intros acc; [done|].
  simpl. by rewrite IH.
Qed.

Lemma timingsFrom_contiguous total acc l :
  contiguous acc (timingsFrom floorShare total acc l).
Proof.
  revert acc. induction l as [|p l IH]; intros acc; [done|].
  simpl. split; [done|]. apply IH.
Qed.

Lemma phaseOrder_complete p : p ∈ phaseOrder.
Proof. destruct p; unfold phaseOrder; set_solver. Qed.

Lemma timingsFrom_find total acc l p :
  p ∈ l →
  ∃ i timing,
    list_find (λ t, timing_phase t = p) (timingsFrom floorShare total acc l)
      = Some (i, timing) ∧
    timing_phase timing = p ∧ timing ∈ timingsFrom floorShare total acc l.
Proof.
  revert acc. induction l as [|q l IH]; intros acc Hin.
  { by apply elem_of_nil in Hin. }
  simpl. destruct (decide (q = p)) as [->|Hne].
  - eexists 0%nat, _.
    split; [done|]. split; [done|]. apply elem_of_cons. by left.
  - apply elem_of_cons in Hin as [->|Hin]; [done|].
    destruct (IH (acc + floorShare total (phaseAllocation q)) Hin)
      as (i & timing & Hf & Hp & Hel).
    exists (S i), timing. rewrite Hf. simpl.
    split; [done|]. split; [done|]. apply elem_of_cons. by right.
Qed.

(** X25: the phase timings tile the session.  [phaseTimings] lists the six
    phases in their order, the first starting at second 0 and each next one
    starting at the second the previous one ends; the current phase is
    always among them, so [phaseRemainingSeconds] never takes its
    [if (!timing) return 0] exit: it is the distance to the end of the
    current phase's own timing, cut off at zero. *)
Theorem phase_timings_tile_the_session (v : View) :
  timing_phase <$> phaseTimings floorShare v = phaseOrder ∧
  contiguous 0 (phaseTimings floorShare v) ∧
  ∃ timing, timing ∈ phaseTimings floorShare v ∧
    timing_phase timing = currentPhase v ∧
    phaseRemainingSeconds floorShare v
      = Z.max 0 (endSeconds timing - elapsedSeconds (timer v)).
Proof.
  split; [apply timingsFrom_phases|]. split; [apply timingsFrom_contiguous|].
  destruct (timingsFrom_find (totalSeconds v) 0 phaseOrder (currentPhase v)
              (phaseOrder_complete _)) as (i & timing & Hf & Hp & Hel).
  exists timing. split; [done|]. split; [done|].
  unfold phaseRemainingSeconds, phaseTimings. by rewrite Hf.
Qed.

End Timings.

Lemma phase_timings_witness :
  timing_phase <$> phaseTimings TimerScenario.exactShare (TimerScenario.runningView 0)
  = phaseOrder.
Proof.
  apply (proj1 (phase_timings_tile_the_session TimerScenario.exactShare
                  (TimerScenario.runningView 0))).
Defined.

(** *** Joining late *)

(** X26: a participant who joins before the start.  Mounting the timer in a
    session that has no start time leaves the timer as it is and asks the
    server with [sync_timer]; when the answer [timer_sync] names a start
    time, the timer shows the whole seconds passed since then, runs on the
    first interval it installs, and the session takes the phase of the
    answer. *)
Theorem late_joiner_follows_the_server_clock (now0 now t0 : Z) (p : SessionPhase)
    (v : View) (out : list ClientMsg) (x : Session) :
  socket (store v) = Some out → session (store v) = Some x →
  started_at x = None → workshopStartedAt (store v) = None →
  isRunning (timer v) = false →
  let v1 := mounted now0 v in
  let v2 := deliver now (timer_sync (Some t0) p) v1 in
  timer v1 = timer v ∧
  socket (store v1) = Some (out ++ [sync_timer (session_id x)]) ∧
  elapsedSeconds (timer v2) = secondsSince now t0 ∧
  1000 * elapsedSeconds (timer v2) ≤ now - t0 < 1000 * (elapsedSeconds (timer v2) + 1) ∧
  isRunning (timer v2) = true ∧
  timerInterval (timer v2) = Some (nextInterval (timer v)) ∧
  currentPhase v2 = p ∧
  socket (store v2) = socket (store v1).
Proof.
  intros Hs Hx Hst Hws Hr v1 v2.
  destruct (socket_emitMsg sync_timer (store v) out x Hs Hx)
    as (Hs1 & Hx1 & _ & Hd1 & Hw1 & Hp1 & _).
  fold (requestTimerSync (store v)) in Hs1, Hx1, Hd1, Hw1, Hp1.
  assert (Hv1 : v1 = {| store := requestTimerSync (store v); timer := timer v |}).
  { subst v1. unfold mounted. rewrite Hx. simpl. by rewrite Hst, Hws. }
  split; [by rewrite Hv1|]. split; [by rewrite Hv1|].
  assert (Hv2 : timer v2
    = startTimerLocal (set_elapsedSeconds (secondsSince now t0) (timer v))
    ∧ session (store v2)
      = Some {| session_id := session_id x; phase := p;
                duration_minutes := duration_minutes x; started_at := started_at x |}
    ∧ socket (store v2) = socket (store v1)).
  { subst v2. rewrite Hv1. unfold deliver. cbn [store timer set_store assignsStartedAt].
    cbn [handle on_timer_sync]. rewrite decide_True by done.
    unfold watch_workshopStartedAt. simpl. rewrite Hr, Hx1. done. }
  destruct Hv2 as (Ht2 & Hx2 & Hs2).
  assert (Hsec : 1000 * secondsSince now t0 ≤ now - t0
                 < 1000 * (secondsSince now t0 + 1)).
  { unfold secondsSince.
    pose proof (Z.div_mod (now - t0) 1000 ltac:(lia)).
    pose proof (Z.mod_pos_bound (now - t0) 1000 ltac:(lia)). lia. }
  rewrite Ht2. unfold startTimerLocal. simpl. rewrite Hr. simpl.
  repeat split; try done; try lia.
  unfold currentPhase. by rewrite Hx2.
Qed.

Lemma late_joiner_witness :
  elapsedSeconds
    (timer (deliver 125500 (timer_sync (Some 5000) event_elicitation)
              (mounted 1000 freshView))) = 120.
Proof.
  apply (proj1 (proj2 (proj2 (late_joiner_follows_the_server_clock
                                1000 125500 5000 event_elicitation freshView [] _
                                eq_refl eq_refl eq_refl eq_refl eq_refl)))).
Defined.
End TimerExtra.
